(** * Kopia backend of rclone: snapshot resolution and lazy directory cache

    A shallow embedding of the read-only [kopia] backend
    (package [backend/kopia]): the wire types of [types.go], the snapshot
    resolver [Fs.getRootId] with its resettable [sync.Once] gate, the retry
    decision [Fs.shouldRetry], the directory walk [Fs.list] /
    [Fs.newObject] with the per-directory listing cache, and the mutation
    stubs.  Go strings are byte strings ([string]), [int64] and [time.Time]
    values are integers ([Z]), a [*Directory] is an address together with the
    fields that never change after allocation, and the one field that does
    change ([entries]) lives in a store keyed by that address. *)

From Stdlib Require Import ZArith Ascii String List Bool Lia.
From stdpp Require Import base option list gmap.

Local Open Scope string_scope.
Local Open Scope Z_scope.

(* ===================================================================== *)
(** ** Go standard library: [strings] and [path] on byte strings *)
(* ===================================================================== *)

Definition slash : ascii := "/"%char.

(** [strings.TrimLeft(s, "/")] *)
Fixpoint trimLeft (s : string) : string :=
  match s with
  | EmptyString => EmptyString
  | String c s' => if Ascii.eqb c slash then trimLeft s' else s
  end.

(** [strings.TrimRight(s, "/")] *)
Fixpoint trimRight (s : string) : string :=
  match s with
  | EmptyString => EmptyString
  | String c s' =>
      match trimRight s' with
      | EmptyString => if Ascii.eqb c slash then EmptyString else String c EmptyString
      | t => String c t
      end
  end.

(** [strings.Trim(s, "/")] *)
Definition Trim (s : string) : string := trimRight (trimLeft s).

(** [strings.Contains(s, substr)] *)
Fixpoint Contains (s substr : string) : bool :=
  String.prefix substr s ||
  match s with
  | EmptyString => false
  | String _ s' => Contains s' substr
  end.

(** [slices.Contains(l, x)] on a slice of strings *)
Definition slices_Contains (l : list string) (x : string) : bool :=
  existsb (String.eqb x) l.

(** [strings.Split(s, "/")]: the pieces between the slashes. *)
Fixpoint split_slash (s : string) : list string :=
  match s with
  | EmptyString => [EmptyString]
  | String c s' =>
      if Ascii.eqb c slash then EmptyString :: split_slash s'
      else match split_slash s' with
           | seg :: rest => String c seg :: rest
           | [] => [String c EmptyString]
           end
  end.

(** [strings.Join(segs, "/")] *)
Fixpoint join_slash (segs : list string) : string :=
  match segs with
  | [] => EmptyString
  | [seg] => seg
  | seg :: rest => seg ++ String slash (join_slash rest)
  end.

(** One element of [path.Clean]'s scan.  [out] is the output so far, last
    element first.  Empty elements and [.] are dropped; [..] removes the last
    real element, and where there is none it is kept on an unrooted path and
    dropped on a rooted one; anything else is appended. *)
Definition clean_step (rooted : bool) (out : list string) (seg : string) : list string :=
  if String.eqb seg "" || String.eqb seg "." then out
  else if String.eqb seg ".." then
    match out with
    | top :: rest =>
        if String.eqb top ".." then (if rooted then out else seg :: out) else rest
    | [] => if rooted then [] else [seg]
    end
  else seg :: out.

(** [path.Clean] *)
Definition Clean (p : string) : string :=
  match p with
  | EmptyString => "."
  | String c _ =>
      let rooted := Ascii.eqb c slash in
      let out := fold_left (clean_step rooted) (split_slash p) [] in
      let body := join_slash (rev out) in
      if rooted then String slash body
      else if String.eqb body "" then "." else body
  end.

(** [path.Split]: everything up to and including the last slash, and the
    rest. *)
Fixpoint Split (s : string) : string * string :=
  match s with
  | EmptyString => (EmptyString, EmptyString)
  | String c s' =>
      let '(d, f) := Split s' in
      if negb (String.eqb d "") then (String c d, f)
      else if Ascii.eqb c slash then (String c EmptyString, f)
      else (EmptyString, String c f)
  end.

(** [path.Join(a, b)] *)
Definition Join (a b : string) : string :=
  if String.eqb a "" && String.eqb b "" then ""
  else Clean (if String.eqb a "" then b else a ++ String slash b).

(* ===================================================================== *)
(** ** types.go *)
(* ===================================================================== *)

Module Summary.
Record t := mk {
  Size : Z; Files : Z; Symlinks : Z; Dirs : Z; MaxTime : Z; NumFailed : Z }.
End Summary.

Module Snapshot.
Record t := mk {
  ID : string;
  Description : string;
  StartTime : Z;
  EndTime : Z;
  Summary : Summary.t;
  RootID : string;
  Retention : list string;
  Pins : list string }.
End Snapshot.

Module SnapshotResponse.
Record t := mk {
  Snapshots : list Snapshot.t;
  UnfilteredCount : Z;
  UniqueCount : Z }.
End SnapshotResponse.

Module Entry.
(** The field [Type] of the source is [Type_] here. *)
Record t := mk {
  Name : string;
  Type_ : string;
  Mode : string;
  Size : Z;
  MTime : Z;
  Obj : string;
  Summary : Summary.t }.
End Entry.

Module FileResponse.
Record t := mk {
  Stream : string;
  Entries : list Entry.t;
  Summary : Summary.t }.
End FileResponse.

(* ===================================================================== *)
(** ** Errors *)
(* ===================================================================== *)

(** The sentinel errors of package [fs] that the backend returns, the error
    built by [fmt.Errorf("%s not found", f.String())], and whatever error a
    remote call ends with. *)
Inductive error :=
| ErrorPermissionDenied
| ErrorCantSetModTime
| ErrorIsFile
| ErrorIsDir
| ErrorObjectNotFound
| ErrorDirNotFound
| ErrUnsupported
| ErrNotFound (what : string)
| ErrRemote (msg : string)
| ErrContext (msg : string).

Definition error_eqb (a b : error) : bool :=
  match a, b with
  | ErrorPermissionDenied, ErrorPermissionDenied
  | ErrorCantSetModTime, ErrorCantSetModTime
  | ErrorIsFile, ErrorIsFile
  | ErrorIsDir, ErrorIsDir
  | ErrorObjectNotFound, ErrorObjectNotFound
  | ErrorDirNotFound, ErrorDirNotFound
  | ErrUnsupported, ErrUnsupported => true
  | ErrNotFound x, ErrNotFound y => String.eqb x y
  | ErrRemote x, ErrRemote y => String.eqb x y
  | ErrContext x, ErrContext y => String.eqb x y
  | _, _ => false
  end.

(** [errors.Is(err, target)] for errors that wrap nothing. *)
Definition errors_Is (err target : error) : bool := error_eqb err target.

(** What a call produces: a value, an error, or [OutOfFuel] when the
    bounded recursion of the model is cut short (shown below never to happen
    for [list] and [newObject]). *)
Inductive result (A : Type) :=
| Ok (a : A)
| Err (e : error)
| OutOfFuel.
Arguments Ok {A} a.
Arguments Err {A} e.
Arguments OutOfFuel {A}.

(* ===================================================================== *)
(** ** The handle, its directory entries and the world around it *)
(* ===================================================================== *)

Module Options.
Record t := mk {
  URL : string; User : string; Host : string; Path : string; Snapshot : string }.
End Options.

Module ObjectInfo.
(** The back pointer [fs] of the source is left out: there is one
    handle. *)
Record t := mk {
  id : string; name : string; remote : string; size : Z; modTime : Z }.
End ObjectInfo.

(** A value of the interface [DirEntry]: a [*Object], or a [*Directory]
    allocated at address [addr].  The field [entries] of the directory is
    the store's binding for [addr]; no binding is the nil pointer. *)
Inductive DirEntry :=
| Object (info : ObjectInfo.t)
| Directory (info : ObjectInfo.t) (addr : nat).

Abbreviation DirEntries := (list DirEntry).

Definition info_of (e : DirEntry) : ObjectInfo.t :=
  match e with Object info => info | Directory info _ => info end.

(** [ObjectInfo.Name], through the interface *)
Definition Name (e : DirEntry) : string := ObjectInfo.name (info_of e).

(** [Directory.Items] *)
Definition Items (store : gmap nat DirEntries) (addr : nat) : Z :=
  match store !! addr with
  | None => -1
  | Some es => Z.of_nat (length es)
  end.

(** The slice expression [s[n:]]: what is left of [s] after its first [n]
    bytes; there is no value (the expression panics) when [s] has fewer. *)
Fixpoint slice_from (n : nat) (s : string) : option string :=
  match n, s with
  | O, _ => Some s
  | S n', String _ s' => slice_from n' s'
  | S _, EmptyString => None
  end.

(** [ObjectInfo.String]; [None] is the nil receiver. *)
Definition ObjectInfo_String (o : option ObjectInfo.t) : string :=
  match o with
  | None => "<nil>"
  | Some o => ObjectInfo.remote o
  end.

(** The struct [Fs]; [initOnce] is the done flag of the [sync.Once]. *)
Record Fs := mkFs {
  name : string;
  root : string;
  opt : Options.t;
  initOnce : bool;
  rootId : string;
  rootEntries : option DirEntries }.

(** The handle together with what lives outside the struct: the [entries]
    field of every allocated directory, the allocator, the goroutines that
    sleep before they reset the gate (by wake-up time, in milliseconds), the
    clock, and the record of the remote calls made so far.  A remote call is
    one [f.pacer.Call], whatever retries the pacer makes inside it;
    [objectCalls] keeps, for each object call of [listObject], the path it
    was made for, the object identifier asked, and whether a listing came
    back; [openCalls] counts the object calls of [Open]. *)
Record World := mkWorld {
  handle : Fs;
  store : gmap nat DirEntries;
  next : nat;
  sleepers : list Z;
  clock : Z;
  snapshotCalls : nat;
  objectCalls : list (string * string * bool);
  openCalls : nat }.

Definition with_handle (f : Fs -> Fs) (w : World) : World :=
  mkWorld (f (handle w)) (store w) (next w) (sleepers w) (clock w)
          (snapshotCalls w) (objectCalls w) (openCalls w).

Definition set_initOnce (b : bool) (f : Fs) : Fs :=
  mkFs (name f) (root f) (opt f) b (rootId f) (rootEntries f).

Definition set_rootId (r : string) (f : Fs) : Fs :=
  mkFs (name f) (root f) (opt f) (initOnce f) r (rootEntries f).

Definition set_rootEntries (es : option DirEntries) (f : Fs) : Fs :=
  mkFs (name f) (root f) (opt f) (initOnce f) (rootId f) es.

Definition set_root (r : string) (f : Fs) : Fs :=
  mkFs (name f) r (opt f) (initOnce f) (rootId f) (rootEntries f).

Definition set_entries (addr : nat) (es : DirEntries) (w : World) : World :=
  mkWorld (handle w) (<[addr := es]> (store w)) (next w) (sleepers w) (clock w)
          (snapshotCalls w) (objectCalls w) (openCalls w).

Definition set_next (n : nat) (w : World) : World :=
  mkWorld (handle w) (store w) n (sleepers w) (clock w)
          (snapshotCalls w) (objectCalls w) (openCalls w).

Definition go_sleeper (wake : Z) (w : World) : World :=
  mkWorld (handle w) (store w) (next w) (sleepers w ++ [wake]) (clock w)
          (snapshotCalls w) (objectCalls w) (openCalls w).

Definition count_snapshotCall (w : World) : World :=
  mkWorld (handle w) (store w) (next w) (sleepers w) (clock w)
          (S (snapshotCalls w)) (objectCalls w) (openCalls w).

Definition log_objectCall (remote objId : string) (listed : bool) (w : World) : World :=
  mkWorld (handle w) (store w) (next w) (sleepers w) (clock w)
          (snapshotCalls w) (objectCalls w ++ [(remote, objId, listed)]) (openCalls w).

Definition count_openCall (w : World) : World :=
  mkWorld (handle w) (store w) (next w) (sleepers w) (clock w)
          (snapshotCalls w) (objectCalls w) (S (openCalls w)).

(** [http.Response], as far as the backend looks at it *)
Record Response := mkResponse {
  StatusCode : Z;
  ContentType : string }.

(** The remote side.  Each function gives the outcome of one
    [f.pacer.Call] around [f.srv.CallJSON]: the error it ends with, or the
    response and the decoded body ([open_api]: the body of the response).
    The first argument is the number of calls of that kind made before, so
    the answers may change over time. *)
Record Server := mkServer {
  snapshots_api : nat -> string -> string -> string -> error + SnapshotResponse.t;
  objects_api : nat -> string -> error + (option Response * FileResponse.t);
  open_api : nat -> string -> error + string }.

(** State and error monad of the handle's methods. *)
Definition M (A : Type) : Type := World -> result A * World.

Definition ret {A} (a : A) : M A := fun w => (Ok a, w).
Definition fail {A} (e : error) : M A := fun w => (Err e, w).
Definition bind {A B} (m : M A) (k : A -> M B) : M B :=
  fun w => match m w with
           | (Ok a, w') => k a w'
           | (Err e, w') => (Err e, w')
           | (OutOfFuel, w') => (OutOfFuel, w')
           end.
Definition modify (f : World -> World) : M unit := fun w => (Ok tt, f w).

Notation "x <- m ;; k" := (bind m (fun x => k))
  (at level 100, m at next level, right associativity).

(* ===================================================================== *)
(** ** Fs.shouldRetry *)
(* ===================================================================== *)

Section Retry.
(** [context.Context] and the two classifiers of package [fserrors] are
    taken as given.  [ContextError ctx err] stands for
    [fserrors.ContextError(ctx, &err)]: its boolean result and the value
    left in [err]. *)
Variable Context : Type.
Variable ContextError : Context -> option error -> bool * option error.
Variable ShouldRetry : option error -> bool.

Definition shouldRetry (ctx : Context) (resp : option Response) (err : option error)
  : bool * option error :=
  let '(inError, err) := ContextError ctx err in
  if inError then (false, err)
  else (ShouldRetry err
        || match resp with
           | None => true
           | Some r => 500 <=? StatusCode r
           end,
        err).
End Retry.

(* ===================================================================== *)
(** ** Fs.getRootId *)
(* ===================================================================== *)

(** The second test of the loop body: not tagged incomplete, and the
    specifier is [pin] with a pinned snapshot, or empty, or [latest]. *)
Definition accepts (spec : string) (snapshot : Snapshot.t) : bool :=
  negb (slices_Contains (Snapshot.Retention snapshot) "incomplete")
  && ((String.eqb spec "pin" && (0 <? length (Snapshot.Pins snapshot))%nat)
      || (String.eqb spec "" || String.eqb spec "latest")).

(** The loop [for i := len(snapshots) - 1; i >= 0; i--] with [n] indices
    still to visit: the index and the snapshot at which it breaks. *)
Fixpoint scan_from (spec : string) (snapshots : list Snapshot.t) (n : nat)
  : option (nat * Snapshot.t) :=
  match n with
  | O => None
  | S i =>
      match snapshots !! i with
      | None => scan_from spec snapshots i
      | Some snapshot =>
          if String.eqb spec (Snapshot.RootID snapshot) then Some (i, snapshot)
          else if accepts spec snapshot then Some (i, snapshot)
          else scan_from spec snapshots i
      end
  end.

Definition scan (spec : string) (snapshots : list Snapshot.t) : option (nat * Snapshot.t) :=
  scan_from spec snapshots (length snapshots).

(** [ObjectInfo.Remote]; the back pointer [o.fs] is the handle [f]. *)
Definition Remote (f : Fs) (o : ObjectInfo.t) : option string :=
  let s := String.length (root f) in
  if Nat.eqb s 0 then Some (ObjectInfo.remote o)
  else slice_from (s + 1) (ObjectInfo.remote o).

(** [Fs.String] *)
Definition Fs_String (f : Fs) : string :=
  "kopia " ++ name f ++ "[" ++ Options.User (opt f) ++ "@" ++ Options.Host (opt f)
  ++ ":" ++ Options.Path (opt f) ++ "/" ++ root f ++ "]".

(** [time.Second], in milliseconds *)
Definition Second : Z := 1000.

Section Backend.
Variable srv : Server.

(** The function handed to [f.initOnce.Do]. *)
Definition resolve (w : World) : World :=
  let o := opt (handle w) in
  let answer := snapshots_api srv (snapshotCalls w)
                  (Options.User o) (Options.Host o) (Options.Path o) in
  let w := count_snapshotCall w in
  match answer with
  | inl _ => w
  | inr result =>
      let w :=
        match scan (Options.Snapshot o) (SnapshotResponse.Snapshots result) with
        | Some (_, snapshot) => with_handle (set_rootId (Snapshot.RootID snapshot)) w
        | None => w
        end in
      if String.eqb (rootId (handle w)) "" then go_sleeper (clock w + 3 * Second) w
      else w
  end.

(** [sync.Once.Do]: run the function unless one has completed, then mark
    the gate done. *)
Definition Once_Do (body : World -> World) (w : World) : World :=
  if initOnce (handle w) then w
  else with_handle (set_initOnce true) (body w).

Definition getRootId : M string := fun w =>
  let w := Once_Do resolve w in
  if String.eqb (rootId (handle w)) "" then
    (Err (ErrNotFound (Fs_String (handle w))), w)
  else (Ok (rootId (handle w)), w).

(** Time passes: the clock advances by [d] milliseconds and every
    goroutine whose sleep is over runs [f.initOnce = sync.Once{}]. *)
Definition wait (d : Z) (w : World) : World :=
  let t := clock w + d in
  let awake := filter (fun wake => wake <= t) (sleepers w) in
  let asleep := filter (fun wake => ¬ (wake <= t)) (sleepers w) in
  let f := match awake with
           | [] => handle w
           | _ :: _ => set_initOnce false (handle w)
           end in
  mkWorld f (store w) (next w) asleep t (snapshotCalls w) (objectCalls w)
          (openCalls w).

(* =================================================================== *)
(** ** Fs.listObject, Fs.list, Fs.newObject *)
(* =================================================================== *)

Definition cleanPath (p : string) : string :=
  if negb (String.eqb p "") then Trim (Clean p) else p.

(** The body of the loop over [result.Entries]: directories are allocated
    at the next free address with no listing yet. *)
Definition entry_of (remote : string) (item : Entry.t) (free : nat) : DirEntry * nat :=
  if String.eqb (Entry.Type_ item) "d" then
    (Directory (ObjectInfo.mk (Entry.Obj item) (Entry.Name item)
                  (Join remote (Entry.Name item)) (Summary.Size (Entry.Summary item))
                  (Entry.MTime item)) free,
     S free)
  else
    (Object (ObjectInfo.mk (Entry.Obj item) (Entry.Name item)
               (Join remote (Entry.Name item)) (Entry.Size item) (Entry.MTime item)),
     free).

Fixpoint entries_of (remote : string) (items : list Entry.t) (free : nat)
  : DirEntries * nat :=
  match items with
  | [] => ([], free)
  | item :: rest =>
      let '(entry, free1) := entry_of remote item free in
      let '(dirEntries, free2) := entries_of remote rest free1 in
      (entry :: dirEntries, free2)
  end.

Definition listObject (remote objId : string) : M DirEntries := fun w =>
  match objects_api srv (length (objectCalls w)) objId with
  | inl err => (Err err, log_objectCall remote objId false w)
  | inr (resp, result) =>
      if match resp with
         | None => true
         | Some r => negb (Contains (ContentType r) "json")
         end
      then (Err ErrorIsFile, log_objectCall remote objId false w)
      else
        let '(dirEntries, free) :=
          entries_of remote (FileResponse.Entries result) (next w) in
        (Ok dirEntries, set_next free (log_objectCall remote objId true w))
  end.

(** The loop of [newObject] over the listing of the parent. *)
Fixpoint lookup_name (file : string) (dirEntries : DirEntries) : option DirEntry :=
  match dirEntries with
  | [] => None
  | item :: rest => if String.eqb (Name item) file then Some item else lookup_name file rest
  end.

(** [Fs.newObject], with the [list] it calls as a parameter. *)
Definition newObject_with (list_rec : string -> M DirEntries) (remote : string)
  : M DirEntry :=
  let remote := cleanPath remote in
  let '(dir, file) := Split remote in
  dirEntries <- list_rec dir ;;
  if String.eqb file "" then fail ErrorIsDir
  else match lookup_name file dirEntries with
       | Some item => ret item
       | None => fail ErrorObjectNotFound
       end.

(** [Fs.list], with the [newObject] it calls as a parameter. *)
Definition list_with (newObject_rec : string -> M DirEntry) (remote : string)
  : M DirEntries := fun w =>
  let remote := cleanPath remote in
  if String.eqb remote "" then
    match rootEntries (handle w) with
    | Some dirEntries => (Ok dirEntries, w)
    | None =>
        (rootId <- getRootId ;;
         dirEntries <- listObject remote rootId ;;
         _ <- modify (with_handle (set_rootEntries (Some dirEntries))) ;;
         ret dirEntries) w
    end
  else
    match newObject_rec remote w with
    | (Err err, w) =>
        if errors_Is err ErrorObjectNotFound then (Err ErrorDirNotFound, w)
        else (Err err, w)
    | (OutOfFuel, w) => (OutOfFuel, w)
    | (Ok (Object _), w) => (Err ErrorIsFile, w)
    | (Ok (Directory info addr), w) =>
        match store w !! addr with
        | None =>
            (dirEntries <- listObject remote (ObjectInfo.id info) ;;
             _ <- modify (set_entries addr dirEntries) ;;
             ret dirEntries) w
        | Some dirEntries => (Ok dirEntries, w)
        end
    end.

(** The two methods call each other; every call of [list] from
    [newObject] is on a strictly shorter path, so the recursion is cut at
    a depth that the length of the path bounds. *)
Fixpoint list_fuel (fuel : nat) (remote : string) : M DirEntries :=
  match fuel with
  | O => fun w => (OutOfFuel, w)
  | S fuel' => list_with (newObject_with (list_fuel fuel')) remote
  end.

(** [Fs.list]; the name [list] is the type of lists. *)
Definition Fs_list (remote : string) : M DirEntries :=
  list_fuel (S (String.length remote)) remote.

Definition newObject (remote : string) : M DirEntry :=
  newObject_with Fs_list remote.

(** [Fs.List] *)
Definition List (dir : string) : M DirEntries := fun w =>
  Fs_list (Join (root (handle w)) dir) w.

(** [Fs.NewObject] *)
Definition NewObject (remote : string) : M DirEntry := fun w =>
  match newObject (Join (root (handle w)) remote) w with
  | (Ok (Directory _ _), w) => (Err ErrorIsDir, w)
  | r => r
  end.

(* =================================================================== *)
(** ** The entry points that would change the store *)
(* =================================================================== *)

(** [Fs.Put] *)
Definition Put (input : string) (src : ObjectInfo.t) : M DirEntry :=
  fail ErrorPermissionDenied.

(** [Fs.Mkdir] *)
Definition Mkdir (dir : string) : M unit := fail ErrorPermissionDenied.

(** [Fs.Rmdir] *)
Definition Rmdir (dir : string) : M unit := fail ErrorPermissionDenied.

(** [ObjectInfo.SetModTime] *)
Definition SetModTime (o : ObjectInfo.t) (t : Z) : M unit := fail ErrorCantSetModTime.

(** [ObjectInfo.Update] *)
Definition Update (o : ObjectInfo.t) (input : string) (src : ObjectInfo.t) : M unit :=
  fail ErrorPermissionDenied.

(** [ObjectInfo.Remove] *)
Definition Remove (o : ObjectInfo.t) : M unit := fail ErrorPermissionDenied.

(** [ObjectInfo.Hash] *)
Definition Hash (o : ObjectInfo.t) : M string := fail ErrUnsupported.

(** [Object.Open] *)
Definition Open (o : ObjectInfo.t) : M string := fun w =>
  match open_api srv (openCalls w) (ObjectInfo.id o) with
  | inl err => (Err err, count_openCall w)
  | inr body => (Ok body, count_openCall w)
  end.

(* =================================================================== *)
(** ** NewFs and the life of a handle *)
(* =================================================================== *)

(** The world in which the struct literal of [NewFs] is built. *)
Definition fresh (name root : string) (opt : Options.t) : World :=
  mkWorld (mkFs name root opt false "" None) ∅ 0%nat [] 0 0%nat [] 0%nat.

(** [NewFs]: [Ok None] is a handle and no error, [Ok (Some e)] a handle
    together with the error [e], [Err e] no handle. *)
Definition NewFs (name root : string) (opt : Options.t) : result (option error) * World :=
  let root := cleanPath root in
  let w := fresh name root opt in
  if negb (String.eqb root "") then
    match newObject root w with
    | (Err err, w) => (Err err, w)
    | (OutOfFuel, w) => (OutOfFuel, w)
    | (Ok (Object _), w) =>
        let dir := fst (Split root) in
        let dir := if String.eqb dir "." || String.eqb dir "/" then "" else dir in
        (Ok (Some ErrorIsFile), with_handle (set_root dir) w)
    | (Ok (Directory _ _), w) => (Ok None, w)
    end
  else (Ok None, w).

(** What a caller can do with a handle; [OpWait] lets time pass. *)
Inductive Op :=
| OpGetRootId
| OpList (dir : string)
| OpNewObject (remote : string)
| Op_list (remote : string)
| Op_newObject (remote : string)
| OpPut (input : string) (src : ObjectInfo.t)
| OpMkdir (dir : string)
| OpRmdir (dir : string)
| OpSetModTime (o : ObjectInfo.t) (t : Z)
| OpUpdate (o : ObjectInfo.t) (input : string) (src : ObjectInfo.t)
| OpRemove (o : ObjectInfo.t)
| OpOpen (o : ObjectInfo.t)
| OpSetRoot (dir : string)
| OpWait (d : Z).

Definition step (op : Op) (w : World) : World :=
  match op with
  | OpGetRootId => snd (getRootId w)
  | OpList dir => snd (List dir w)
  | OpNewObject remote => snd (NewObject remote w)
  | Op_list remote => snd (Fs_list remote w)
  | Op_newObject remote => snd (newObject remote w)
  | OpPut input src => snd (Put input src w)
  | OpMkdir dir => snd (Mkdir dir w)
  | OpRmdir dir => snd (Rmdir dir w)
  | OpSetModTime o t => snd (SetModTime o t w)
  | OpUpdate o input src => snd (Update o input src w)
  | OpRemove o => snd (Remove o w)
  | OpOpen o => snd (Open o w)
  | OpSetRoot dir => with_handle (set_root dir) w
  | OpWait d => if 0 <=? d then wait d w else w
  end.

Definition run (ops : list Op) (w : World) : World :=
  fold_left (fun w op => step op w) ops w.

(** The worlds a handle can be in: built by the struct literal of
    [NewFs], then any operations in any order. *)
Definition reachable (w : World) : Prop :=
  exists name root opt ops, w = run ops (fresh name root opt).
End Backend.

(* ===================================================================== *)
(** ** Vocabulary of the properties *)
(* ===================================================================== *)

(** Length of a path counted by its elements, one separator each. *)
Fixpoint weight (segs : list string) : nat :=
  match segs with
  | [] => O
  | seg :: rest => (S (String.length seg) + weight rest)%nat
  end.

(** The last byte is a slash. *)
Fixpoint ends_slash (s : string) : bool :=
  match s with
  | EmptyString => false
  | String c EmptyString => Ascii.eqb c slash
  | String _ s' => ends_slash s'
  end.

(** No byte is a slash. *)
Fixpoint no_slash (s : string) : bool :=
  match s with
  | EmptyString => true
  | String c s' => negb (Ascii.eqb c slash) && no_slash s'
  end.

(** A path element that [path.Clean] keeps as it is. *)
Definition normal (seg : string) : Prop :=
  seg <> "" /\ seg <> "." /\ seg <> ".." /\ no_slash seg = true.

(** The output of [path.Clean]'s scan, last element first: real elements on
    top of the [..] elements that could not be resolved, of which a rooted
    path has none. *)
Definition shaped (rooted : bool) (out : list string) : Prop :=
  exists ns ds, out = (ns ++ ds)%list /\ Forall normal ns /\ Forall (eq "..") ds
                /\ (rooted = true -> ds = []).

(** A path as [cleanPath] returns it, the empty path apart. *)
Definition tidy (s : string) : Prop :=
  exists segs, s = join_slash segs /\ (segs = ["."] \/ (segs <> [] /\ shaped false (rev segs))).

(** Tagged incomplete. *)
Definition incomplete (snapshot : Snapshot.t) : bool :=
  slices_Contains (Snapshot.Retention snapshot) "incomplete".

(** A specifier that is none of the three keywords. *)
Definition explicit (spec : string) : Prop :=
  spec <> "" /\ spec <> "latest" /\ spec <> "pin".

(** The loop of [getRootId] breaks at this snapshot. *)
Definition hit (spec : string) (snapshot : Snapshot.t) : bool :=
  String.eqb spec (Snapshot.RootID snapshot) || accepts spec snapshot.

(** The four situations of the gate: no attempt completed since the last
    reset; resolved; failed with a reset on its way; failed with no reset
    to come. *)
Inductive Phase :=
| Unresolved
| Resolved
| Cooling (wake : Z)
| Dead.

Definition in_phase (w : World) (p : Phase) : Prop :=
  match p with
  | Unresolved =>
      initOnce (handle w) = false /\ rootId (handle w) = "" /\ sleepers w = []
  | Resolved =>
      initOnce (handle w) = true /\ rootId (handle w) <> "" /\ sleepers w = []
  | Cooling wake =>
      initOnce (handle w) = true /\ rootId (handle w) = "" /\ sleepers w = [wake]
      /\ clock w < wake
  | Dead =>
      initOnce (handle w) = true /\ rootId (handle w) = "" /\ sleepers w = []
  end.

(** Two worlds that differ in the listing cache, the allocator and the
    record of object calls at most. *)
Definition same_gate (w w' : World) : Prop :=
  name (handle w) = name (handle w') /\ root (handle w) = root (handle w')
  /\ opt (handle w) = opt (handle w') /\ initOnce (handle w) = initOnce (handle w')
  /\ rootId (handle w) = rootId (handle w') /\ sleepers w = sleepers w'
  /\ clock w = clock w' /\ snapshotCalls w = snapshotCalls w'.

(** The answer of the remote to the next snapshot-list call. *)
Definition api_answer (srv : Server) (w : World) : error + SnapshotResponse.t :=
  snapshots_api srv (snapshotCalls w) (Options.User (opt (handle w)))
    (Options.Host (opt (handle w))) (Options.Path (opt (handle w))).

(** The error of [getRootId]: [fmt.Errorf("%s not found", f.String())]. *)
Definition not_found (w : World) : error := ErrNotFound (Fs_String (handle w)).

(** What an operation other than waiting does to the gate: nothing, or
    what one call of [getRootId] does. *)
Definition gate_step (srv : Server) (w w' : World) : Prop :=
  same_gate w w' \/ same_gate (snd (getRootId srv w)) w'.

(** Every operation but waiting and the change of [root]. *)
Definition plain (op : Op) : Prop :=
  match op with OpWait _ | OpSetRoot _ => False | _ => True end.

(** A closed gate with no reset on its way. *)
Definition settled (w : World) : Prop :=
  initOnce (handle w) = true /\ sleepers w = [].

(** Time that a sequence of operations lets pass. *)
Fixpoint elapsed (ops : list Op) : Z :=
  match ops with
  | [] => 0
  | OpWait d :: rest => Z.max 0 d + elapsed rest
  | _ :: rest => elapsed rest
  end.

(** The listing cache as a map from normalized path to listing: what the
    handle and the store hold for [remote], found the way [list] walks, with
    no remote call.  [remote] is a path as [cleanPath] returns it. *)
Fixpoint cache_fuel (fuel : nat) (remote : string) (w : World) : option DirEntries :=
  match fuel with
  | O => None
  | S fuel' =>
      if String.eqb remote "" then rootEntries (handle w)
      else
        let '(dir, file) := Split (cleanPath remote) in
        match cache_fuel fuel' (cleanPath dir) w with
        | None => None
        | Some dirEntries =>
            if String.eqb file "" then None
            else match lookup_name file dirEntries with
                 | Some (Directory _ addr) => store w !! addr
                 | _ => None
                 end
        end
  end.

Definition cache (w : World) (remote : string) : option DirEntries :=
  cache_fuel (S (String.length remote)) remote w.

(** The cache only grows from [w] to [w']. *)
Definition extends (w w' : World) : Prop :=
  (forall es, rootEntries (handle w) = Some es -> rootEntries (handle w') = Some es)
  /\ store w ⊆ store w'.

(** The paths for which an object call brought back a listing, in the order
    of the calls. *)
Definition listed_paths (w : World) : list string :=
  map (fun c => fst (fst c)) (List.filter (fun c => snd c) (objectCalls w)).

(** Every path that was listed from the remote was listed once and is in
    the cache. *)
Definition log_ok (w : World) : Prop :=
  NoDup (listed_paths w) /\ forall p, p ∈ listed_paths w -> is_Some (cache w p).

(** The key of the parent of [q] in the cache, and the name under which
    [q] is looked up there. *)
Definition parent_key (q : string) : string := cleanPath (fst (Split (cleanPath q))).
Definition last_name (q : string) : string := snd (Split (cleanPath q)).

(** The walk for the normalized path [q] ends at the directory [info]
    allocated at [addr]: the cache holds the listing of the parent, and the
    first entry of that listing with the last name of [q] is this
    directory. *)
Definition reaches (w : World) (q : string) (info : ObjectInfo.t) (addr : nat) : Prop :=
  q <> "" /\ cleanPath q = q /\ last_name q <> ""
  /\ exists parent, cache w (parent_key q) = Some parent
                    /\ lookup_name (last_name q) parent = Some (Directory info addr).

(** The allocator is ahead of every directory that has a listing and of
    every directory that a walk reaches, and no directory is reached by the
    walks of two paths. *)
Definition alloc_ok (w : World) : Prop :=
  (forall addr es, store w !! addr = Some es -> (addr < next w)%nat)
  /\ (forall q info addr, reaches w q info addr -> (addr < next w)%nat)
  /\ (forall q1 q2 i1 i2 addr, reaches w q1 i1 addr -> reaches w q2 i2 addr -> q1 = q2).

(** The remote answers the next object call, made for [objId], with a
    listing of [items]. *)
Definition answered (srv : Server) (w : World) (objId : string) (items : list Entry.t) : Prop :=
  exists resp body,
    objects_api srv (length (objectCalls w)) objId = inr (resp, body)
    /\ FileResponse.Entries body = items.

(** The world after [list] has stored the listing of [items] that an object
    call for [objId] brought back: in the handle for the root, in the
    directory at [addr] for the path [remote]. *)
Definition root_filled (w : World) (objId : string) (items : list Entry.t) : World :=
  with_handle
    (set_rootEntries (Some (fst (entries_of "" items (next w)))))
    (set_next (snd (entries_of "" items (next w))) (log_objectCall "" objId true w)).

Definition node_filled (w : World) (remote : string) (addr : nat) (objId : string)
    (items : list Entry.t) : World :=
  set_entries addr (fst (entries_of remote items (next w)))
    (set_next (snd (entries_of remote items (next w)))
       (log_objectCall remote objId true w)).

(** The gate is in one of its four situations, and the root is listed only
    once the root object is known. *)
Definition gate_ok (w : World) : Prop :=
  (exists p, in_phase w p)
  /\ (rootId (handle w) = "" -> rootEntries (handle w) = None).

(** The listings that the cache holds for the root, for [a] and for [a/b]
    are the ones of the tree under the root object [kroot]. *)
Definition tree_ok (kroot : string) (root_items a_items b_items : list Entry.t)
    (w : World) : Prop :=
  rootId (handle w) = kroot ->
  (forall es, cache w "" = Some es -> exists free, es = fst (entries_of "" root_items free))
  /\ (forall es, cache w "a" = Some es -> exists free, es = fst (entries_of "a" a_items free))
  /\ (forall es, cache w "a/b" = Some es ->
        exists free, es = fst (entries_of "a/b" b_items free)).

(** What every world of a handle satisfies when the remote holds that
    tree. *)
Definition tree_inv (kroot : string) (root_items a_items b_items : list Entry.t)
    (w : World) : Prop :=
  alloc_ok w /\ gate_ok w /\ tree_ok kroot root_items a_items b_items w.

(** A handle whose gate is resolved to the root object [kroot]. *)
Definition at_root (srv : Server) (kroot : string) (w : World) : Prop :=
  reachable srv w /\ in_phase w Resolved /\ rootId (handle w) = kroot.

(** Every listing that the cache holds was built by [listObject] for the
    path it is held for. *)
Definition built_ok (w : World) : Prop :=
  forall q es, cleanPath q = q -> cache w q = Some es ->
    exists items free, es = fst (entries_of q items free).

(** The snapshot-list calls made so far lie three seconds apart: with [n]
    calls made, an open gate has seen [3n] seconds pass, a reset on its way
    wakes no earlier than that, and [3(n-1)] seconds have passed in any
    case. *)
Definition rate_ok (w : World) : Prop :=
  (initOnce (handle w) = false -> 3 * Second * Z.of_nat (snapshotCalls w) <= clock w)
  /\ (forall wake, wake ∈ sleepers w -> 3 * Second * Z.of_nat (snapshotCalls w) <= wake)
  /\ 3 * Second * (Z.of_nat (snapshotCalls w) - 1) <= clock w.

(** With a specifier that is none of the keywords, the root identifier of
    the handle is empty or the specifier. *)
Definition explicit_ok (w : World) : Prop :=
  explicit (Options.Snapshot (opt (handle w))) ->
  rootId (handle w) = "" \/ rootId (handle w) = Options.Snapshot (opt (handle w)).

(** The number of elements of a path: none for the empty path. *)
Definition elements (p : string) : nat :=
  if String.eqb p "" then O else length (split_slash p).

(** An entry without the address of its directory: its fields, and
    whether it is a directory. *)
Definition shape_of (e : DirEntry) : ObjectInfo.t * bool :=
  match e with
  | Object info => (info, false)
  | Directory info _ => (info, true)
  end.

(** The first of the shapes with the name [file]. *)
Fixpoint lookup_shape (file : string) (shapes : list (ObjectInfo.t * bool))
  : option (ObjectInfo.t * bool) :=
  match shapes with
  | [] => None
  | x :: rest =>
      if String.eqb (ObjectInfo.name (fst x)) file then Some x else lookup_shape file rest
  end.

(** Some object call for [objId] is answered with a listing of [items]. *)
Definition lists (srv : Server) (objId : string) (items : list Entry.t) : Prop :=
  exists k resp body,
    objects_api srv k objId = inr (resp, body) /\ FileResponse.Entries body = items.

(** The remote answers the object calls for one identifier with one
    listing: objects are addressed by their content. *)
Definition steady (srv : Server) : Prop :=
  forall objId items items', lists srv objId items -> lists srv objId items' -> items = items'.

(** The tree of the remote under the root object [kroot]: the entries at
    the normalized path [q], read off the answers of the remote along the
    walk to [q]. *)
Inductive holds (srv : Server) (kroot : string)
  : string -> list (ObjectInfo.t * bool) -> Prop :=
| holds_root items :
    lists srv kroot items ->
    holds srv kroot "" (map shape_of (fst (entries_of "" items O)))
| holds_node q parent info items :
    q <> "" -> cleanPath q = q -> last_name q <> "" ->
    holds srv kroot (parent_key q) parent ->
    lookup_shape (last_name q) parent = Some (info, true) ->
    lists srv (ObjectInfo.id info) items ->
    holds srv kroot q (map shape_of (fst (entries_of q items O))).

(** Every listing that the cache holds is the one of the tree of the remote
    under the root object of the handle. *)
Definition remote_ok (srv : Server) (w : World) : Prop :=
  forall q es, cleanPath q = q -> cache w q = Some es ->
    holds srv (rootId (handle w)) q (map shape_of es).

(** The paths that the walk to [r] passes: [r], its parent, and so on up
    to the root. *)
Inductive on_walk : string -> string -> Prop :=
| on_walk_self r : on_walk r r
| on_walk_up q r : r <> "" -> on_walk q (parent_key r) -> on_walk q r.

(** No directory has a listing before the root has one. *)
Definition root_first (w : World) : Prop :=
  rootEntries (handle w) = None -> store w = ∅.

(** The remote answers every request for [objId] with a listing of
    [items]. *)
Definition serves (srv : Server) (objId : string) (items : list Entry.t) : Prop :=
  forall k, exists r body,
    objects_api srv k objId = inr (Some r, body)
    /\ Contains (ContentType r) "json" = true
    /\ FileResponse.Entries body = items.

(** [item] is the first of [items] with the name [name]. *)
Definition first_named (name : string) (items : list Entry.t) (item : Entry.t) : Prop :=
  exists pre post,
    items = (pre ++ item :: post)%list /\ Entry.Name item = name
    /\ forall i, i ∈ pre -> Entry.Name i <> name.

(* ===================================================================== *)
(** ** Sample data *)
(* ===================================================================== *)

Definition no_summary : Summary.t := Summary.mk 0 0 0 0 0 0.

Definition snapshot_of (id rootID : string) (retention pins : list string) : Snapshot.t :=
  Snapshot.mk id "" 0 0 no_summary rootID retention pins.

Definition item_of (name type obj : string) : Entry.t :=
  Entry.mk name type "" 5 7 obj no_summary.

Definition json_ok : option Response := Some (mkResponse 200 "application/json").

Definition listing_of (items : list Entry.t) : error + (option Response * FileResponse.t) :=
  inr (json_ok, FileResponse.mk "" items no_summary).

(** One complete snapshot with root [kroot]; under it a file [x] and a
    directory [a], under [a] a directory [b], under [b] a file [c]. *)
Definition sample_server : Server :=
  mkServer
    (fun _ _ _ _ =>
       inr (SnapshotResponse.mk [snapshot_of "s1" "kroot" [] []] 1 1))
    (fun _ objId =>
       if String.eqb objId "kroot" then listing_of [item_of "x" "f" "ox"; item_of "a" "d" "ka"]
       else if String.eqb objId "ka" then listing_of [item_of "b" "d" "kb"]
       else if String.eqb objId "kb" then listing_of [item_of "c" "f" "oc"]
       else inl (ErrRemote "404"))
    (fun _ objId => if String.eqb objId "oc" then inr "contents" else inl (ErrRemote "404")).

(** A server whose snapshot list always fails. *)
Definition failing_server : Server :=
  mkServer (fun _ _ _ _ => inl (ErrRemote "503"))
           (fun _ _ => inl (ErrRemote "503"))
           (fun _ _ => inl (ErrRemote "503")).

(** A server that has no snapshot yet. *)
Definition empty_server : Server :=
  mkServer (fun _ _ _ _ => inr (SnapshotResponse.mk [] 0 0))
           (fun _ _ => inl (ErrRemote "404"))
           (fun _ _ => inl (ErrRemote "404")).

Definition sample_options (spec : string) : Options.t :=
  Options.mk "https://127.0.0.1:51515" "user" "host" "/" spec.

Definition sample_world (spec : string) : World :=
  fresh "kopia" "" (sample_options spec).

(** A context-error check on contexts given by what [ctx.Err()] returns:
    when the context is in error it puts the context's error where there
    was none and reports true, otherwise it reports false. *)
Definition sample_ContextError (ctx : option error) (err : option error)
  : bool * option error :=
  match ctx with
  | Some ctxErr => (true, match err with None => Some ctxErr | Some e => Some e end)
  | None => (false, err)
  end.

(* ===================================================================== *)
(** * Properties *)
(* ===================================================================== *)

(* ===================================================================== *)
(** ** Paths get shorter *)
(* ===================================================================== *)

Lemma trimLeft_length s : (String.length (trimLeft s) <= String.length s)%nat.
Proof.
  induction s as [|c s IH]; simpl; [lia|].
  destruct (Ascii.eqb c slash); simpl; lia.
Qed.

Lemma trimRight_length s : (String.length (trimRight s) <= String.length s)%nat.
Proof.
  induction s as [|c s IH]; simpl; [lia|].
  destruct (trimRight s); [destruct (Ascii.eqb c slash)|]; simpl in *; lia.
Qed.

Lemma Trim_length s : (String.length (Trim s) <= String.length s)%nat.
Proof.
  unfold Trim. pose proof (trimRight_length (trimLeft s)).
  pose proof (trimLeft_length s). lia.
Qed.

Lemma trimRight_no_slash s : ends_slash (trimRight s) = false.
Proof.
  induction s as [|c s IH]; simpl; [reflexivity|].
  destruct (trimRight s) as [|c' t] eqn:E.
  - destruct (Ascii.eqb c slash) eqn:Ec; simpl; [reflexivity | exact Ec].
  - exact IH.
Qed.

Lemma weight_app l1 l2 : weight (l1 ++ l2) = (weight l1 + weight l2)%nat.
Proof. induction l1 as [|s l1 IH]; simpl; [reflexivity | rewrite IH; lia]. Qed.

Lemma weight_rev l : weight (rev l) = weight l.
Proof.
  induction l as [|s l IH]; simpl; [reflexivity|].
  rewrite weight_app, IH. simpl. lia.
Qed.

Lemma string_app_length (a b : string) :
  String.length (a ++ b) = (String.length a + String.length b)%nat.
Proof. induction a as [|c a IH]; simpl; [reflexivity | rewrite IH; reflexivity]. Qed.

Lemma join_slash_length segs : (String.length (join_slash segs) <= pred (weight segs))%nat.
Proof.
  induction segs as [|s segs IH]; simpl; [lia|].
  destruct segs as [|s' segs]; [simpl; lia|].
  rewrite string_app_length. simpl String.length.
  change (weight (s' :: segs)) with (S (String.length s') + weight segs)%nat in *.
  simpl in IH |- *. lia.
Qed.

Lemma split_slash_weight s : weight (split_slash s) = S (String.length s).
Proof.
  induction s as [|c s IH]; simpl; [reflexivity|].
  destruct (Ascii.eqb c slash); simpl; [rewrite IH; reflexivity|].
  destruct (split_slash s) as [|seg rest]; simpl in *; lia.
Qed.

Lemma clean_step_weight rooted out seg :
  (weight (clean_step rooted out seg) <= weight out + S (String.length seg))%nat.
Proof.
  unfold clean_step.
  destruct (String.eqb seg "" || String.eqb seg "."); [lia|].
  destruct (String.eqb seg "..").
  - destruct out as [|top rest]; [destruct rooted; simpl; lia|].
    destruct (String.eqb top ".."); [destruct rooted|]; simpl; lia.
  - simpl. lia.
Qed.

Lemma clean_fold_weight rooted segs out :
  (weight (fold_left (clean_step rooted) segs out) <= weight out + weight segs)%nat.
Proof.
  revert out. induction segs as [|seg segs IH]; intros out; simpl; [lia|].
  specialize (IH (clean_step rooted out seg)).
  pose proof (clean_step_weight rooted out seg). lia.
Qed.

Lemma Clean_length p : p <> "" -> (String.length (Clean p) <= String.length p)%nat.
Proof.
  destruct p as [|c p]; [congruence|]. intros _.
  unfold Clean.
  destruct (Ascii.eqb c slash) eqn:Ec.
  - change (split_slash (String c p)) with
      (if Ascii.eqb c slash then EmptyString :: split_slash p
       else match split_slash p with
            | seg :: rest => String c seg :: rest
            | [] => [String c EmptyString]
            end).
    rewrite Ec.
    change (fold_left (clean_step true) (EmptyString :: split_slash p) [])
      with (fold_left (clean_step true) (split_slash p) []).
    pose proof (clean_fold_weight true (split_slash p) []) as H.
    rewrite split_slash_weight in H.
    pose proof (join_slash_length (rev (fold_left (clean_step true) (split_slash p) []))) as J.
    rewrite weight_rev in J. simpl in *. lia.
  - pose proof (clean_fold_weight false (split_slash (String c p)) []) as H.
    rewrite split_slash_weight in H.
    pose proof (join_slash_length
                  (rev (fold_left (clean_step false) (split_slash (String c p)) []))) as J.
    rewrite weight_rev in J.
    destruct (String.eqb _ ""); simpl in *; lia.
Qed.

Lemma cleanPath_length p : (String.length (cleanPath p) <= String.length p)%nat.
Proof.
  unfold cleanPath. destruct (String.eqb p "") eqn:E; simpl; [lia|].
  apply String.eqb_neq in E.
  pose proof (Clean_length p E). pose proof (Trim_length (Clean p)). lia.
Qed.

Lemma cleanPath_empty : cleanPath "" = "".
Proof. reflexivity. Qed.

Lemma cleanPath_no_slash p : ends_slash (cleanPath p) = false.
Proof.
  unfold cleanPath. destruct (String.eqb p "") eqn:E; simpl.
  - apply String.eqb_eq in E. subst. reflexivity.
  - apply trimRight_no_slash.
Qed.

Lemma Split_length s :
  (String.length (fst (Split s)) + String.length (snd (Split s)))%nat = String.length s.
Proof.
  induction s as [|c s IH]; simpl; [reflexivity|].
  destruct (Split s) as [d f]. simpl in IH.
  destruct (String.eqb d "") eqn:Ed; simpl.
  - apply String.eqb_eq in Ed. subst d.
    destruct (Ascii.eqb c slash); simpl in *; lia.
  - lia.
Qed.

Lemma ends_slash_nonempty s : ends_slash s = true -> s <> "".
Proof. destruct s; simpl; congruence. Qed.

Lemma Split_file_empty s : snd (Split s) = "" -> s = "" \/ ends_slash s = true.
Proof.
  induction s as [|c s IH]; simpl; [auto|].
  destruct (Split s) as [d f] eqn:ES. simpl in IH.
  destruct (String.eqb d "") eqn:Ed; simpl.
  - destruct (Ascii.eqb c slash) eqn:Ec; simpl; [|congruence].
    intros Hf. right. destruct (IH Hf) as [->|He]; [simpl; rewrite ?Ec; reflexivity|].
    destruct s; [discriminate | exact He].
  - intros Hf. right. destruct (IH Hf) as [->|He].
    + simpl in ES. injection ES as <- <-. discriminate.
    + destruct s; [discriminate | exact He].
Qed.

Lemma dir_shorter1 p :
  p <> "" -> (String.length (fst (Split (cleanPath p))) < String.length p)%nat.
Proof.
  intros Hp. pose proof (cleanPath_length p) as Hl.
  pose proof (Split_length (cleanPath p)) as Hs.
  destruct (snd (Split (cleanPath p))) as [|c f] eqn:Ef.
  - destruct (Split_file_empty _ Ef) as [H0|He].
    + rewrite H0. simpl. destruct p; [congruence | simpl; lia].
    + rewrite cleanPath_no_slash in He. discriminate.
  - simpl in Hs. lia.
Qed.

Lemma dir_shorter p :
  p <> "" ->
  (String.length (fst (Split (cleanPath (cleanPath p)))) < String.length p)%nat.
Proof.
  intros Hp. destruct (String.eqb (cleanPath p) "") eqn:E.
  - apply String.eqb_eq in E. rewrite E. simpl. destruct p; [congruence | simpl; lia].
  - apply String.eqb_neq in E. pose proof (dir_shorter1 _ E).
    pose proof (cleanPath_length p). lia.
Qed.

(* ===================================================================== *)
(** ** The bounded recursion is the recursion of the source *)
(* ===================================================================== *)

Section Fuel.
Variable srv : Server.

Lemma cleanPath_nonempty p : String.eqb (cleanPath p) "" = false -> p <> "".
Proof. intros H ->. discriminate. Qed.

Lemma newObject_with_ext (f g : string -> M DirEntries) remote w :
  f (fst (Split (cleanPath remote))) w = g (fst (Split (cleanPath remote))) w ->
  newObject_with f remote w = newObject_with g remote w.
Proof.
  unfold newObject_with. destruct (Split (cleanPath remote)) as [dir file]. simpl.
  intros H. unfold bind. rewrite H. reflexivity.
Qed.

Lemma list_with_ext (f g : string -> M DirEntry) remote w :
  (String.eqb (cleanPath remote) "" = false -> f (cleanPath remote) w = g (cleanPath remote) w) ->
  list_with srv f remote w = list_with srv g remote w.
Proof.
  unfold list_with. destruct (String.eqb (cleanPath remote) "") eqn:E; [reflexivity|].
  intros H. rewrite H; reflexivity.
Qed.

Lemma list_fuel_enough n : forall m remote w,
  (String.length remote < n)%nat -> (String.length remote < m)%nat ->
  list_fuel srv n remote w = list_fuel srv m remote w.
Proof.
  induction n as [|n IH]; intros m remote w Hn Hm; [lia|].
  destruct m as [|m]; [lia|]. simpl.
  apply list_with_ext. intros E.
  apply newObject_with_ext.
  pose proof (dir_shorter remote (cleanPath_nonempty _ E)).
  apply IH; lia.
Qed.

(** [list] and [newObject] satisfy the equations of the source. *)
Lemma Fs_list_unfold remote w :
  Fs_list srv remote w = list_with srv (newObject srv) remote w.
Proof.
  unfold Fs_list. simpl. apply list_with_ext. intros E.
  unfold newObject. apply newObject_with_ext. unfold Fs_list.
  pose proof (dir_shorter remote (cleanPath_nonempty _ E)).
  apply list_fuel_enough; lia.
Qed.

Lemma list_fuel_Fs_list n remote w :
  (String.length remote < n)%nat -> list_fuel srv n remote w = Fs_list srv remote w.
Proof. intros H. unfold Fs_list. apply list_fuel_enough; lia. Qed.

Lemma getRootId_fuel w : fst (getRootId srv w) <> OutOfFuel.
Proof. unfold getRootId. destruct (String.eqb _ ""); simpl; congruence. Qed.

Lemma listObject_fuel remote objId w : fst (listObject srv remote objId w) <> OutOfFuel.
Proof.
  unfold listObject. destruct (objects_api _ _ _) as [e|[resp result]]; simpl; [congruence|].
  destruct (match resp with None => true | Some r => _ end); simpl; [congruence|].
  destruct (entries_of _ _ _). simpl. congruence.
Qed.

Lemma list_fuel_total n : forall remote w,
  (String.length remote < n)%nat -> fst (list_fuel srv n remote w) <> OutOfFuel.
Proof.
  induction n as [|n IH]; intros remote w Hn; [lia|]. simpl.
  unfold list_with.
  destruct (String.eqb (cleanPath remote) "") eqn:E.
  - destruct (rootEntries (handle w)); simpl; [congruence|].
    unfold bind. pose proof (getRootId_fuel w) as G.
    destruct (getRootId srv w) as [[r|e|] w1]; simpl in *; try congruence.
    pose proof (listObject_fuel (cleanPath remote) r w1) as L.
    destruct (listObject srv (cleanPath remote) r w1) as [[es|e|] w2]; simpl in *; congruence.
  - pose proof (dir_shorter remote (cleanPath_nonempty _ E)) as Hd.
    unfold newObject_with.
    destruct (Split (cleanPath (cleanPath remote))) as [dir file]. simpl in Hd.
    unfold bind. pose proof (IH dir w ltac:(lia)) as R.
    destruct (list_fuel srv n dir w) as [[es|e|] w1]; simpl in *; try congruence.
    + destruct (String.eqb file ""); simpl.
      * congruence.
      * destruct (lookup_name file es) as [[info|info addr]|]; simpl; try congruence.
        destruct (store w1 !! addr); simpl; [congruence|].
        pose proof (listObject_fuel (cleanPath remote) (ObjectInfo.id info) w1) as L.
        destruct (listObject srv (cleanPath remote) (ObjectInfo.id info) w1)
          as [[es'|e|] w2]; simpl in *; congruence.
    + destruct (errors_Is _ _); simpl; congruence.
Qed.

Lemma Fs_list_total remote w : fst (Fs_list srv remote w) <> OutOfFuel.
Proof. apply list_fuel_total. lia. Qed.

Lemma newObject_total remote w : fst (newObject srv remote w) <> OutOfFuel.
Proof.
  unfold newObject, newObject_with.
  destruct (Split (cleanPath remote)) as [dir file]. unfold bind.
  pose proof (Fs_list_total dir w) as R.
  destruct (Fs_list srv dir w) as [[es|e|] w1]; simpl in *; try congruence.
  destruct (String.eqb file ""); simpl; [congruence|].
  destruct (lookup_name file es); simpl; congruence.
Qed.
End Fuel.

(* ===================================================================== *)
(** ** The scan over the snapshots *)
(* ===================================================================== *)

Lemma scan_from_last_hit spec snapshots : forall n i s,
  (i < n)%nat -> snapshots !! i = Some s -> hit spec s = true ->
  (forall j s', (i < j < n)%nat -> snapshots !! j = Some s' -> hit spec s' = false) ->
  scan_from spec snapshots n = Some (i, s).
Proof.
  induction n as [|n IH]; intros i s Hi Hs Hhit Hlater; [lia|].
  simpl. destruct (decide (i = n)) as [->|Hne].
  - rewrite Hs. unfold hit in Hhit.
    destruct (String.eqb spec (Snapshot.RootID s)); [reflexivity|].
    simpl in Hhit. rewrite Hhit. reflexivity.
  - destruct (snapshots !! n) as [s'|] eqn:En.
    + assert (hit spec s' = false) as Hs' by (apply (Hlater n); [lia | exact En]).
      unfold hit in Hs'. apply orb_false_iff in Hs' as [-> ->].
      apply IH; auto; try lia. intros j s'' Hj. apply Hlater. lia.
    + apply IH; auto; try lia. intros j s'' Hj. apply Hlater. lia.
Qed.

Lemma scan_last_hit spec snapshots i s :
  snapshots !! i = Some s -> hit spec s = true ->
  (forall j s', (i < j)%nat -> snapshots !! j = Some s' -> hit spec s' = false) ->
  scan spec snapshots = Some (i, s).
Proof.
  intros Hs Hhit Hlater. unfold scan.
  apply scan_from_last_hit; auto.
  - apply lookup_lt_Some in Hs. exact Hs.
  - intros j s' Hj. apply Hlater. lia.
Qed.

Lemma accepts_explicit spec s : explicit spec -> accepts spec s = false.
Proof.
  intros (H1 & H2 & H3). unfold accepts.
  apply String.eqb_neq in H1, H2, H3. rewrite H1, H2, H3. simpl.
  apply andb_false_r.
Qed.


Section Resolve.
Variable srv : Server.

Lemma resolve_rootId w result i s :
  snapshots_api srv (snapshotCalls w) (Options.User (opt (handle w)))
    (Options.Host (opt (handle w))) (Options.Path (opt (handle w))) = inr result ->
  scan (Options.Snapshot (opt (handle w))) (SnapshotResponse.Snapshots result) = Some (i, s) ->
  rootId (handle (resolve srv w)) = Snapshot.RootID s.
Proof.
  intros Hapi Hscan. unfold resolve. rewrite Hapi. simpl. rewrite Hscan. simpl.
  destruct (String.eqb (Snapshot.RootID s) ""); reflexivity.
Qed.

Lemma getRootId_selected w result i s :
  initOnce (handle w) = false ->
  snapshots_api srv (snapshotCalls w) (Options.User (opt (handle w)))
    (Options.Host (opt (handle w))) (Options.Path (opt (handle w))) = inr result ->
  scan (Options.Snapshot (opt (handle w))) (SnapshotResponse.Snapshots result) = Some (i, s) ->
  Snapshot.RootID s <> "" ->
  fst (getRootId srv w) = Ok (Snapshot.RootID s).
Proof.
  intros Hgate Hapi Hscan Hne. unfold getRootId, Once_Do. rewrite Hgate.
  pose proof (resolve_rootId w result i s Hapi Hscan) as Hr.
  simpl. rewrite Hr. apply String.eqb_neq in Hne. rewrite Hne. reflexivity.
Qed.
End Resolve.

(** C1 (as amended).  The specifier is compared with the root object
    identifier [RootID] of each snapshot, not with its identifier [ID].  If
    the snapshot at index [i] is the one closest to the end whose [RootID]
    equals the specifier, and the specifier is none of the keywords (or no
    later snapshot passes the latest/pin test), the scan breaks at [i]
    whatever the retention tags and pins of that snapshot are, the handle
    stores the specifier as root identifier, and a call of [getRootId] with
    the gate open returns it when it is not empty. *)
Theorem exact_root_match_selected (srv : Server) (w : World)
    (result : SnapshotResponse.t) (i : nat) (s : Snapshot.t) :
  snapshots_api srv (snapshotCalls w) (Options.User (opt (handle w)))
    (Options.Host (opt (handle w))) (Options.Path (opt (handle w))) = inr result ->
  SnapshotResponse.Snapshots result !! i = Some s ->
  Snapshot.RootID s = Options.Snapshot (opt (handle w)) ->
  (forall j s', (i < j)%nat -> SnapshotResponse.Snapshots result !! j = Some s' ->
                Snapshot.RootID s' <> Options.Snapshot (opt (handle w))) ->
  (explicit (Options.Snapshot (opt (handle w))) \/
   forall j s', (i < j)%nat -> SnapshotResponse.Snapshots result !! j = Some s' ->
                accepts (Options.Snapshot (opt (handle w))) s' = false) ->
  scan (Options.Snapshot (opt (handle w))) (SnapshotResponse.Snapshots result) = Some (i, s)
  /\ rootId (handle (resolve srv w)) = Options.Snapshot (opt (handle w))
  /\ (initOnce (handle w) = false -> Options.Snapshot (opt (handle w)) <> "" ->
      fst (getRootId srv w) = Ok (Options.Snapshot (opt (handle w)))).
Proof.
  intros Hapi Hs Heq Hlast Hfilter.
  assert (scan (Options.Snapshot (opt (handle w))) (SnapshotResponse.Snapshots result)
          = Some (i, s)) as Hscan.
  { apply scan_last_hit; [exact Hs | |].
    - unfold hit. rewrite <- Heq, String.eqb_refl. reflexivity.
    - intros j s' Hj Hs'. unfold hit. apply orb_false_iff. split.
      + apply String.eqb_neq. intros E. apply (Hlast j s' Hj Hs'). symmetry. exact E.
      + destruct Hfilter as [He|Hf]; [apply accepts_explicit; exact He | eauto]. }
  split; [exact Hscan|]. split.
  - rewrite <- Heq. eapply resolve_rootId; eauto.
  - intros Hgate Hne. rewrite <- Heq. eapply getRootId_selected; eauto.
    rewrite Heq. exact Hne.
Qed.

Lemma exact_root_match_selected_witness :
  scan "kroot" [snapshot_of "s1" "kroot" ["incomplete"] []; snapshot_of "s2" "k2" [] []]
  = Some (0%nat, snapshot_of "s1" "kroot" ["incomplete"] []).
Proof.
  pose (srv := mkServer
    (fun _ _ _ _ => inr (SnapshotResponse.mk
       [snapshot_of "s1" "kroot" ["incomplete"] []; snapshot_of "s2" "k2" [] []] 2 2))
    (fun _ _ => inl (ErrRemote "404")) (fun _ _ => inl (ErrRemote "404"))).
  refine (proj1 (exact_root_match_selected srv (sample_world "kroot")
                   (SnapshotResponse.mk
                      [snapshot_of "s1" "kroot" ["incomplete"] []; snapshot_of "s2" "k2" [] []] 2 2)
                   0%nat (snapshot_of "s1" "kroot" ["incomplete"] []) _ _ _ _ _)).
  - reflexivity.
  - reflexivity.
  - reflexivity.
  - intros j s' Hj Hs'. destruct j as [|[|j]]; [lia | | discriminate].
    injection Hs' as <-. discriminate.
  - left. repeat split; discriminate.
Defined.

(** C1, as the claim states it, fails twice.  First, a snapshot whose
    identifier [ID] equals the specifier is not selected when its [RootID]
    differs: nothing is selected.  Second, with the specifier [latest], a
    snapshot whose [ID] and [RootID] both equal the specifier loses against a
    later snapshot that passes the latest test. *)
Lemma exact_identifier_match_counterexample :
  Snapshot.ID (snapshot_of "s1" "k1" ["incomplete"] []) = "s1"
  /\ scan "s1" [snapshot_of "s1" "k1" ["incomplete"] []] = None
  /\ fst (getRootId
            (mkServer (fun _ _ _ _ =>
                         inr (SnapshotResponse.mk [snapshot_of "s1" "k1" ["incomplete"] []] 1 1))
                      (fun _ _ => inl (ErrRemote "404")) (fun _ _ => inl (ErrRemote "404")))
            (sample_world "s1"))
     = Err (ErrNotFound (Fs_String (handle (sample_world "s1"))))
  /\ scan "latest" [snapshot_of "latest" "latest" [] []; snapshot_of "s2" "k2" [] []]
     = Some (1%nat, snapshot_of "s2" "k2" [] []).
Proof. repeat split; reflexivity. Qed.




(* ===================================================================== *)
(** ** The retry decision *)
(* ===================================================================== *)

(** C8.  [ctx_Err] says whether the context is cancelled or past its
    deadline, and [ContextError] keeps its contract: in that case it reports
    true and leaves an error in place, otherwise it reports false and leaves
    the error as it was.  Then an attempt whose context is in error is not
    retried and comes back with that error; any other attempt is retried
    exactly when the error is classified as transient, or there is no
    response, or the status code is at least 500, and its error is passed on
    unchanged. *)
Theorem shouldRetry_policy (Context : Type) (ctx_Err : Context -> option error)
    (ContextError : Context -> option error -> bool * option error)
    (ShouldRetry : option error -> bool) :
  (forall ctx err, ctx_Err ctx <> None ->
                   exists e, ContextError ctx err = (true, Some e)) ->
  (forall ctx err, ctx_Err ctx = None -> ContextError ctx err = (false, err)) ->
  forall ctx resp err,
    (ctx_Err ctx <> None ->
     shouldRetry Context ContextError ShouldRetry ctx resp err
     = (false, snd (ContextError ctx err))
     /\ snd (ContextError ctx err) <> None)
    /\ (ctx_Err ctx = None ->
        snd (shouldRetry Context ContextError ShouldRetry ctx resp err) = err
        /\ (fst (shouldRetry Context ContextError ShouldRetry ctx resp err) = true
            <-> ShouldRetry err = true \/ resp = None
                \/ exists r, resp = Some r /\ 500 <= StatusCode r)).
Proof.
  intros Hin Hout ctx resp err. unfold shouldRetry. split.
  - intros Hctx. destruct (Hin ctx err Hctx) as (e & He). rewrite He. simpl.
    split; [reflexivity | discriminate].
  - intros Hctx. rewrite (Hout ctx err Hctx). simpl. split; [reflexivity|].
    rewrite orb_true_iff. split.
    + intros [H|H]; [left; exact H|]. right.
      destruct resp as [r|]; [right | left; reflexivity].
      exists r. split; [reflexivity | apply Z.leb_le; exact H].
    + intros [H|[H|(r & -> & H)]]; [left; exact H | right; subst; reflexivity |].
      right. apply Z.leb_le. exact H.
Qed.

Lemma shouldRetry_policy_witness :
  shouldRetry (option error) sample_ContextError (fun _ => true)
    (Some (ErrContext "context canceled")) (Some (mkResponse 503 "")) None
  = (false, Some (ErrContext "context canceled"))
  /\ fst (shouldRetry (option error) sample_ContextError (fun _ => false)
            None (Some (mkResponse 503 "")) None) = true.
Proof.
  assert (forall (ctx err : option error), id ctx <> None ->
            exists e, sample_ContextError ctx err = (true, Some e)) as Hin.
  { intros [c|] [e|] H; simpl; eauto; exfalso; apply H; reflexivity. }
  assert (forall (ctx err : option error), id ctx = None ->
            sample_ContextError ctx err = (false, err)) as Hout.
  { intros ctx err H. unfold id in H. subst. reflexivity. }
  split.
  - apply (shouldRetry_policy (option error) id sample_ContextError (fun _ => true) Hin Hout
             (Some (ErrContext "context canceled")) (Some (mkResponse 503 "")) None).
    discriminate.
  - apply (shouldRetry_policy (option error) id sample_ContextError (fun _ => false) Hin Hout
             None (Some (mkResponse 503 "")) None); [reflexivity|].
    right. right. exists (mkResponse 503 ""). split; [reflexivity | simpl; lia].
Defined.

(* ===================================================================== *)
(** ** The store is read-only *)
(* ===================================================================== *)

(** C3 (as amended).  [Put], [Mkdir], [Rmdir], [Update] and [Remove] return
    the permission-denied error and [SetModTime] returns the
    cannot-set-modification-time error, for every input; none of them makes a
    remote call or changes anything: the world after the call is the world
    before it. *)
Theorem mutations_rejected (w : World) (input dir : string) (src o : ObjectInfo.t) (t : Z) :
  Put input src w = (Err ErrorPermissionDenied, w)
  /\ Mkdir dir w = (Err ErrorPermissionDenied, w)
  /\ Rmdir dir w = (Err ErrorPermissionDenied, w)
  /\ Update o input src w = (Err ErrorPermissionDenied, w)
  /\ Remove o w = (Err ErrorPermissionDenied, w)
  /\ SetModTime o t w = (Err ErrorCantSetModTime, w).
Proof. repeat split. Qed.

(** C3, as the claim states it, fails at [SetModTime]: the error it returns
    is not the permission-denied error. *)
Lemma SetModTime_counterexample :
  fst (SetModTime (ObjectInfo.mk "oc" "c" "a/b/c" 5 7) 0 (sample_world "latest"))
  <> Err ErrorPermissionDenied.
Proof. simpl. discriminate. Qed.

(* ===================================================================== *)
(** ** The gate *)
(* ===================================================================== *)

Lemma same_gate_refl w : same_gate w w.
Proof. unfold same_gate. repeat split. Qed.

Lemma same_gate_trans w1 w2 w3 : same_gate w1 w2 -> same_gate w2 w3 -> same_gate w1 w3.
Proof. unfold same_gate. intuition congruence. Qed.

Lemma same_gate_phase w w' p : same_gate w w' -> in_phase w p -> in_phase w' p.
Proof.
  unfold same_gate. intros (_ & _ & _ & Hi & Hr & Hs & Hc & _).
  destruct p; simpl; rewrite <- ?Hi, <- ?Hr, <- ?Hs, <- ?Hc; auto.
Qed.

Create HintDb gate.
#[local] Hint Resolve same_gate_refl : gate.

Section Gate.
Variable srv : Server.

Lemma getRootId_closed w :
  initOnce (handle w) = true ->
  getRootId srv w
  = (if String.eqb (rootId (handle w)) "" then Err (not_found w) else Ok (rootId (handle w)), w).
Proof.
  intros H. unfold getRootId, Once_Do. rewrite H.
  destruct (String.eqb (rootId (handle w)) ""); reflexivity.
Qed.

Lemma getRootId_world w :
  snd (getRootId srv w) = Once_Do (resolve srv) w.
Proof. unfold getRootId. destruct (String.eqb _ ""); reflexivity. Qed.

Lemma getRootId_result w :
  fst (getRootId srv w)
  = if String.eqb (rootId (handle (snd (getRootId srv w)))) ""
    then Err (not_found (snd (getRootId srv w)))
    else Ok (rootId (handle (snd (getRootId srv w)))).
Proof. unfold getRootId. destruct (String.eqb _ "") eqn:E; simpl; rewrite E; reflexivity. Qed.

Lemma getRootId_resolved w :
  in_phase w Resolved -> getRootId srv w = (Ok (rootId (handle w)), w).
Proof.
  intros (Hi & Hr & _). rewrite getRootId_closed by exact Hi.
  apply String.eqb_neq in Hr. rewrite Hr. reflexivity.
Qed.

Lemma getRootId_failed w :
  initOnce (handle w) = true -> rootId (handle w) = "" ->
  getRootId srv w = (Err (not_found w), w).
Proof. intros Hi Hr. rewrite getRootId_closed by exact Hi. rewrite Hr. reflexivity. Qed.

(** A call with the gate open makes one remote call and leaves the gate
    resolved, cooling down, or closed for good. *)
Lemma getRootId_open w :
  in_phase w Unresolved ->
  snapshotCalls (snd (getRootId srv w)) = S (snapshotCalls w)
  /\ clock (snd (getRootId srv w)) = clock w
  /\ match api_answer srv w with
     | inl _ => in_phase (snd (getRootId srv w)) Dead
     | inr _ =>
         if String.eqb (rootId (handle (snd (getRootId srv w)))) ""
         then in_phase (snd (getRootId srv w)) (Cooling (clock w + 3000))
         else in_phase (snd (getRootId srv w)) Resolved
     end.
Proof.
  intros (Hi & Hr & Hs). rewrite getRootId_world. unfold Once_Do. rewrite Hi.
  unfold resolve, api_answer.
  destruct (snapshots_api srv _ _ _ _) as [e|result]; simpl.
  - repeat split; auto.
  - destruct (scan _ _) as [[i s]|]; simpl.
    + destruct (String.eqb (Snapshot.RootID s) "") eqn:E; simpl; rewrite E.
      * apply String.eqb_eq in E. rewrite Hs. repeat split; auto.
        unfold Second. simpl. lia.
      * apply String.eqb_neq in E. repeat split; auto.
    + rewrite Hr. simpl. rewrite Hr, Hs. repeat split; auto.
      unfold Second. simpl. lia.
Qed.

Lemma getRootId_same_gate w1 w2 :
  same_gate w1 w2 ->
  fst (getRootId srv w1) = fst (getRootId srv w2)
  /\ same_gate (snd (getRootId srv w1)) (snd (getRootId srv w2)).
Proof.
  intros (Hn & Hro & Ho & Hi & Hr & Hs & Hc & Hk).
  assert (same_gate (Once_Do (resolve srv) w1) (Once_Do (resolve srv) w2)) as Hsg.
  { unfold Once_Do. rewrite <- Hi. destruct (initOnce (handle w1)) eqn:E1.
    - unfold same_gate. repeat split; congruence.
    - unfold resolve. rewrite <- Ho, <- Hk.
      destruct (snapshots_api srv _ _ _ _) as [e|result]; simpl.
      + unfold same_gate. simpl. repeat split; congruence.
      + destruct (scan _ _) as [[i s]|]; simpl.
        * destruct (String.eqb (Snapshot.RootID s) ""); unfold same_gate; simpl;
            repeat split; congruence.
        * rewrite <- Hr. destruct (String.eqb (rootId (handle w1)) "");
            unfold same_gate; simpl; repeat split; congruence. }
  split; [|rewrite !getRootId_world; exact Hsg].
  rewrite !getRootId_result, !getRootId_world.
  destruct Hsg as (Hn' & Hro' & Ho' & _ & Hr' & _).
  unfold not_found, Fs_String. rewrite Hn', Hro', Ho', Hr'. reflexivity.
Qed.

Lemma listObject_same_gate remote objId w :
  same_gate w (snd (listObject srv remote objId w)).
Proof.
  unfold listObject. destruct (objects_api _ _ _) as [e|[resp result]]; simpl.
  - unfold same_gate. simpl. repeat split.
  - destruct (match resp with None => true | Some r => _ end); simpl.
    + unfold same_gate. simpl. repeat split.
    + destruct (entries_of _ _ _). unfold same_gate. simpl. repeat split.
Qed.

Lemma gate_step_trans w w1 w2 : gate_step srv w w1 -> same_gate w1 w2 -> gate_step srv w w2.
Proof. intros [H|H] H2; [left | right]; eapply same_gate_trans; eauto. Qed.

Lemma list_fuel_gate n : forall remote w, gate_step srv w (snd (list_fuel srv n remote w)).
Proof.
  induction n as [|n IH]; intros remote w; simpl; [left; auto with gate|].
  unfold list_with. destruct (String.eqb (cleanPath remote) "").
  - destruct (rootEntries (handle w)); simpl; [left; auto with gate|].
    unfold bind. destruct (getRootId srv w) as [[r|e|] w1] eqn:G; simpl;
      try solve [right; replace w1 with (snd (getRootId srv w)) by (rewrite G; reflexivity);
                 auto with gate].
    assert (gate_step srv w w1) as H1.
    { right. replace w1 with (snd (getRootId srv w)) by (rewrite G; reflexivity).
      auto with gate. }
    pose proof (listObject_same_gate (cleanPath remote) r w1) as L.
    destruct (listObject srv (cleanPath remote) r w1) as [[es|e|] w2]; simpl in *;
      eapply gate_step_trans; eauto.
  - unfold newObject_with. destruct (Split (cleanPath (cleanPath remote))) as [dir file].
    unfold bind. specialize (IH dir w).
    destruct (list_fuel srv n dir w) as [[es|e|] w1]; simpl in *; auto.
    + destruct (String.eqb file ""); simpl; auto.
      destruct (lookup_name file es) as [[info|info addr]|]; simpl; auto.
      destruct (store w1 !! addr); simpl; auto.
      pose proof (listObject_same_gate (cleanPath remote) (ObjectInfo.id info) w1) as L.
      destruct (listObject srv (cleanPath remote) (ObjectInfo.id info) w1)
        as [[es'|e|] w2]; simpl in *; eapply gate_step_trans; eauto.
    + destruct (errors_Is e ErrorObjectNotFound); simpl; auto.
Qed.

Lemma newObject_gate remote w : gate_step srv w (snd (newObject srv remote w)).
Proof.
  unfold newObject, newObject_with. destruct (Split (cleanPath remote)) as [dir file].
  unfold bind. pose proof (list_fuel_gate (S (String.length dir)) dir w) as H.
  fold (Fs_list srv dir) in H.
  destruct (Fs_list srv dir w) as [[es|e|] w1]; simpl in *; auto.
  destruct (String.eqb file ""); simpl; auto.
  destruct (lookup_name file es); simpl; auto.
Qed.

Lemma Open_same_gate o w : same_gate w (snd (Open srv o w)).
Proof. unfold Open. destruct (open_api _ _ _); unfold same_gate; simpl; repeat split. Qed.

Lemma step_gate op w : plain op -> gate_step srv w (step srv op w).
Proof.
  destruct op; simpl; intros Hp; try contradiction; try (left; auto with gate; fail);
    try (left; apply Open_same_gate).
  - right. auto with gate.
  - apply list_fuel_gate.
  - unfold NewObject. pose proof (newObject_gate (Join (root (handle w)) remote) w) as H.
    destruct (newObject srv _ w) as [[[info|info addr]|e|] w1]; exact H.
  - apply list_fuel_gate.
  - apply newObject_gate.
Qed.
End Gate.

Section Phases.
Variable srv : Server.

Lemma wait_fields d w :
  snapshotCalls (wait d w) = snapshotCalls w
  /\ clock (wait d w) = clock w + d
  /\ rootId (handle (wait d w)) = rootId (handle w)
  /\ objectCalls (wait d w) = objectCalls w
  /\ store (wait d w) = store w
  /\ rootEntries (handle (wait d w)) = rootEntries (handle w).
Proof.
  unfold wait. simpl.
  destruct (filter (fun wake => wake <= clock w + d) (sleepers w)); simpl; repeat split.
Qed.

Lemma wait_no_sleepers d w :
  sleepers w = [] ->
  initOnce (handle (wait d w)) = initOnce (handle w) /\ sleepers (wait d w) = [].
Proof. intros H. unfold wait. rewrite H. simpl. split; reflexivity. Qed.

Lemma wait_cooling_early d w t :
  in_phase w (Cooling t) -> clock w + d < t -> in_phase (wait d w) (Cooling t).
Proof.
  intros (Hi & Hr & Hs & Hc) Hd. unfold wait. rewrite Hs. simpl.
  rewrite !filter_cons, !filter_nil.
  destruct (decide (t <= clock w + d)); [lia|].
  destruct (decide (~ t <= clock w + d)); [|contradiction].
  simpl. repeat split; auto.
Qed.

Lemma wait_cooling_late d w t :
  in_phase w (Cooling t) -> t <= clock w + d -> in_phase (wait d w) Unresolved.
Proof.
  intros (Hi & Hr & Hs & Hc) Hd. unfold wait. rewrite Hs. simpl.
  rewrite !filter_cons, !filter_nil.
  destruct (decide (t <= clock w + d)); [|lia].
  destruct (decide (~ t <= clock w + d)); [contradiction|].
  simpl. repeat split; auto.
Qed.

Lemma wait_phase d w : (exists p, in_phase w p) -> exists p, in_phase (wait d w) p.
Proof.
  intros (p & Hp). destruct p as [| |t|].
  - exists Unresolved. destruct Hp as (Hi & Hr & Hs).
    destruct (wait_no_sleepers d w Hs) as (Hi' & Hs').
    destruct (wait_fields d w) as (_ & _ & Hr' & _).
    unfold in_phase. rewrite Hi', Hr', Hs'. auto.
  - exists Resolved. destruct Hp as (Hi & Hr & Hs).
    destruct (wait_no_sleepers d w Hs) as (Hi' & Hs').
    destruct (wait_fields d w) as (_ & _ & Hr' & _).
    unfold in_phase. rewrite Hi', Hr', Hs'. auto.
  - destruct (decide (t <= clock w + d)).
    + exists Unresolved. eapply wait_cooling_late; eauto.
    + exists (Cooling t). eapply wait_cooling_early; eauto. lia.
  - exists Dead. destruct Hp as (Hi & Hr & Hs).
    destruct (wait_no_sleepers d w Hs) as (Hi' & Hs').
    destruct (wait_fields d w) as (_ & _ & Hr' & _).
    unfold in_phase. rewrite Hi', Hr', Hs'. auto.
Qed.

Lemma getRootId_phase w :
  (exists p, in_phase w p) -> exists p, in_phase (snd (getRootId srv w)) p.
Proof.
  intros (p & Hp). destruct p as [| |t|].
  - destruct (getRootId_open srv w Hp) as (_ & _ & H).
    destruct (api_answer srv w); [eauto|].
    destruct (String.eqb _ ""); eauto.
  - rewrite getRootId_resolved by exact Hp. eauto.
  - destruct Hp as (Hi & Hr & Hs). rewrite getRootId_failed by assumption.
    exists (Cooling t). simpl. auto.
  - destruct Hp as (Hi & Hr & Hs). rewrite getRootId_failed by assumption.
    exists Dead. simpl. auto.
Qed.

Lemma gate_step_phase w w' :
  gate_step srv w w' -> (exists p, in_phase w p) -> exists p, in_phase w' p.
Proof.
  intros [H|H] Hp.
  - destruct Hp as (p & Hp). exists p. eapply same_gate_phase; eauto.
  - destruct (getRootId_phase w Hp) as (p & Hp'). exists p. eapply same_gate_phase; eauto.
Qed.

Lemma step_phase op w :
  (exists p, in_phase w p) -> exists p, in_phase (step srv op w) p.
Proof.
  intros Hp. destruct op;
    try (apply (gate_step_phase w); [apply step_gate; exact I | exact Hp]).
  - destruct Hp as (p & Hp). exists p. destruct p; exact Hp.
  - simpl. destruct (0 <=? d); [apply wait_phase; exact Hp | exact Hp].
Qed.

Lemma run_phase ops : forall w,
  (exists p, in_phase w p) -> exists p, in_phase (run srv ops w) p.
Proof.
  induction ops as [|op ops IH]; intros w Hp; [exact Hp|].
  change (run srv (op :: ops) w) with (run srv ops (step srv op w)).
  apply IH. apply step_phase. exact Hp.
Qed.

Lemma fresh_unresolved name root opt : in_phase (fresh name root opt) Unresolved.
Proof. simpl. auto. Qed.

(** The gate of a reachable world is in one of the four situations. *)
Lemma reachable_phase w : reachable srv w -> exists p, in_phase w p.
Proof.
  intros (name & root & opt & ops & ->). apply run_phase.
  exists Unresolved. apply fresh_unresolved.
Qed.

Lemma run_app ops1 ops2 w : run srv (ops1 ++ ops2)%list w = run srv ops2 (run srv ops1 w).
Proof. unfold run. apply fold_left_app. Qed.

Lemma reachable_run ops w : reachable srv w -> reachable srv (run srv ops w).
Proof.
  intros (name & root & opt & ops0 & ->). exists name, root, opt, (ops0 ++ ops)%list.
  rewrite run_app. reflexivity.
Qed.

Lemma reachable_step op w : reachable srv w -> reachable srv (step srv op w).
Proof. intros H. apply (reachable_run [op]). exact H. Qed.

Lemma step_settled op w :
  settled w ->
  settled (step srv op w)
  /\ rootId (handle (step srv op w)) = rootId (handle w)
  /\ snapshotCalls (step srv op w) = snapshotCalls w.
Proof.
  intros (Hi & Hs).
  assert (forall w', gate_step srv w w' ->
            settled w' /\ rootId (handle w') = rootId (handle w)
            /\ snapshotCalls w' = snapshotCalls w) as Hg.
  { intros w' H.
    assert (same_gate w w') as (_ & _ & _ & Hi' & Hr' & Hs' & _ & Hk').
    { destruct H as [H|H]; [exact H|].
      rewrite getRootId_closed in H by exact Hi. exact H. }
    unfold settled. rewrite <- Hi', <- Hr', <- Hs', <- Hk'. auto. }
  destruct op; try (apply Hg; apply step_gate; exact I).
  - simpl. unfold settled. simpl. auto.
  - simpl. destruct (0 <=? d); [|unfold settled; auto].
    destruct (wait_no_sleepers d w Hs) as (Hi' & Hs').
    destruct (wait_fields d w) as (Hk' & _ & Hr' & _).
    unfold settled. rewrite Hi', Hs', Hr', Hk'. auto.
Qed.

Lemma run_settled ops : forall w,
  settled w ->
  settled (run srv ops w)
  /\ rootId (handle (run srv ops w)) = rootId (handle w)
  /\ snapshotCalls (run srv ops w) = snapshotCalls w.
Proof.
  induction ops as [|op ops IH]; intros w Hw; [auto|].
  change (run srv (op :: ops) w) with (run srv ops (step srv op w)).
  destruct (step_settled op w Hw) as (H1 & H2 & H3).
  destruct (IH _ H1) as (H4 & H5 & H6). split; [exact H4 | split; congruence].
Qed.

Lemma elapsed_plain op : plain op -> elapsed [op] = 0.
Proof. destruct op; simpl; intros H; try contradiction; reflexivity. Qed.

Lemma elapsed_cons op ops : elapsed (op :: ops) = elapsed [op] + elapsed ops.
Proof. destruct op; simpl; lia. Qed.

Lemma elapsed_nonneg ops : 0 <= elapsed ops.
Proof. induction ops as [|op ops IH]; simpl; [lia|]. destruct op; lia. Qed.

Lemma step_cooling op w t :
  in_phase w (Cooling t) -> clock w + elapsed [op] < t ->
  in_phase (step srv op w) (Cooling t)
  /\ snapshotCalls (step srv op w) = snapshotCalls w
  /\ clock (step srv op w) = clock w + elapsed [op].
Proof.
  intros Hp Ht.
  assert (forall w', gate_step srv w w' ->
            in_phase w' (Cooling t) /\ snapshotCalls w' = snapshotCalls w
            /\ clock w' = clock w + 0) as Hg.
  { intros w' H.
    assert (same_gate w w') as Hsg.
    { destruct H as [H|H]; [exact H|].
      destruct Hp as (Hi & _). rewrite getRootId_closed in H by exact Hi. exact H. }
    split; [eapply same_gate_phase; eauto|].
    destruct Hsg as (_ & _ & _ & _ & _ & _ & Hc & Hk). rewrite <- Hc, <- Hk. lia. }
  destruct op; try (rewrite elapsed_plain by exact I; apply Hg; apply step_gate; exact I).
  - simpl. repeat split; try apply Hp. lia.
  - simpl in *. destruct (Z.leb_spec 0 d).
    + rewrite Z.max_r in * by lia. destruct (wait_fields d w) as (Hk & Hc & _).
      split; [apply wait_cooling_early; [exact Hp | lia] | split; [exact Hk | lia]].
    + rewrite Z.max_l in * by lia. repeat split; try apply Hp. lia.
Qed.

Lemma run_cooling ops : forall w t,
  in_phase w (Cooling t) -> clock w + elapsed ops < t ->
  in_phase (run srv ops w) (Cooling t)
  /\ snapshotCalls (run srv ops w) = snapshotCalls w
  /\ clock (run srv ops w) = clock w + elapsed ops.
Proof.
  induction ops as [|op ops IH]; intros w t Hp Ht.
  - simpl in *. repeat split; try apply Hp. lia.
  - rewrite elapsed_cons in *. pose proof (elapsed_nonneg ops).
    destruct (step_cooling op w t Hp ltac:(lia)) as (H1 & H2 & H3).
    destruct (IH _ t H1 ltac:(lia)) as (H4 & H5 & H6).
    change (run srv (op :: ops) w) with (run srv ops (step srv op w)).
    split; [exact H4 | split; [congruence | lia]].
Qed.
End Phases.

(** C6.  Once a call of [getRootId] on a reachable handle has returned a
    root identifier, whatever operations follow and however much time
    passes, the handle keeps that identifier, no further remote
    snapshot-list call is made, and [getRootId] returns the same identifier
    and leaves the world as it is. *)
Theorem resolved_forever (srv : Server) (w w1 : World) (r : string) :
  reachable srv w ->
  getRootId srv w = (Ok r, w1) ->
  forall ops,
    rootId (handle (run srv ops w1)) = r
    /\ snapshotCalls (run srv ops w1) = snapshotCalls w1
    /\ getRootId srv (run srv ops w1) = (Ok r, run srv ops w1).
Proof.
  intros Hreach Hcall ops.
  assert (w1 = snd (getRootId srv w)) as Hw1 by (rewrite Hcall; reflexivity).
  pose proof (getRootId_result srv w) as Hres. rewrite Hcall in Hres. simpl in Hres.
  destruct (String.eqb (rootId (handle w1)) "") eqn:E; [discriminate|].
  injection Hres as Hr. apply String.eqb_neq in E.
  destruct (getRootId_phase srv w (reachable_phase srv w Hreach)) as (p & Hp).
  rewrite <- Hw1 in Hp.
  assert (settled w1) as Hs.
  { destruct p; destruct Hp as (Hi & Hr' & Hs'); try contradiction; split; tauto. }
  destruct (run_settled srv ops w1 Hs) as ((Hi & Hsl) & Hrid & Hk).
  split; [congruence|]. split; [exact Hk|].
  rewrite getRootId_resolved; [congruence|].
  simpl. rewrite Hrid. auto.
Qed.

Lemma resolved_forever_witness :
  getRootId sample_server
    (run sample_server [OpWait 5000; OpList "a"; OpGetRootId]
       (snd (getRootId sample_server (sample_world "latest"))))
  = (Ok "kroot",
     run sample_server [OpWait 5000; OpList "a"; OpGetRootId]
       (snd (getRootId sample_server (sample_world "latest")))).
Proof.
  apply (resolved_forever sample_server (sample_world "latest")
           (snd (getRootId sample_server (sample_world "latest"))) "kroot").
  - exists "kopia", "", (sample_options "latest"), []. reflexivity.
  - reflexivity.
Defined.

(** C5.  When the gate of a reachable handle is open and the remote
    snapshot-list call of the attempt ends with an error, the attempt fails
    with the not-found error and no reset of the gate is scheduled; whatever
    operations follow and however much time passes, no further remote
    snapshot-list call is made and [getRootId] returns the not-found error
    and leaves the world as it is. *)
Theorem remote_error_closes_gate (srv : Server) (w : World) (e : error) :
  reachable srv w ->
  initOnce (handle w) = false ->
  snapshots_api srv (snapshotCalls w) (Options.User (opt (handle w)))
    (Options.Host (opt (handle w))) (Options.Path (opt (handle w))) = inl e ->
  fst (getRootId srv w) = Err (not_found (snd (getRootId srv w)))
  /\ sleepers (snd (getRootId srv w)) = []
  /\ forall ops,
       snapshotCalls (run srv ops (snd (getRootId srv w)))
       = snapshotCalls (snd (getRootId srv w))
       /\ getRootId srv (run srv ops (snd (getRootId srv w)))
          = (Err (not_found (run srv ops (snd (getRootId srv w)))),
             run srv ops (snd (getRootId srv w))).
Proof.
  intros Hreach Hgate Hapi.
  destruct (reachable_phase srv w Hreach) as (p & Hp).
  assert (in_phase w Unresolved) as Hu.
  { destruct p; destruct Hp as (Hi & Hr & Hs); try congruence. simpl. auto. }
  destruct (getRootId_open srv w Hu) as (_ & _ & Hd).
  unfold api_answer in Hd. rewrite Hapi in Hd. destruct Hd as (Hi & Hr & Hs).
  split; [|split; [exact Hs|]].
  - rewrite getRootId_result, Hr. reflexivity.
  - intros ops.
    destruct (run_settled srv ops _ (conj Hi Hs)) as ((Hi' & Hs') & Hr' & Hk').
    split; [exact Hk'|]. apply getRootId_failed; congruence.
Qed.

Lemma remote_error_closes_gate_witness :
  snapshotCalls
    (run failing_server [OpWait 3000; OpGetRootId; OpWait 60000; OpList ""]
       (snd (getRootId failing_server (sample_world "latest"))))
  = snapshotCalls (snd (getRootId failing_server (sample_world "latest"))).
Proof.
  refine (proj1 (proj2 (proj2 (remote_error_closes_gate failing_server (sample_world "latest")
                                 (ErrRemote "503") _ _ _)) _)).
  - exists "kopia", "", (sample_options "latest"), []. reflexivity.
  - reflexivity.
  - reflexivity.
Defined.

(** C4 (as amended).  When the gate of a reachable handle is open, the
    remote snapshot-list call of the attempt succeeds and the root identifier
    is still empty afterwards, then as long as less than the cooldown of
    three seconds has passed, no further remote snapshot-list call is made
    and [getRootId] returns the not-found error and leaves the world as it
    is; and the first call of [getRootId] after the cooldown has passed makes
    exactly one new remote snapshot-list call. *)
Theorem scan_failure_rearms (srv : Server) (w : World) (result : SnapshotResponse.t) :
  reachable srv w ->
  initOnce (handle w) = false ->
  snapshots_api srv (snapshotCalls w) (Options.User (opt (handle w)))
    (Options.Host (opt (handle w))) (Options.Path (opt (handle w))) = inr result ->
  rootId (handle (snd (getRootId srv w))) = "" ->
  forall ops, elapsed ops < 3 * Second ->
    (snapshotCalls (run srv ops (snd (getRootId srv w)))
     = snapshotCalls (snd (getRootId srv w))
     /\ getRootId srv (run srv ops (snd (getRootId srv w)))
        = (Err (not_found (run srv ops (snd (getRootId srv w)))),
           run srv ops (snd (getRootId srv w))))
    /\ forall d, 3 * Second <= elapsed ops + d ->
         snapshotCalls
           (snd (getRootId srv (wait d (run srv ops (snd (getRootId srv w))))))
         = S (snapshotCalls (snd (getRootId srv w))).
Proof.
  intros Hreach Hgate Hapi Hempty ops Hearly.
  destruct (reachable_phase srv w Hreach) as (p & Hp).
  assert (in_phase w Unresolved) as Hu.
  { destruct p; destruct Hp as (Hi & Hr & Hs); try congruence. simpl. auto. }
  destruct (getRootId_open srv w Hu) as (_ & Hc & Hd).
  unfold api_answer in Hd. rewrite Hapi, Hempty in Hd. simpl in Hd.
  change (3 * Second) with 3000 in *.
  destruct (run_cooling srv ops _ _ Hd ltac:(lia)) as (Hcool & Hk & Hclock).
  split.
  - split; [exact Hk|]. destruct Hcool as (Hi & Hr & _).
    apply getRootId_failed; assumption.
  - intros d Hd'.
    assert (in_phase (wait d (run srv ops (snd (getRootId srv w)))) Unresolved) as Hopen.
    { eapply wait_cooling_late; [exact Hcool | lia]. }
    destruct (getRootId_open srv _ Hopen) as (Hk' & _).
    rewrite Hk'. destruct (wait_fields d (run srv ops (snd (getRootId srv w)))) as (-> & _).
    rewrite Hk. reflexivity.
Qed.

Lemma scan_failure_rearms_witness :
  snapshotCalls
    (snd (getRootId empty_server
            (wait 1000
               (run empty_server [OpWait 1000; OpGetRootId; OpWait 1500; OpList "a"]
                  (snd (getRootId empty_server (sample_world "latest")))))))
  = S (snapshotCalls (snd (getRootId empty_server (sample_world "latest")))).
Proof.
  refine (proj2 (scan_failure_rearms empty_server (sample_world "latest")
                   (SnapshotResponse.mk [] 0 0) _ _ _ _
                   [OpWait 1000; OpGetRootId; OpWait 1500; OpList "a"] _) 1000 _).
  - exists "kopia", "", (sample_options "latest"), []. reflexivity.
  - reflexivity.
  - reflexivity.
  - reflexivity.
  - reflexivity.
  - vm_compute. discriminate.
Defined.

(** C4, as the claim states it, fails: the attempt fails because the remote
    call ends with an error, the root identifier is empty afterwards, and a
    call made a full cooldown later makes no new remote snapshot-list
    call. *)
Lemma every_failure_rearms_counterexample :
  let w1 := snd (getRootId failing_server (sample_world "latest")) in
  rootId (handle w1) = ""
  /\ snapshotCalls w1 = 1%nat
  /\ snapshotCalls (snd (getRootId failing_server (wait (3 * Second) w1))) = 1%nat
  /\ snapshotCalls (snd (getRootId failing_server (wait (60 * Second) w1))) = 1%nat.
Proof. repeat split; reflexivity. Qed.

(* ===================================================================== *)
(** ** The listing cache *)
(* ===================================================================== *)

Lemma extends_refl w : extends w w.
Proof. split; [auto | reflexivity]. Qed.

Lemma extends_trans w1 w2 w3 : extends w1 w2 -> extends w2 w3 -> extends w1 w3.
Proof. intros (H1 & H2) (H3 & H4). split; [auto | etrans; eauto]. Qed.

Lemma extends_same w w' :
  rootEntries (handle w) = rootEntries (handle w') -> store w = store w' -> extends w w'.
Proof. intros H1 H2. split; [congruence | rewrite H2; reflexivity]. Qed.

Lemma cache_fuel_enough n : forall m remote w,
  (String.length remote < n)%nat -> (String.length remote < m)%nat ->
  cache_fuel n remote w = cache_fuel m remote w.
Proof.
  induction n as [|n IH]; intros m remote w Hn Hm; [lia|].
  destruct m as [|m]; [lia|]. simpl.
  destruct (String.eqb remote "") eqn:E; [reflexivity|].
  apply String.eqb_neq in E. pose proof (dir_shorter1 remote E) as Hd.
  destruct (Split (cleanPath remote)) as [dir file]. simpl in Hd.
  pose proof (cleanPath_length dir).
  rewrite (IH m (cleanPath dir) w) by lia. reflexivity.
Qed.

(** The cache at a path other than the root, by the cache at its parent. *)
Lemma cache_unfold w remote :
  remote <> "" ->
  cache w remote
  = match cache w (cleanPath (fst (Split (cleanPath remote)))) with
    | None => None
    | Some dirEntries =>
        if String.eqb (snd (Split (cleanPath remote))) "" then None
        else match lookup_name (snd (Split (cleanPath remote))) dirEntries with
             | Some (Directory _ addr) => store w !! addr
             | _ => None
             end
    end.
Proof.
  intros E. unfold cache at 1. simpl.
  apply String.eqb_neq in E. rewrite E. apply String.eqb_neq in E.
  pose proof (dir_shorter1 remote E) as Hd.
  destruct (Split (cleanPath remote)) as [dir file]. simpl in *.
  pose proof (cleanPath_length dir).
  unfold cache. rewrite (cache_fuel_enough (String.length remote)
                           (S (String.length (cleanPath dir)))) by lia.
  reflexivity.
Qed.

Lemma cache_root w : cache w "" = rootEntries (handle w).
Proof. reflexivity. Qed.

Lemma cache_mono_fuel n : forall remote w w' es,
  extends w w' -> cache_fuel n remote w = Some es -> cache_fuel n remote w' = Some es.
Proof.
  induction n as [|n IH]; intros remote w w' es Hext; simpl; [discriminate|].
  destruct (String.eqb remote ""); [apply Hext|].
  destruct (Split (cleanPath remote)) as [dir file].
  destruct (cache_fuel n (cleanPath dir) w) as [des|] eqn:Ed; [|discriminate].
  rewrite (IH _ _ _ _ Hext Ed).
  destruct (String.eqb file ""); [discriminate|].
  destruct (lookup_name file des) as [[info|info addr]|]; try discriminate.
  intros H. destruct Hext as (_ & Hsub). eapply lookup_weaken; eauto.
Qed.

(** The cache is never invalidated: a listing it holds stays as the cache
    grows. *)
Lemma cache_mono w w' remote es :
  extends w w' -> cache w remote = Some es -> cache w' remote = Some es.
Proof. apply cache_mono_fuel. Qed.

Section Cache.
Variable srv : Server.

Lemma listObject_cases remote objId w :
  (exists e, listObject srv remote objId w = (Err e, log_objectCall remote objId false w))
  \/ (exists es free,
        listObject srv remote objId w
        = (Ok es, set_next free (log_objectCall remote objId true w))).
Proof.
  unfold listObject. destruct (objects_api _ _ _) as [e|[resp result]]; [eauto|].
  destruct (match resp with None => true | Some r => _ end); [eauto|].
  destruct (entries_of _ _ _) as [es free]. eauto.
Qed.

Lemma getRootId_cache w :
  rootEntries (handle (snd (getRootId srv w))) = rootEntries (handle w)
  /\ store (snd (getRootId srv w)) = store w
  /\ objectCalls (snd (getRootId srv w)) = objectCalls w.
Proof.
  rewrite getRootId_world. unfold Once_Do. destruct (initOnce (handle w)); [auto|].
  unfold resolve. destruct (snapshots_api _ _ _ _ _) as [e|result]; simpl; [auto|].
  destruct (scan _ _) as [[i s]|]; simpl;
    destruct (String.eqb _ ""); simpl; auto.
Qed.

(** [list] at the root, written out. *)
Lemma list_fuel_root n remote w :
  String.eqb (cleanPath remote) "" = true ->
  list_fuel srv (S n) remote w
  = match rootEntries (handle w) with
    | Some dirEntries => (Ok dirEntries, w)
    | None =>
        match getRootId srv w with
        | (Ok rootId, w1) =>
            match listObject srv "" rootId w1 with
            | (Ok dirEntries, w2) =>
                (Ok dirEntries, with_handle (set_rootEntries (Some dirEntries)) w2)
            | (Err e, w2) => (Err e, w2)
            | (OutOfFuel, w2) => (OutOfFuel, w2)
            end
        | (Err e, w1) => (Err e, w1)
        | (OutOfFuel, w1) => (OutOfFuel, w1)
        end
    end.
Proof.
  intros E. simpl. unfold list_with. rewrite E.
  apply String.eqb_eq in E. rewrite E.
  destruct (rootEntries (handle w)); [reflexivity|].
  unfold bind. destruct (getRootId srv w) as [[r|e|] w1]; reflexivity.
Qed.

(** [list] below the root, written out. *)
Lemma list_fuel_below n remote w :
  String.eqb (cleanPath remote) "" = false ->
  list_fuel srv (S n) remote w
  = match list_fuel srv n (fst (Split (cleanPath (cleanPath remote)))) w with
    | (Ok parent, w1) =>
        if String.eqb (snd (Split (cleanPath (cleanPath remote)))) "" then
          (Err ErrorIsDir, w1)
        else
          match lookup_name (snd (Split (cleanPath (cleanPath remote)))) parent with
          | None => (Err ErrorDirNotFound, w1)
          | Some (Object _) => (Err ErrorIsFile, w1)
          | Some (Directory info addr) =>
              match store w1 !! addr with
              | Some dirEntries => (Ok dirEntries, w1)
              | None =>
                  match listObject srv (cleanPath remote) (ObjectInfo.id info) w1 with
                  | (Ok dirEntries, w2) => (Ok dirEntries, set_entries addr dirEntries w2)
                  | (Err e, w2) => (Err e, w2)
                  | (OutOfFuel, w2) => (OutOfFuel, w2)
                  end
              end
          end
    | (Err e, w1) =>
        (if errors_Is e ErrorObjectNotFound then Err ErrorDirNotFound else Err e, w1)
    | (OutOfFuel, w1) => (OutOfFuel, w1)
    end.
Proof.
  intros E. simpl. unfold list_with. rewrite E. unfold newObject_with.
  destruct (Split (cleanPath (cleanPath remote))) as [dir file]. simpl.
  unfold bind. destruct (list_fuel srv n dir w) as [[des|e|] w1]; simpl.
  - destruct (String.eqb file ""); [reflexivity|].
    destruct (lookup_name file des) as [[info|info addr]|]; simpl; reflexivity.
  - destruct (errors_Is e ErrorObjectNotFound); reflexivity.
  - reflexivity.
Qed.
End Cache.

Section CacheWalk.
Variable srv : Server.

Lemma extends_fetch w addr es free remote objId :
  store w !! addr = None ->
  extends w (set_entries addr es (set_next free (log_objectCall remote objId true w))).
Proof.
  intros H. split; [auto|]. simpl. apply insert_subseteq. exact H.
Qed.

(** [list] only adds to the cache. *)
Lemma list_fuel_extends n : forall remote w, extends w (snd (list_fuel srv n remote w)).
Proof.
  induction n as [|n IH]; intros remote w; [apply extends_refl|].
  destruct (String.eqb (cleanPath remote) "") eqn:E.
  - rewrite list_fuel_root by exact E.
    destruct (rootEntries (handle w)) as [es0|] eqn:Er; [apply extends_refl|].
    destruct (getRootId_cache srv w) as (H1 & H2 & _).
    destruct (getRootId srv w) as [[r|e|] w1]; simpl in *;
      try (apply extends_same; congruence).
    destruct (listObject_cases srv "" r w1) as [(e & ->)|(es & free & ->)]; simpl.
    + apply extends_same; simpl; congruence.
    + split; [congruence | simpl; rewrite H2; reflexivity].
  - rewrite list_fuel_below by exact E.
    specialize (IH (fst (Split (cleanPath (cleanPath remote)))) w).
    destruct (list_fuel srv n _ w) as [[des|e|] w1]; simpl in *; try exact IH.
    destruct (String.eqb (snd (Split _)) ""); [exact IH|].
    destruct (lookup_name _ des) as [[info|info addr]|]; try exact IH.
    destruct (store w1 !! addr) as [es0|] eqn:Es; [exact IH|].
    destruct (listObject_cases srv (cleanPath remote) (ObjectInfo.id info) w1)
      as [(e & ->)|(es & free & ->)]; simpl.
    + eapply extends_trans; [exact IH|]. apply extends_same; reflexivity.
    + eapply extends_trans; [exact IH|]. apply extends_fetch. exact Es.
Qed.

(** A path the cache holds is listed from the cache: the listing comes
    back and the world is untouched. *)
Lemma list_fuel_hit n : forall remote w es,
  (String.length remote < n)%nat ->
  cache w (cleanPath remote) = Some es ->
  list_fuel srv n remote w = (Ok es, w).
Proof.
  induction n as [|n IH]; intros remote w es Hn Hc; [lia|].
  destruct (String.eqb (cleanPath remote) "") eqn:E.
  - rewrite list_fuel_root by exact E.
    apply String.eqb_eq in E. rewrite E, cache_root in Hc. rewrite Hc. reflexivity.
  - rewrite list_fuel_below by exact E.
    pose proof (dir_shorter remote (cleanPath_nonempty _ E)) as Hd.
    apply String.eqb_neq in E. rewrite (cache_unfold _ _ E) in Hc.
    destruct (cache w (cleanPath (fst (Split (cleanPath (cleanPath remote))))))
      as [des|] eqn:Ed; [|discriminate].
    rewrite (IH (fst (Split (cleanPath (cleanPath remote)))) w des ltac:(lia) Ed).
    destruct (String.eqb (snd (Split _)) ""); [discriminate|].
    destruct (lookup_name _ des) as [[info|info addr]|]; try discriminate.
    rewrite Hc. reflexivity.
Qed.

(** After a successful [list] the cache holds the listing returned. *)
Lemma list_fuel_fill n : forall remote w es w',
  list_fuel srv n remote w = (Ok es, w') ->
  cache w' (cleanPath remote) = Some es.
Proof.
  induction n as [|n IH]; intros remote w es w' Hl; [discriminate|].
  destruct (String.eqb (cleanPath remote) "") eqn:E.
  - rewrite list_fuel_root in Hl by exact E.
    apply String.eqb_eq in E. rewrite E, cache_root.
    destruct (rootEntries (handle w)) as [es0|] eqn:Er.
    { injection Hl as <- <-. exact Er. }
    destruct (getRootId srv w) as [[r|e|] w1]; try discriminate.
    destruct (listObject_cases srv "" r w1) as [(e & Hlo)|(es1 & free & Hlo)];
      rewrite Hlo in Hl; [discriminate|].
    injection Hl as <- <-. reflexivity.
  - rewrite list_fuel_below in Hl by exact E.
    apply String.eqb_neq in E. rewrite (cache_unfold _ _ E).
    destruct (list_fuel srv n _ w) as [[des|e|] w1] eqn:R;
      [|destruct (errors_Is e ErrorObjectNotFound); discriminate | discriminate].
    pose proof (IH _ _ _ _ R) as Hparent.
    destruct (String.eqb (snd (Split _)) ""); [discriminate|].
    destruct (lookup_name _ des) as [[info|info addr]|] eqn:El; try discriminate.
    destruct (store w1 !! addr) as [es0|] eqn:Es.
    { injection Hl as <- <-. rewrite Hparent, El. exact Es. }
    destruct (listObject_cases srv (cleanPath remote) (ObjectInfo.id info) w1)
      as [(e & Hlo)|(es1 & free & Hlo)]; rewrite Hlo in Hl; [discriminate|].
    injection Hl as <- <-.
    rewrite (cache_mono w1 _ _ des (extends_fetch w1 addr es1 free _ _ Es) Hparent).
    rewrite El. simpl. apply lookup_insert_eq.
Qed.

Lemma Fs_list_extends remote w : extends w (snd (Fs_list srv remote w)).
Proof. apply list_fuel_extends. Qed.

Lemma Fs_list_hit remote w es :
  cache w (cleanPath remote) = Some es -> Fs_list srv remote w = (Ok es, w).
Proof. apply list_fuel_hit. lia. Qed.

Lemma Fs_list_fill remote w es w' :
  Fs_list srv remote w = (Ok es, w') -> cache w' (cleanPath remote) = Some es.
Proof. apply list_fuel_fill. Qed.

(** [newObject] changes the world the way the [list] of the parent
    does. *)
Lemma newObject_world remote w :
  snd (newObject srv remote w)
  = snd (Fs_list srv (fst (Split (cleanPath remote))) w).
Proof.
  unfold newObject, newObject_with. destruct (Split (cleanPath remote)) as [dir file].
  unfold bind. simpl. destruct (Fs_list srv dir w) as [[es|e|] w1]; simpl; try reflexivity.
  destruct (String.eqb file ""); [reflexivity|].
  destruct (lookup_name file es); reflexivity.
Qed.

Lemma NewObject_world remote w :
  snd (NewObject srv remote w) = snd (newObject srv (Join (root (handle w)) remote) w).
Proof.
  unfold NewObject. destruct (newObject srv _ w) as [[[info|info addr]|e|] w1]; reflexivity.
Qed.

Lemma Open_cache o w :
  rootEntries (handle (snd (Open srv o w))) = rootEntries (handle w)
  /\ store (snd (Open srv o w)) = store w
  /\ objectCalls (snd (Open srv o w)) = objectCalls w.
Proof. unfold Open. destruct (open_api _ _ _); simpl; auto. Qed.

Lemma step_extends op w : extends w (step srv op w).
Proof.
  destruct op; simpl; try apply extends_refl;
    try (destruct (Open_cache o w) as (H1 & H2 & _); apply extends_same; congruence).
  - destruct (getRootId_cache srv w) as (H1 & H2 & _). apply extends_same; congruence.
  - apply Fs_list_extends.
  - rewrite NewObject_world, newObject_world. apply Fs_list_extends.
  - apply Fs_list_extends.
  - rewrite newObject_world. apply Fs_list_extends.
  - apply extends_same; reflexivity.
  - destruct (0 <=? d); [|apply extends_refl].
    destruct (wait_fields d w) as (_ & _ & _ & _ & H1 & H2). apply extends_same; congruence.
Qed.

Lemma run_extends ops : forall w, extends w (run srv ops w).
Proof.
  induction ops as [|op ops IH]; intros w; [apply extends_refl|].
  change (run srv (op :: ops) w) with (run srv ops (step srv op w)).
  eapply extends_trans; [apply step_extends | apply IH].
Qed.
End CacheWalk.

Lemma listed_paths_same w w' : objectCalls w = objectCalls w' -> listed_paths w = listed_paths w'.
Proof. unfold listed_paths. intros ->. reflexivity. Qed.

Lemma listed_paths_failed remote objId w :
  listed_paths (log_objectCall remote objId false w) = listed_paths w.
Proof.
  unfold listed_paths. simpl. rewrite List.filter_app. simpl. rewrite app_nil_r. reflexivity.
Qed.

Lemma listed_paths_listed remote objId w :
  listed_paths (log_objectCall remote objId true w) = (listed_paths w ++ [remote])%list.
Proof.
  unfold listed_paths. simpl. rewrite List.filter_app, map_app. reflexivity.
Qed.

Lemma log_ok_keep w w' :
  log_ok w -> extends w w' -> listed_paths w' = listed_paths w -> log_ok w'.
Proof.
  intros (Hnd & Hc) Hext Hl. unfold log_ok. rewrite Hl. split; [exact Hnd|].
  intros p Hp. destruct (Hc p Hp) as (es & Hes). exists es. eapply cache_mono; eauto.
Qed.

Lemma log_ok_add w w' remote es :
  log_ok w -> extends w w' -> cache w remote = None -> cache w' remote = Some es ->
  listed_paths w' = (listed_paths w ++ [remote])%list -> log_ok w'.
Proof.
  intros (Hnd & Hc) Hext Hnone Hsome Hl. unfold log_ok. rewrite Hl. split.
  - apply NoDup_app. split; [exact Hnd|]. split; [|apply NoDup_singleton].
    intros p Hp Hp'. apply list_elem_of_singleton in Hp'. subst p.
    destruct (Hc remote Hp) as (es' & Hes'). congruence.
  - intros p Hp. apply elem_of_app in Hp as [Hp|Hp].
    + destruct (Hc p Hp) as (es' & Hes'). exists es'. eapply cache_mono; eauto.
    + apply list_elem_of_singleton in Hp. subst p. eauto.
Qed.

Section Log.
Variable srv : Server.

Lemma list_fuel_log n : forall remote w, log_ok w -> log_ok (snd (list_fuel srv n remote w)).
Proof.
  induction n as [|n IH]; intros remote w Hok; [exact Hok|].
  destruct (list_fuel srv (S n) remote w) as [res w'] eqn:Hcall. simpl.
  pose proof (list_fuel_extends srv (S n) remote w) as Hext. rewrite Hcall in Hext.
  simpl in Hext.
  destruct (String.eqb (cleanPath remote) "") eqn:E.
  - rewrite list_fuel_root in Hcall by exact E.
    destruct (rootEntries (handle w)) as [es0|] eqn:Er.
    { injection Hcall as <- <-. exact Hok. }
    destruct (getRootId_cache srv w) as (H1 & H2 & H3).
    destruct (getRootId srv w) as [[r|e|] w1]; simpl in *;
      try (injection Hcall as <- <-; eapply log_ok_keep; eauto;
           apply listed_paths_same; congruence).
    destruct (listObject_cases srv "" r w1) as [(e & Hlo)|(es & free & Hlo)];
      rewrite Hlo in Hcall; injection Hcall as <- <-.
    + eapply log_ok_keep; eauto. rewrite listed_paths_failed.
      apply listed_paths_same. exact H3.
    + eapply (log_ok_add w _ "" es); [exact Hok | exact Hext | | |].
      * rewrite cache_root. exact Er.
      * reflexivity.
      * change (listed_paths (log_objectCall "" r true w1)
                = (listed_paths w ++ [""])%list).
        rewrite listed_paths_listed, (listed_paths_same w1 w H3). reflexivity.
  - pose proof Hcall as Hwhole.
    rewrite list_fuel_below in Hcall by exact E.
    specialize (IH (fst (Split (cleanPath (cleanPath remote)))) w Hok).
    destruct (list_fuel srv n _ w) as [[des|e|] w1] eqn:R; simpl in IH;
      try (injection Hcall as <- <-; exact IH).
    destruct (String.eqb (snd (Split _)) "") eqn:Ef; [injection Hcall as <- <-; exact IH|].
    destruct (lookup_name _ des) as [[info|info addr]|] eqn:El;
      try (injection Hcall as <- <-; exact IH).
    destruct (store w1 !! addr) as [es0|] eqn:Es; [injection Hcall as <- <-; exact IH|].
    destruct (listObject_cases srv (cleanPath remote) (ObjectInfo.id info) w1)
      as [(e & Hlo)|(es & free & Hlo)]; rewrite Hlo in Hcall; injection Hcall as <- <-.
    + eapply log_ok_keep; [exact IH | apply extends_same; reflexivity |].
      apply listed_paths_failed.
    + eapply (log_ok_add w1 _ (cleanPath remote) es); [exact IH | | | |].
      * apply extends_fetch. exact Es.
      * apply String.eqb_neq in E. rewrite (cache_unfold _ _ E).
        rewrite (list_fuel_fill srv _ _ _ _ _ R), Ef, El. exact Es.
      * apply (list_fuel_fill srv _ _ _ _ _ Hwhole).
      * apply listed_paths_listed.
Qed.

Lemma step_log op w : log_ok w -> log_ok (step srv op w).
Proof.
  intros Hok. destruct op; simpl; try exact Hok;
    try (destruct (Open_cache srv o w) as (H1 & H2 & H3);
         eapply log_ok_keep; [exact Hok | apply extends_same; congruence |];
         apply listed_paths_same; exact H3).
  - destruct (getRootId_cache srv w) as (H1 & H2 & H3).
    eapply log_ok_keep; [exact Hok | apply extends_same; congruence |].
    apply listed_paths_same. exact H3.
  - apply list_fuel_log. exact Hok.
  - rewrite NewObject_world, newObject_world. apply list_fuel_log. exact Hok.
  - apply list_fuel_log. exact Hok.
  - rewrite newObject_world. apply list_fuel_log. exact Hok.
  - eapply log_ok_keep; [exact Hok | apply extends_same; reflexivity | reflexivity].
  - destruct (0 <=? d); [|exact Hok].
    destruct (wait_fields d w) as (_ & _ & _ & H3 & H1 & H2).
    eapply log_ok_keep; [exact Hok | apply extends_same; congruence |].
    apply listed_paths_same. exact H3.
Qed.

Lemma run_log ops : forall w, log_ok w -> log_ok (run srv ops w).
Proof.
  induction ops as [|op ops IH]; intros w Hok; [exact Hok|].
  change (run srv (op :: ops) w) with (run srv ops (step srv op w)).
  apply IH. apply step_log. exact Hok.
Qed.

Lemma reachable_log w : reachable srv w -> log_ok w.
Proof.
  intros (name & root & opt & ops & ->). apply run_log.
  split; [apply NoDup_nil_2 | intros p Hp; inversion Hp].
Qed.

(** The first listing of the root, when it succeeds, makes one object
    call, records it and caches its result; when it fails it has made
    at most one object call and caches nothing. *)
Lemma first_root_listing w res w1 :
  rootEntries (handle w) = None ->
  Fs_list srv "" w = (res, w1) ->
  match res with
  | Ok es =>
      objectCalls w1 = (objectCalls w ++ [("", rootId (handle w1), true)])%list
      /\ rootEntries (handle w1) = Some es
  | _ =>
      (length (objectCalls w1) <= S (length (objectCalls w)))%nat
      /\ rootEntries (handle w1) = None
  end.
Proof.
  intros Er Hcall. unfold Fs_list in Hcall. rewrite list_fuel_root in Hcall by reflexivity.
  rewrite Er in Hcall.
  destruct (getRootId_cache srv w) as (H1 & H2 & H3).
  pose proof (getRootId_result srv w) as Hres.
  destruct (getRootId srv w) as [[r|e|] w1'] eqn:G; simpl in *;
    try (injection Hcall as <- <-; rewrite H3; split; [lia | congruence]).
  destruct (String.eqb (rootId (handle w1')) ""); [discriminate|]. injection Hres as ->.
  destruct (listObject_cases srv "" (rootId (handle w1')) w1')
    as [(e & Hlo)|(es & free & Hlo)]; rewrite Hlo in Hcall; injection Hcall as <- <-.
  - simpl. rewrite length_app, H3. simpl. split; [lia | congruence].
  - simpl. rewrite H3. split; reflexivity.
Qed.
End Log.

(** C7.  On a reachable handle no path has been listed from the remote
    more than once.  The first listing of the root makes exactly one remote
    object call, for the root, and caches what it returns (when the root
    identifier does not resolve or the call brings back no listing, the call
    fails, having made at most one object call, and nothing is cached).
    Once a listing of a path has succeeded, every later listing of that
    path, whatever operations and waits lie in between, returns the same
    entries, makes no remote call and leaves the world as it is: the cache
    is never invalidated or refreshed.  The same holds for every path that
    the cache holds. *)
Theorem listing_fetched_once (srv : Server) (w : World) :
  reachable srv w ->
  NoDup (listed_paths w)
  /\ (forall res w1,
        rootEntries (handle w) = None -> Fs_list srv "" w = (res, w1) ->
        match res with
        | Ok es =>
            objectCalls w1 = (objectCalls w ++ [("", rootId (handle w1), true)])%list
            /\ rootEntries (handle w1) = Some es
        | _ =>
            (length (objectCalls w1) <= S (length (objectCalls w)))%nat
            /\ rootEntries (handle w1) = None
        end)
  /\ (forall remote es w1,
        Fs_list srv remote w = (Ok es, w1) ->
        forall ops, Fs_list srv remote (run srv ops w1) = (Ok es, run srv ops w1))
  /\ (forall remote es,
        cache w (cleanPath remote) = Some es -> Fs_list srv remote w = (Ok es, w)).
Proof.
  intros Hreach. split; [apply (reachable_log srv w Hreach)|]. split; [|split].
  - intros res w1 Er Hcall. apply (first_root_listing srv w res w1 Er Hcall).
  - intros remote es w1 Hcall ops. apply Fs_list_hit.
    eapply cache_mono; [apply run_extends|]. eapply Fs_list_fill; eauto.
  - intros remote es. apply Fs_list_hit.
Qed.

Lemma listing_fetched_once_witness :
  Fs_list sample_server "a"
    (run sample_server [OpList "a/b"; OpWait 5000; OpNewObject "x"]
       (snd (Fs_list sample_server "a" (sample_world "latest"))))
  = (Ok [Directory (ObjectInfo.mk "kb" "b" "a/b" 0 7) 1],
     run sample_server [OpList "a/b"; OpWait 5000; OpNewObject "x"]
       (snd (Fs_list sample_server "a" (sample_world "latest")))).
Proof.
  refine (proj1 (proj2 (proj2 (listing_fetched_once sample_server (sample_world "latest") _)))
            "a" _ (snd (Fs_list sample_server "a" (sample_world "latest"))) _ _).
  - exists "kopia", "", (sample_options "latest"), []. reflexivity.
  - reflexivity.
Defined.

(* ===================================================================== *)
(** ** Walking a tree *)
(* ===================================================================== *)

Lemma lookup_name_None file es :
  (forall e, e ∈ es -> Name e <> file) -> lookup_name file es = None.
Proof.
  induction es as [|e es IH]; intros H; simpl; [reflexivity|].
  destruct (String.eqb (Name e) file) eqn:E.
  - apply String.eqb_eq in E. exfalso. apply (H e); [apply list_elem_of_here | exact E].
  - apply IH. intros e' He'. apply H. apply list_elem_of_further. exact He'.
Qed.

Lemma entry_of_next remote item free :
  (free <= snd (entry_of remote item free))%nat.
Proof. unfold entry_of. destruct (String.eqb _ "d"); simpl; lia. Qed.

Lemma entry_of_Name remote item free :
  Name (fst (entry_of remote item free)) = Entry.Name item.
Proof. unfold entry_of. destruct (String.eqb _ "d"); reflexivity. Qed.

Lemma entries_of_next remote items : forall free,
  (free <= snd (entries_of remote items free))%nat.
Proof.
  induction items as [|item items IH]; intros free; simpl; [lia|].
  pose proof (entry_of_next remote item free).
  destruct (entry_of remote item free) as [e free1]. specialize (IH free1).
  destruct (entries_of remote items free1) as [es free2]. simpl in *. lia.
Qed.

(** The entry that [newObject] finds for the first item of a name, and
    where the allocator stood when the entry was built. *)
Lemma lookup_entries_of remote name item items :
  first_named name items item ->
  forall free, exists at_,
    (free <= at_)%nat
    /\ (snd (entry_of remote item at_) <= snd (entries_of remote items free))%nat
    /\ lookup_name name (fst (entries_of remote items free))
       = Some (fst (entry_of remote item at_)).
Proof.
  intros (pre & post & -> & Hname & Hpre).
  induction pre as [|i pre IH]; intros free; simpl.
  - exists free. pose proof (entry_of_Name remote item free) as Hn.
    destruct (entry_of remote item free) as [e free1] eqn:Ee.
    pose proof (entries_of_next remote post free1).
    destruct (entries_of remote post free1) as [es free2]. simpl in *.
    rewrite Hn, Hname, String.eqb_refl. split; [lia|]. split; [lia | reflexivity].
  - pose proof (entry_of_Name remote i free) as Hn.
    pose proof (entry_of_next remote i free) as Hf.
    destruct (entry_of remote i free) as [e free1] eqn:Ee.
    destruct (IH ltac:(intros i' Hi'; apply Hpre; apply list_elem_of_further; exact Hi') free1)
      as (at_ & H1 & H2 & H3).
    destruct (entries_of remote (pre ++ item :: post) free1) as [es free2]. simpl in *.
    exists at_. split; [lia|]. split; [exact H2|].
    rewrite Hn. assert (String.eqb (Entry.Name i) name = false) as ->; [|exact H3].
    apply String.eqb_neq. apply Hpre. apply list_elem_of_here.
Qed.

Section Walk.
Variable srv : Server.

Lemma listObject_serves remote objId items w :
  serves srv objId items ->
  listObject srv remote objId w
  = (Ok (fst (entries_of remote items (next w))),
     set_next (snd (entries_of remote items (next w)))
       (log_objectCall remote objId true w)).
Proof.
  intros H. destruct (H (length (objectCalls w))) as (r & body & Hapi & Hjson & Hitems).
  unfold listObject. rewrite Hapi, Hjson. simpl. rewrite Hitems.
  destruct (entries_of remote items (next w)). reflexivity.
Qed.

(** The equations of [list] at the level of [Fs_list]. *)
Lemma Fs_list_root remote w :
  cleanPath remote = "" ->
  Fs_list srv remote w
  = match rootEntries (handle w) with
    | Some dirEntries => (Ok dirEntries, w)
    | None =>
        match getRootId srv w with
        | (Ok rootId, w1) =>
            match listObject srv "" rootId w1 with
            | (Ok dirEntries, w2) =>
                (Ok dirEntries, with_handle (set_rootEntries (Some dirEntries)) w2)
            | (Err e, w2) => (Err e, w2)
            | (OutOfFuel, w2) => (OutOfFuel, w2)
            end
        | (Err e, w1) => (Err e, w1)
        | (OutOfFuel, w1) => (OutOfFuel, w1)
        end
    end.
Proof.
  intros E. unfold Fs_list. apply list_fuel_root. rewrite E. reflexivity.
Qed.

Lemma Fs_list_below remote w dir file :
  cleanPath remote <> "" ->
  Split (cleanPath (cleanPath remote)) = (dir, file) ->
  Fs_list srv remote w
  = match Fs_list srv dir w with
    | (Ok parent, w1) =>
        if String.eqb file "" then (Err ErrorIsDir, w1)
        else
          match lookup_name file parent with
          | None => (Err ErrorDirNotFound, w1)
          | Some (Object _) => (Err ErrorIsFile, w1)
          | Some (Directory info addr) =>
              match store w1 !! addr with
              | Some dirEntries => (Ok dirEntries, w1)
              | None =>
                  match listObject srv (cleanPath remote) (ObjectInfo.id info) w1 with
                  | (Ok dirEntries, w2) => (Ok dirEntries, set_entries addr dirEntries w2)
                  | (Err e, w2) => (Err e, w2)
                  | (OutOfFuel, w2) => (OutOfFuel, w2)
                  end
              end
          end
    | (Err e, w1) =>
        (if errors_Is e ErrorObjectNotFound then Err ErrorDirNotFound else Err e, w1)
    | (OutOfFuel, w1) => (OutOfFuel, w1)
    end.
Proof.
  intros E Hs. apply String.eqb_neq in E. unfold Fs_list at 1.
  rewrite list_fuel_below by exact E.
  pose proof (dir_shorter remote (cleanPath_nonempty _ E)) as Hd.
  rewrite Hs in *. simpl fst in *. simpl snd.
  rewrite list_fuel_Fs_list by exact Hd. reflexivity.
Qed.

Lemma newObject_unfold remote w dir file :
  Split (cleanPath remote) = (dir, file) ->
  newObject srv remote w
  = match Fs_list srv dir w with
    | (Ok parent, w1) =>
        if String.eqb file "" then (Err ErrorIsDir, w1)
        else match lookup_name file parent with
             | Some item => (Ok item, w1)
             | None => (Err ErrorObjectNotFound, w1)
             end
    | (Err e, w1) => (Err e, w1)
    | (OutOfFuel, w1) => (OutOfFuel, w1)
    end.
Proof.
  intros Hs. unfold newObject, newObject_with. rewrite Hs. unfold bind.
  destruct (Fs_list srv dir w) as [[es|e|] w1]; try reflexivity.
  destruct (String.eqb file ""); [reflexivity|].
  destruct (lookup_name file es); reflexivity.
Qed.
End Walk.



Section Tree.
Variable srv : Server.

Lemma getRootId_root w : root (handle (snd (getRootId srv w))) = root (handle w).
Proof.
  rewrite getRootId_world. unfold Once_Do. destruct (initOnce (handle w)); [reflexivity|].
  unfold resolve. destruct (snapshots_api _ _ _ _ _) as [e|result]; simpl; [reflexivity|].
  destruct (scan _ _) as [[i s]|]; simpl; destruct (String.eqb _ ""); reflexivity.
Qed.

Lemma entry_of_directory remote item free :
  Entry.Type_ item = "d" ->
  entry_of remote item free
  = (Directory (ObjectInfo.mk (Entry.Obj item) (Entry.Name item)
                  (Join remote (Entry.Name item)) (Summary.Size (Entry.Summary item))
                  (Entry.MTime item)) free,
     S free).
Proof. intros H. unfold entry_of. rewrite H. reflexivity. Qed.

Lemma entry_of_file remote item free :
  Entry.Type_ item <> "d" ->
  entry_of remote item free
  = (Object (ObjectInfo.mk (Entry.Obj item) (Entry.Name item)
               (Join remote (Entry.Name item)) (Entry.Size item) (Entry.MTime item)),
     free).
Proof. intros H. unfold entry_of. apply String.eqb_neq in H. rewrite H. reflexivity. Qed.
End Tree.

(** [NewObject] on a handle rooted at the top, by the listing of the
    parent: the first entry of that name is returned when it is a file, is
    refused when it is a directory, and is missing otherwise. *)
Lemma NewObject_by_listing (srv : Server) (w w1 : World) (remote dir file : string)
    (es : DirEntries) :
  root (handle w) = "" ->
  Split (cleanPath (Join "" remote)) = (dir, file) ->
  file <> "" ->
  Fs_list srv dir w = (Ok es, w1) ->
  NewObject srv remote w
  = match lookup_name file es with
    | Some (Object info) => (Ok (Object info), w1)
    | Some (Directory _ _) => (Err ErrorIsDir, w1)
    | None => (Err ErrorObjectNotFound, w1)
    end.
Proof.
  intros Hroot Hsplit Hfile Hlist. unfold NewObject. rewrite Hroot.
  rewrite (newObject_unfold srv (Join "" remote) w dir file Hsplit), Hlist.
  apply String.eqb_neq in Hfile. rewrite Hfile.
  destruct (lookup_name file es) as [[info|info addr]|]; reflexivity.
Qed.

Lemma serves_listing (srv : Server) (objId : string) (items : list Entry.t) :
  (forall k, objects_api srv k objId = listing_of items) -> serves srv objId items.
Proof.
  intros H k. exists (mkResponse 200 "application/json"), (FileResponse.mk "" items no_summary).
  rewrite H. repeat split; reflexivity.
Qed.

Lemma first_named_head (name : string) (item : Entry.t) (post : list Entry.t) :
  Entry.Name item = name -> first_named name (item :: post) item.
Proof. intros H. exists [], post. repeat split; [exact H|]. intros i Hi. inversion Hi. Qed.

Lemma first_named_skip (name : string) (i item : Entry.t) (items : list Entry.t) :
  Entry.Name i <> name -> first_named name items item -> first_named name (i :: items) item.
Proof.
  intros Hne (pre & post & -> & Hn & Hpre). exists (i :: pre), post.
  repeat split; [exact Hn|]. intros i' Hi'.
  apply elem_of_cons in Hi' as [->|Hi']; [exact Hne | apply Hpre; exact Hi'].
Qed.

(* ===================================================================== *)
(** ** Handles as [NewFs] makes them *)
(* ===================================================================== *)

(** The handle that [NewFs] leaves behind is a reachable one. *)
Lemma NewFs_reachable (srv : Server) (name root : string) (opt : Options.t) :
  reachable srv (snd (NewFs srv name root opt)).
Proof.
  unfold NewFs. set (w := fresh name (cleanPath root) opt).
  assert (reachable srv w) as Hw.
  { exists name, (cleanPath root), opt, []. reflexivity. }
  destruct (negb (String.eqb (cleanPath root) "")); [|exact Hw].
  pose proof (reachable_step srv (Op_newObject (cleanPath root)) w Hw) as H1.
  simpl in H1.
  destruct (newObject srv (cleanPath root) w) as [[[info|info addr]|e|] w1]; simpl in *;
    try exact H1.
  apply (reachable_step srv (OpSetRoot _) w1 H1).
Qed.

Lemma cache_fuel_root_listed n : forall remote w es,
  cache_fuel n remote w = Some es -> rootEntries (handle w) <> None.
Proof.
  induction n as [|n IH]; intros remote w es; simpl; [discriminate|].
  destruct (String.eqb remote ""); [congruence|].
  destruct (Split (cleanPath remote)) as [dir file].
  destruct (cache_fuel n (cleanPath dir) w) as [des|] eqn:Ed; [|discriminate].
  intros _. eapply IH; eauto.
Qed.

Section Unlisted.
Variable srv : Server.

Lemma list_fuel_root_first n : forall remote w,
root_first w -> root_first (snd (list_fuel srv n remote w)).
Proof.
induction n as [|n IH]; intros remote w Hw; [exact Hw|].
destruct (String.eqb (cleanPath remote) "") eqn:E.
- rewrite list_fuel_root by exact E.
  destruct (rootEntries (handle w)) as [es0|] eqn:Er; [exact Hw|].
  destruct (getRootId_cache srv w) as (H1 & H2 & _).
  destruct (getRootId srv w) as [[r|e|] w1]; simpl in *;
    try (intros _; rewrite H2; apply Hw; exact Er).
  destruct (listObject_cases srv "" r w1) as [(e & ->)|(es & free & ->)]; simpl.
  + intros _. simpl. rewrite H2. apply Hw. exact Er.
  + intros Hn. discriminate.
- rewrite list_fuel_below by exact E.
  specialize (IH (fst (Split (cleanPath (cleanPath remote)))) w Hw).
  destruct (list_fuel srv n _ w) as [[des|e|] w1] eqn:R; simpl in *; try exact IH.
  destruct (String.eqb (snd (Split _)) ""); [exact IH|].
  destruct (lookup_name _ des) as [[info|info addr]|]; try exact IH.
  destruct (store w1 !! addr) as [es0|] eqn:Es; [exact IH|].
  pose proof (cache_fuel_root_listed _ _ _ _ (list_fuel_fill srv _ _ _ _ _ R)) as Hr.
  destruct (listObject_cases srv (cleanPath remote) (ObjectInfo.id info) w1)
    as [(e & ->)|(es & free & ->)]; intros Hn; simpl in Hn; contradiction.
Qed.

Lemma step_root_first op w : root_first w -> root_first (step srv op w).
Proof.
intros Hw. destruct op; simpl; try exact Hw;
  try (apply list_fuel_root_first; exact Hw);
  try (destruct (Open_cache srv o w) as (H1 & H2 & _);
       unfold root_first; rewrite H1, H2; exact Hw).
- destruct (getRootId_cache srv w) as (H1 & H2 & _).
  unfold root_first. rewrite H1, H2. exact Hw.
- rewrite NewObject_world, newObject_world. apply list_fuel_root_first. exact Hw.
- rewrite newObject_world. apply list_fuel_root_first. exact Hw.
- destruct (0 <=? d); [|exact Hw].
  destruct (wait_fields d w) as (_ & _ & _ & _ & H1 & H2).
  unfold root_first. rewrite H1, H2. exact Hw.
Qed.

(** A reachable handle that has not listed its root has listed nothing. *)
Lemma reachable_unlisted w :
reachable srv w -> rootEntries (handle w) = None -> store w = ∅.
Proof.
intros (name & root & opt & ops & ->).
assert (forall ops w, root_first w -> root_first (run srv ops w)) as Hrun.
{ clear. induction ops as [|op ops IH]; intros w Hw; [exact Hw|].
  change (run srv (op :: ops) w) with (run srv ops (step srv op w)).
  apply IH. apply step_root_first. exact Hw. }
apply Hrun. intros _. reflexivity.
Qed.
End Unlisted.

(* ===================================================================== *)
(** ** [cleanPath] is idempotent *)
(* ===================================================================== *)

Lemma split_slash_nonempty s : split_slash s <> [].
Proof.
  destruct s as [|c s]; simpl; [discriminate|].
  destruct (Ascii.eqb c slash); [discriminate|].
  destruct (split_slash s); discriminate.
Qed.

Lemma split_slash_no_slash s : Forall (fun seg => no_slash seg = true) (split_slash s).
Proof.
  induction s as [|c s IH]; simpl.
  - repeat constructor.
  - destruct (Ascii.eqb c slash) eqn:Ec.
    + constructor; [reflexivity | exact IH].
    + destruct (split_slash s) as [|seg rest].
      * repeat constructor. simpl. rewrite Ec. reflexivity.
      * inversion IH as [|? ? Hseg Hrest]; subst. constructor; [|exact Hrest].
        simpl. rewrite Ec, Hseg. reflexivity.
Qed.

Lemma split_slash_plain seg : no_slash seg = true -> split_slash seg = [seg].
Proof.
  induction seg as [|c seg IH]; simpl; [reflexivity|].
  intros H. apply andb_true_iff in H as [Hc Hs]. apply negb_true_iff in Hc.
  rewrite Hc, (IH Hs). reflexivity.
Qed.

Lemma split_slash_app seg rest :
  no_slash seg = true ->
  split_slash (seg ++ String slash rest) = seg :: split_slash rest.
Proof.
  induction seg as [|c seg IH]; simpl; [reflexivity|].
  intros H. apply andb_true_iff in H as [Hc Hs]. apply negb_true_iff in Hc.
  rewrite Hc, (IH Hs). reflexivity.
Qed.

Lemma split_join segs :
  segs <> [] -> Forall (fun seg => no_slash seg = true) segs ->
  split_slash (join_slash segs) = segs.
Proof.
  induction segs as [|seg segs IH]; intros Hne Hall; [congruence|].
  inversion Hall as [|? ? Hseg Hrest]; subst.
  destruct segs as [|seg' segs].
  - simpl. apply split_slash_plain. exact Hseg.
  - change (join_slash (seg :: seg' :: segs))
      with (seg ++ String slash (join_slash (seg' :: segs))).
    rewrite split_slash_app by exact Hseg. rewrite IH; [reflexivity | discriminate | exact Hrest].
Qed.

Lemma normal_pushed rooted out seg : normal seg -> clean_step rooted out seg = seg :: out.
Proof.
  intros (H1 & H2 & H3 & _). unfold clean_step.
  apply String.eqb_neq in H1, H2, H3. rewrite H1, H2, H3. reflexivity.
Qed.

Lemma clean_step_shaped rooted out seg :
  shaped rooted out -> no_slash seg = true -> shaped rooted (clean_step rooted out seg).
Proof.
  intros (ns & ds & -> & Hns & Hds & Hr) Hseg. unfold clean_step.
  destruct (String.eqb seg "") eqn:E1; simpl; [exists ns, ds; auto|].
  destruct (String.eqb seg ".") eqn:E2; simpl; [exists ns, ds; auto|].
  destruct (String.eqb seg "..") eqn:E3.
  - apply String.eqb_eq in E3. subst seg.
    destruct ns as [|n ns]; simpl.
    + destruct ds as [|d ds].
      * destruct rooted; [exists [], []; auto|].
        exists [], [".."]. repeat split; auto. discriminate.
      * inversion Hds as [|? ? Hd Hds']; subst.
        rewrite String.eqb_refl. destruct rooted; [exists [], (".." :: ds); auto|].
        exists [], (".." :: ".." :: ds). repeat split; auto. discriminate.
    + inversion Hns as [|? ? Hn Hns']; subst.
      destruct Hn as (_ & _ & Hn & _). apply String.eqb_neq in Hn. rewrite Hn.
      exists ns, ds. auto.
  - apply String.eqb_neq in E1, E2, E3.
    exists (seg :: ns), ds. split; [reflexivity|]. split; [|auto].
    constructor; [|exact Hns]. repeat split; assumption.
Qed.

Lemma clean_fold_shaped rooted segs : forall out,
  shaped rooted out -> Forall (fun seg => no_slash seg = true) segs ->
  shaped rooted (fold_left (clean_step rooted) segs out).
Proof.
  induction segs as [|seg segs IH]; intros out Hout Hall; [exact Hout|].
  inversion Hall as [|? ? Hseg Hrest]; subst. simpl.
  apply IH; [apply clean_step_shaped; assumption | exact Hrest].
Qed.

Lemma fold_dotdots ds : forall acc,
  Forall (eq "..") ds -> Forall (eq "..") acc ->
  fold_left (clean_step false) ds acc = (rev ds ++ acc)%list.
Proof.
  induction ds as [|d ds IH]; intros acc Hds Hacc; [reflexivity|].
  inversion Hds as [|? ? Hd Hds']; subst. simpl.
  assert (clean_step false acc ".." = ".." :: acc) as ->.
  { unfold clean_step. simpl. destruct acc as [|a acc]; [reflexivity|].
    inversion Hacc; subst. reflexivity. }
  rewrite IH by (auto; constructor; auto). rewrite <- app_assoc. reflexivity.
Qed.

Lemma fold_normals ns : forall acc,
  Forall normal ns -> fold_left (clean_step false) ns acc = (rev ns ++ acc)%list.
Proof.
  induction ns as [|n ns IH]; intros acc Hns; [reflexivity|].
  inversion Hns as [|? ? Hn Hns']; subst. simpl.
  rewrite (normal_pushed false acc n Hn), IH by exact Hns'.
  rewrite <- app_assoc. reflexivity.
Qed.

(** Cleaning what is clean changes nothing. *)
Lemma refold out :
  shaped false out -> fold_left (clean_step false) (rev out) [] = out.
Proof.
  intros (ns & ds & -> & Hns & Hds & _).
  rewrite rev_app_distr, fold_left_app.
  rewrite (fold_dotdots (rev ds) []); [|apply Forall_rev; exact Hds | constructor].
  rewrite (fold_normals (rev ns)) by (apply Forall_rev; exact Hns).
  rewrite !rev_involutive, app_nil_r. reflexivity.
Qed.

Lemma plain_element seg : normal seg \/ ".." = seg -> seg <> "" /\ no_slash seg = true.
Proof.
  intros [(H1 & _ & _ & H4)|<-]; [auto | split; [discriminate | reflexivity]].
Qed.

Lemma shaped_plain rooted out :
  shaped rooted out -> Forall (fun seg => seg <> "" /\ no_slash seg = true) out.
Proof.
  intros (ns & ds & -> & Hns & Hds & _). apply Forall_app. split.
  - eapply Forall_impl; [exact Hns|]. intros seg H. apply plain_element. left. exact H.
  - eapply Forall_impl; [exact Hds|]. intros seg H. apply plain_element. right. exact H.
Qed.

Lemma trimLeft_id s : trimLeft s = s \/ exists s', s = String slash s'.
Proof.
  destruct s as [|c s]; simpl; [auto|].
  destruct (Ascii.eqb c slash) eqn:E; [|auto].
  apply Ascii.eqb_eq in E. subst. eauto.
Qed.

Lemma trimRight_id s : ends_slash s = false -> trimRight s = s.
Proof.
  induction s as [|c s IH]; simpl; [reflexivity|].
  destruct s as [|c' s].
  - intros ->. reflexivity.
  - intros H. rewrite (IH H). reflexivity.
Qed.

Lemma ends_slash_app a b : b <> "" -> ends_slash (a ++ b) = ends_slash b.
Proof.
  intros Hb. induction a as [|c a IH]; simpl; [reflexivity|].
  destruct (a ++ b) as [|c' t] eqn:E; [|exact IH].
  exfalso. destruct a; simpl in E; [apply Hb; exact E | discriminate].
Qed.

Lemma no_slash_ends seg : seg <> "" -> no_slash seg = true -> ends_slash seg = false.
Proof.
  induction seg as [|c seg IH]; [congruence|]. intros _ H. simpl in H.
  apply andb_true_iff in H as [Hc Hs]. apply negb_true_iff in Hc.
  destruct seg as [|c' seg]; [exact Hc|]. apply IH; [discriminate | exact Hs].
Qed.

(** A path joined from elements that are not empty and hold no slash
    neither begins nor ends with a slash. *)
Lemma join_plain segs :
  segs <> [] -> Forall (fun seg => seg <> "" /\ no_slash seg = true) segs ->
  join_slash segs <> ""
  /\ (forall s', join_slash segs <> String slash s')
  /\ ends_slash (join_slash segs) = false.
Proof.
  induction segs as [|seg segs IH]; intros Hne Hall; [congruence|].
  inversion Hall as [|? ? (Hseg1 & Hseg2) Hrest]; subst.
  assert (forall t s', seg ++ t <> String slash s') as Hhead.
  { intros t s' E. destruct seg as [|c seg]; [congruence|]. simpl in E, Hseg2.
    injection E as -> _. simpl in Hseg2. discriminate. }
  destruct segs as [|seg' segs].
  - simpl. split; [exact Hseg1|]. split.
    + intros s' E. subst seg. simpl in Hseg2. discriminate.
    + apply no_slash_ends; assumption.
  - change (join_slash (seg :: seg' :: segs))
      with (seg ++ String slash (join_slash (seg' :: segs))).
    destruct (IH ltac:(discriminate) Hrest) as (H1 & H2 & H3).
    split; [|split].
    + destruct seg; [congruence | discriminate].
    + apply Hhead.
    + rewrite ends_slash_app by discriminate.
      destruct (join_slash (seg' :: segs)) as [|c t] eqn:E; [congruence|]. exact H3.
Qed.

Lemma Trim_plain segs :
  segs <> [] -> Forall (fun seg => seg <> "" /\ no_slash seg = true) segs ->
  Trim (join_slash segs) = join_slash segs.
Proof.
  intros Hne Hall. destruct (join_plain segs Hne Hall) as (_ & H2 & H3).
  unfold Trim. destruct (trimLeft_id (join_slash segs)) as [->|(s' & E)].
  - apply trimRight_id. exact H3.
  - exfalso. eapply H2. exact E.
Qed.

Lemma shaped_nil rooted : shaped rooted [].
Proof. exists [], []. repeat split; auto. Qed.

Lemma Clean_rooted s' :
  Clean (String slash s')
  = String slash (join_slash (rev (fold_left (clean_step true) (split_slash s') []))).
Proof. reflexivity. Qed.

Lemma Clean_unrooted p :
  p <> "" -> (forall s', p <> String slash s') ->
  Clean p
  = if String.eqb (join_slash (rev (fold_left (clean_step false) (split_slash p) []))) ""
    then "." else join_slash (rev (fold_left (clean_step false) (split_slash p) [])).
Proof.
  intros Hne Hhead. destruct p as [|c p]; [congruence|]. unfold Clean.
  destruct (Ascii.eqb c slash) eqn:Ec; [|reflexivity].
  apply Ascii.eqb_eq in Ec. subst c. exfalso. apply (Hhead p). reflexivity.
Qed.

Lemma Forall_rev_inv {A} (P : A -> Prop) (l : list A) : Forall P (rev l) -> Forall P l.
Proof. intros H. rewrite <- (rev_involutive l). apply Forall_rev. exact H. Qed.

(** A tidy path is a fixed point of [cleanPath]. *)
Lemma cleanPath_tidy s : tidy s -> cleanPath s = s.
Proof.
  intros (segs & -> & [->|(Hne & Hshape)]); [reflexivity|].
  pose proof (Forall_rev_inv _ _ (shaped_plain false (rev segs) Hshape)) as Hplain.
  destruct (join_plain segs Hne Hplain) as (H1 & H2 & H3).
  unfold cleanPath. apply String.eqb_neq in H1. rewrite H1. simpl negb. cbv iota.
  apply String.eqb_neq in H1.
  rewrite (Clean_unrooted _ H1 H2).
  rewrite split_join; [|exact Hne|].
  - assert (fold_left (clean_step false) segs [] = rev segs) as ->.
    { rewrite <- (rev_involutive segs) at 1. apply refold. exact Hshape. }
    rewrite rev_involutive.
    apply String.eqb_neq in H1. rewrite H1. apply Trim_plain; assumption.
  - eapply Forall_impl; [exact Hplain|]. intros seg (_ & H). exact H.
Qed.

Lemma rev_nonempty {A} (l : list A) : l <> [] -> rev l <> [].
Proof.
  intros H E. apply H. rewrite <- (rev_involutive l), E. reflexivity.
Qed.

(** What [cleanPath] returns is the empty path or a tidy one. *)
Lemma cleanPath_is_tidy p : cleanPath p = "" \/ tidy (cleanPath p).
Proof.
  unfold cleanPath. destruct (String.eqb p "") eqn:E; simpl.
  { left. apply String.eqb_eq in E. exact E. }
  apply String.eqb_neq in E.
  destruct p as [|c p]; [congruence|].
  destruct (Ascii.eqb c slash) eqn:Ec.
  - apply Ascii.eqb_eq in Ec. subst c. rewrite Clean_rooted.
    pose proof (clean_fold_shaped true (split_slash p) [] (shaped_nil true)
                  (split_slash_no_slash p)) as Hshape.
    set (out := fold_left (clean_step true) (split_slash p) []) in *.
    destruct out as [|o out'] eqn:Eo; [left; reflexivity|]. rewrite <- Eo in *.
    assert (out <> []) as Hne by (rewrite Eo; discriminate).
    pose proof (Forall_rev (shaped_plain true out Hshape)) as Hplain.
    destruct (join_plain (rev out) (rev_nonempty _ Hne) Hplain) as (H1 & H2 & H3).
    assert (Trim (String slash (join_slash (rev out))) = join_slash (rev out)) as ->.
    { unfold Trim. simpl trimLeft.
      destruct (trimLeft_id (join_slash (rev out))) as [->|(s' & E')];
        [apply trimRight_id; exact H3 | exfalso; eapply H2; exact E']. }
    right. exists (rev out). split; [reflexivity|]. right.
    split; [apply rev_nonempty; exact Hne|]. rewrite rev_involutive.
    destruct Hshape as (ns & ds & Hout & Hns & Hds & Hr).
    rewrite (Hr eq_refl) in *. exists ns, []. repeat split; auto.
  - assert (forall s', String c p <> String slash s') as Hhead.
    { intros s' E'. injection E' as -> _. simpl in Ec. discriminate. }
    rewrite (Clean_unrooted _ E Hhead).
    pose proof (clean_fold_shaped false (split_slash (String c p)) [] (shaped_nil false)
                  (split_slash_no_slash (String c p))) as Hshape.
    set (out := fold_left (clean_step false) (split_slash (String c p)) []) in *.
    destruct out as [|o out'] eqn:Eo.
    { right. exists ["."]. split; [reflexivity | left; reflexivity]. }
    rewrite <- Eo in *.
    assert (out <> []) as Hne by (rewrite Eo; discriminate).
    pose proof (Forall_rev (shaped_plain false out Hshape)) as Hplain.
    destruct (join_plain (rev out) (rev_nonempty _ Hne) Hplain) as (H1 & H2 & H3).
    apply String.eqb_neq in H1. rewrite H1.
    rewrite (Trim_plain (rev out) (rev_nonempty _ Hne) Hplain).
    right. exists (rev out). split; [reflexivity|]. right.
    split; [apply rev_nonempty; exact Hne|]. rewrite rev_involutive. exact Hshape.
Qed.

(** [cleanPath] is idempotent: a path that [list] has normalized is
    normalized. *)
Lemma cleanPath_idempotent p : cleanPath (cleanPath p) = cleanPath p.
Proof.
  destruct (cleanPath_is_tidy p) as [->|H]; [reflexivity | apply cleanPath_tidy; exact H].
Qed.

(* ===================================================================== *)
(** ** A normalized path and its parent *)
(* ===================================================================== *)

Lemma Split_plain seg : no_slash seg = true -> Split seg = ("", seg).
Proof.
  induction seg as [|c seg IH]; simpl; [reflexivity|].
  intros H. apply andb_true_iff in H as [Hc Hs]. apply negb_true_iff in Hc.
  rewrite (IH Hs). simpl. rewrite Hc. reflexivity.
Qed.

Lemma Split_app_slash a rest :
  Split (a ++ String slash rest)
  = (a ++ String slash (fst (Split rest)), snd (Split rest)).
Proof.
  induction a as [|c a IH]; simpl.
  - destruct (Split rest) as [d f]. simpl.
    destruct (String.eqb d "") eqn:E; simpl; [|reflexivity].
    apply String.eqb_eq in E. subst d. reflexivity.
  - rewrite IH. simpl.
    assert (String.eqb (a ++ String slash (fst (Split rest))) "" = false) as ->
      by (destruct a; reflexivity).
    reflexivity.
Qed.

Lemma app_slash_assoc a x y :
  a ++ String slash (x ++ y) = (a ++ String slash x) ++ y.
Proof.
  induction a as [|c a IH]; [reflexivity|].
  change (String c (a ++ String slash (x ++ y)) = String c ((a ++ String slash x) ++ y)).
  rewrite IH. reflexivity.
Qed.

(** The parent part of a joined path. *)
Lemma Split_join pre last_ :
  no_slash last_ = true ->
  Split (join_slash (pre ++ [last_])%list)
  = (match pre with [] => "" | _ => join_slash pre ++ String slash "" end, last_).
Proof.
  intros Hl. induction pre as [|seg pre IH]; simpl.
  - apply Split_plain. exact Hl.
  - destruct (pre ++ [last_])%list as [|x xs] eqn:E; [destruct pre; discriminate|].
    rewrite Split_app_slash, IH. simpl.
    destruct pre as [|seg' pre]; simpl; [reflexivity|].
    rewrite app_slash_assoc. reflexivity.
Qed.

Lemma split_slash_trailing s : split_slash (s ++ String slash "") = (split_slash s ++ [""])%list.
Proof.
  induction s as [|c s IH]; simpl; [reflexivity|].
  destruct (Ascii.eqb c slash); [rewrite IH; reflexivity|].
  rewrite IH. destruct (split_slash s) as [|seg rest] eqn:E; [|reflexivity].
  exfalso. eapply split_slash_nonempty. exact E.
Qed.

Lemma clean_skip rooted out : clean_step rooted out "" = out.
Proof. reflexivity. Qed.

(** A trailing slash on a tidy path is cleaned away. *)
Lemma cleanPath_trailing s : tidy s -> cleanPath (s ++ String slash "") = s.
Proof.
  intros Ht. pose proof (cleanPath_tidy s Ht) as Hfix.
  destruct Ht as (segs & -> & [->|(Hne & Hshape)]); [reflexivity|].
  pose proof (Forall_rev_inv _ _ (shaped_plain false (rev segs) Hshape)) as Hplain.
  destruct (join_plain segs Hne Hplain) as (H1 & H2 & H3).
  set (s := join_slash segs) in *.
  assert (s ++ String slash "" <> "") as Hne' by (destruct s; discriminate).
  assert (forall s', s ++ String slash "" <> String slash s') as Hhead.
  { intros s' E. destruct s as [|c t]; [congruence|]. simpl in E. injection E as -> _.
    apply (H2 t). reflexivity. }
  unfold cleanPath. apply String.eqb_neq in Hne'. rewrite Hne'. simpl negb. cbv iota.
  apply String.eqb_neq in Hne'. rewrite (Clean_unrooted _ Hne' Hhead).
  rewrite split_slash_trailing, fold_left_app. simpl fold_left. rewrite clean_skip.
  unfold s. rewrite split_join; [|exact Hne|].
  - assert (fold_left (clean_step false) segs [] = rev segs) as ->.
    { rewrite <- (rev_involutive segs) at 1. apply refold. exact Hshape. }
    rewrite rev_involutive. fold s.
    apply String.eqb_neq in H1. rewrite H1. apply Trim_plain; assumption.
  - eapply Forall_impl; [exact Hplain|]. intros seg (_ & H). exact H.
Qed.

Lemma tidy_nonempty s : tidy s -> s <> "".
Proof.
  intros (segs & -> & [->|(Hne & Hshape)]); [discriminate|].
  pose proof (Forall_rev_inv _ _ (shaped_plain false (rev segs) Hshape)) as Hplain.
  apply (join_plain segs Hne Hplain).
Qed.

Lemma shaped_tail x out : shaped false (x :: out) -> shaped false out.
Proof.
  intros (ns & ds & E & Hns & Hds & _). destruct ns as [|n ns]; simpl in E.
  - destruct ds as [|d ds]; [discriminate|]. injection E as _ ->.
    inversion Hds; subst. exists [], ds. split; [reflexivity|]. split; [constructor|].
    split; [assumption | discriminate].
  - injection E as _ ->. inversion Hns; subst. exists ns, ds.
    split; [reflexivity|]. split; [assumption|]. split; [assumption | discriminate].
Qed.

(** The parent part of a tidy path is empty, or a tidy path followed by a
    slash. *)
Lemma tidy_parent s :
  tidy s ->
  fst (Split s) = "" \/ exists q, tidy q /\ fst (Split s) = q ++ String slash "".
Proof.
  intros (segs & -> & [->|(Hne & Hshape)]); [left; reflexivity|].
  pose proof (Forall_rev_inv _ _ (shaped_plain false (rev segs) Hshape)) as Hplain.
  destruct (rev segs) as [|l rpre] eqn:Er; [exfalso; apply (rev_nonempty _ Hne); exact Er|].
  assert (segs = (rev rpre ++ [l])%list) as Hsegs.
  { rewrite <- (rev_involutive segs), Er. reflexivity. }
  assert (no_slash l = true) as Hl.
  { rewrite Hsegs in Hplain. apply Forall_app in Hplain as [_ H].
    inversion H as [|? ? (_ & H') _]; subst. exact H'. }
  rewrite Hsegs, (Split_join (rev rpre) l Hl). simpl.
  destruct (rev rpre) as [|x xs] eqn:Ep; [left; reflexivity|].
  right. exists (join_slash (x :: xs)). split; [|reflexivity].
  exists (x :: xs). split; [reflexivity|]. right. split; [discriminate|].
  rewrite <- Ep, rev_involutive. eapply shaped_tail. exact Hshape.
Qed.

Lemma Split_concat s : s = fst (Split s) ++ snd (Split s).
Proof.
  induction s as [|c s IH]; simpl; [reflexivity|].
  destruct (Split s) as [d f]. simpl in IH.
  destruct (String.eqb d "") eqn:E; simpl.
  - apply String.eqb_eq in E. subst d. simpl in IH. subst s.
    destruct (Ascii.eqb c slash); reflexivity.
  - rewrite IH at 1. reflexivity.
Qed.

(** A normalized path is determined by its normalized parent and its last
    element. *)
Lemma clean_key_unique q r :
  cleanPath q = q -> cleanPath r = r -> q <> "" -> r <> "" ->
  snd (Split q) = snd (Split r) ->
  cleanPath (fst (Split q)) = cleanPath (fst (Split r)) ->
  q = r.
Proof.
  intros Hq Hr Hqne Hrne Hfile Hparent.
  assert (tidy q) as Tq by (destruct (cleanPath_is_tidy q) as [E|T]; congruence).
  assert (tidy r) as Tr by (destruct (cleanPath_is_tidy r) as [E|T]; congruence).
  rewrite (Split_concat q), (Split_concat r), Hfile. f_equal.
  destruct (tidy_parent q Tq) as [Eq|(q0 & Tq0 & Eq)];
    destruct (tidy_parent r Tr) as [Er|(r0 & Tr0 & Er)]; rewrite Eq, Er in *.
  - reflexivity.
  - rewrite (cleanPath_trailing r0 Tr0) in Hparent. simpl in Hparent.
    exfalso. apply (tidy_nonempty r0 Tr0). symmetry. exact Hparent.
  - rewrite (cleanPath_trailing q0 Tq0) in Hparent. simpl in Hparent.
    exfalso. apply (tidy_nonempty q0 Tq0). exact Hparent.
  - rewrite (cleanPath_trailing q0 Tq0), (cleanPath_trailing r0 Tr0) in Hparent.
    subst. reflexivity.
Qed.

(* ===================================================================== *)
(** ** Addresses *)
(* ===================================================================== *)

Lemma lookup_name_Some file es e :
  lookup_name file es = Some e -> e ∈ es /\ Name e = file.
Proof.
  induction es as [|x es IH]; simpl; [discriminate|].
  destruct (String.eqb (Name x) file) eqn:E.
  - intros H. injection H as <-. split; [apply list_elem_of_here|].
    apply String.eqb_eq. exact E.
  - intros H. destruct (IH H) as (H1 & H2). split; [apply list_elem_of_further; exact H1|].
    exact H2.
Qed.

(** The directories of a listing are allocated between the allocator
    before and the allocator after, each at its own address. *)
Lemma entries_of_addr remote items : forall free info addr,
  Directory info addr ∈ fst (entries_of remote items free) ->
  (free <= addr < snd (entries_of remote items free))%nat.
Proof.
  induction items as [|item items IH]; intros free info addr; simpl.
  - intros H. inversion H.
  - pose proof (entry_of_next remote item free) as Hn.
    destruct (entry_of remote item free) as [e free1] eqn:Ee.
    specialize (IH free1 info addr).
    pose proof (entries_of_next remote items free1) as Hn'.
    destruct (entries_of remote items free1) as [es free2]. simpl in *.
    intros H. apply elem_of_cons in H as [H|H].
    + subst e. unfold entry_of in Ee.
      destruct (String.eqb (Entry.Type_ item) "d"); [|discriminate].
      injection Ee as _ <- <-. lia.
    + specialize (IH H). lia.
Qed.

Lemma entries_of_addr_unique remote items : forall free i1 i2 addr,
  Directory i1 addr ∈ fst (entries_of remote items free) ->
  Directory i2 addr ∈ fst (entries_of remote items free) ->
  i1 = i2.
Proof.
  induction items as [|item items IH]; intros free i1 i2 addr; simpl.
  - intros H. inversion H.
  - pose proof (entries_of_addr remote items) as Hrest.
    pose proof (entry_of_next remote item free) as Hn.
    destruct (entry_of remote item free) as [e free1] eqn:Ee.
    specialize (IH free1 i1 i2 addr). specialize (Hrest free1).
    destruct (entries_of remote items free1) as [es free2]. simpl in *.
    intros H1 H2.
    assert (forall i, Directory i addr = e -> (addr = free /\ free1 = S free)%nat) as Hhead.
    { intros i <-. unfold entry_of in Ee.
      destruct (String.eqb (Entry.Type_ item) "d"); [|discriminate].
      injection Ee as _ <- <-. auto. }
    apply elem_of_cons in H1 as [H1|H1]; apply elem_of_cons in H2 as [H2|H2].
    + congruence.
    + destruct (Hhead _ H1) as (-> & ->). specialize (Hrest _ _ H2). lia.
    + destruct (Hhead _ H2) as (-> & ->). specialize (Hrest _ _ H1). lia.
    + auto.
Qed.

Lemma lookup_entries_addr remote items free file info addr :
  lookup_name file (fst (entries_of remote items free)) = Some (Directory info addr) ->
  (free <= addr < snd (entries_of remote items free))%nat.
Proof.
  intros H. apply lookup_name_Some in H as (H & _). eapply entries_of_addr; eauto.
Qed.

Lemma lookup_entries_same remote items free f1 f2 i1 i2 addr :
  lookup_name f1 (fst (entries_of remote items free)) = Some (Directory i1 addr) ->
  lookup_name f2 (fst (entries_of remote items free)) = Some (Directory i2 addr) ->
  f1 = f2.
Proof.
  intros H1 H2. apply lookup_name_Some in H1 as (H1 & <-), H2 as (H2 & <-).
  rewrite (entries_of_addr_unique _ _ _ _ _ _ H1 H2). reflexivity.
Qed.

(* ===================================================================== *)
(** ** Walks *)
(* ===================================================================== *)

Lemma parent_key_fixed q : cleanPath (parent_key q) = parent_key q.
Proof. apply cleanPath_idempotent. Qed.

Lemma parent_key_shorter q :
  q <> "" -> (String.length (parent_key q) < String.length q)%nat.
Proof.
  intros H. unfold parent_key. pose proof (dir_shorter1 q H).
  pose proof (cleanPath_length (fst (Split (cleanPath q)))). lia.
Qed.

(** The cache below the root, by the walk. *)
Lemma cache_reaches w q es :
  q <> "" -> cleanPath q = q ->
  cache w q = Some es <->
  exists info addr, reaches w q info addr /\ store w !! addr = Some es.
Proof.
  intros Hne Hfix. rewrite (cache_unfold w q Hne).
  fold (parent_key q). fold (last_name q). unfold reaches. split.
  - destruct (cache w (parent_key q)) as [parent|] eqn:Ep; [|discriminate].
    destruct (String.eqb (last_name q) "") eqn:Ef; [discriminate|].
    destruct (lookup_name (last_name q) parent) as [[info|info addr]|] eqn:El;
      try discriminate.
    intros H. exists info, addr. split; [|exact H].
    apply String.eqb_neq in Ef. repeat split; auto. exists parent. auto.
  - intros (info & addr & (_ & _ & Hf & parent & Hp & Hl) & Hs).
    rewrite Hp. apply String.eqb_neq in Hf. rewrite Hf, Hl. exact Hs.
Qed.

Lemma reaches_unique_key q1 q2 :
  q1 <> "" -> cleanPath q1 = q1 -> q2 <> "" -> cleanPath q2 = q2 ->
  parent_key q1 = parent_key q2 -> last_name q1 = last_name q2 -> q1 = q2.
Proof.
  intros H1 F1 H2 F2 Hp Hl. unfold parent_key, last_name in *. rewrite F1, F2 in *.
  apply clean_key_unique; assumption.
Qed.

Lemma cache_fuel_same_tree n : forall q w w',
  store w' = store w -> rootEntries (handle w') = rootEntries (handle w) ->
  cache_fuel n q w' = cache_fuel n q w.
Proof.
  induction n as [|n IH]; intros q w w' Hs Hr; simpl; [reflexivity|].
  rewrite Hr. destruct (String.eqb q ""); [reflexivity|].
  destruct (Split (cleanPath q)) as [dir file].
  rewrite (IH _ w w' Hs Hr), Hs. reflexivity.
Qed.

Lemma cache_same_tree w w' q :
  store w' = store w -> rootEntries (handle w') = rootEntries (handle w) ->
  cache w' q = cache w q.
Proof. apply cache_fuel_same_tree. Qed.

Lemma reaches_same_tree w w' q info addr :
  store w' = store w -> rootEntries (handle w') = rootEntries (handle w) ->
  reaches w' q info addr <-> reaches w q info addr.
Proof.
  intros Hs Hr. unfold reaches. rewrite (cache_same_tree w w' _ Hs Hr). reflexivity.
Qed.

Lemma alloc_ok_same w w' :
  store w' = store w -> next w' = next w ->
  rootEntries (handle w') = rootEntries (handle w) ->
  alloc_ok w -> alloc_ok w'.
Proof.
  intros Hs Hn Hr (H1 & H2 & H3). unfold alloc_ok. rewrite Hs, Hn.
  split; [exact H1|]. split.
  - intros q info addr H. apply (reaches_same_tree w w' _ _ _ Hs Hr) in H. eauto.
  - intros q1 q2 i1 i2 addr Ha Hb.
    apply (reaches_same_tree w w' _ _ _ Hs Hr) in Ha, Hb. eauto.
Qed.

Lemma unlisted_cache w q : rootEntries (handle w) = None -> cache w q = None.
Proof.
  intros H. destruct (cache w q) as [es|] eqn:E; [|reflexivity].
  apply cache_fuel_root_listed in E. contradiction.
Qed.

Lemma unlisted_reaches w q info addr :
  rootEntries (handle w) = None -> ~ reaches w q info addr.
Proof.
  intros H (_ & _ & _ & parent & Hp & _). rewrite unlisted_cache in Hp by exact H.
  discriminate.
Qed.

(** The cache after the listing of the root was stored holds that listing
    and nothing else. *)
Lemma cache_root_filled w objId items :
  alloc_ok w -> rootEntries (handle w) = None ->
  forall q es, cleanPath q = q ->
    cache (root_filled w objId items) q = Some es ->
    q = "" /\ es = fst (entries_of "" items (next w)).
Proof.
  intros (H1 & _) Hr q.
  remember (String.length q) as n eqn:Hn. revert q Hn.
  induction n as [n IH] using lt_wf_ind. intros q Hn es Hfix Hc.
  destruct (String.eqb q "") eqn:E.
  - apply String.eqb_eq in E. subst q. rewrite cache_root in Hc. simpl in Hc.
    injection Hc as <-. auto.
  - apply String.eqb_neq in E. exfalso.
    apply cache_reaches in Hc as (info & addr & (_ & _ & _ & parent & Hp & Hl) & Hs);
      [|exact E|exact Hfix].
    pose proof (parent_key_shorter q E) as Hlt.
    destruct (IH (String.length (parent_key q)) ltac:(lia) (parent_key q) eq_refl parent (parent_key_fixed q) Hp)
      as (_ & ->).
    apply lookup_entries_addr in Hl. simpl in Hs. apply H1 in Hs. lia.
Qed.

(** The cache after the listing of the directory that the walk of [r]
    reaches was stored holds what it held, and that listing for [r]. *)
Lemma cache_node_filled w r info addr objId items :
  alloc_ok w -> reaches w r info addr -> store w !! addr = None ->
  forall q es, cleanPath q = q ->
    cache (node_filled w r addr objId items) q = Some es ->
    cache w q = Some es \/ (q = r /\ es = fst (entries_of r items (next w))).
Proof.
  intros (H1 & H2 & H3) Hreach Hnone q.
  remember (String.length q) as n eqn:Hn. revert q Hn.
  induction n as [n IH] using lt_wf_ind. intros q Hn es Hfix Hc.
  destruct (String.eqb q "") eqn:E.
  - apply String.eqb_eq in E. subst q. rewrite cache_root in Hc. simpl in Hc.
    left. rewrite cache_root. exact Hc.
  - apply String.eqb_neq in E.
    apply cache_reaches in Hc as (i & a & (_ & _ & Hf & parent & Hp & Hl) & Hs);
      [|exact E|exact Hfix].
    pose proof (parent_key_shorter q E) as Hlt.
    simpl in Hs.
    destruct (IH (String.length (parent_key q)) ltac:(lia) (parent_key q) eq_refl parent (parent_key_fixed q) Hp)
      as [Hold|(Hk & ->)].
    + assert (reaches w q i a) as Hq.
      { repeat split; auto. exists parent. auto. }
      destruct (decide (a = addr)) as [->|Hne].
      * rewrite lookup_insert_eq in Hs. injection Hs as <-.
        right. split; [|reflexivity]. eapply H3; eauto.
      * rewrite lookup_insert_ne in Hs by congruence.
        left. apply cache_reaches; [exact E|exact Hfix|]. eauto.
    + exfalso. apply lookup_entries_addr in Hl.
      destruct (decide (a = addr)) as [->|Hne].
      * apply H2 in Hreach. lia.
      * rewrite lookup_insert_ne in Hs by congruence. apply H1 in Hs. lia.
Qed.

Lemma reaches_root_filled w objId items q info addr :
  alloc_ok w -> rootEntries (handle w) = None ->
  reaches (root_filled w objId items) q info addr ->
  parent_key q = ""
  /\ lookup_name (last_name q) (fst (entries_of "" items (next w)))
     = Some (Directory info addr).
Proof.
  intros Ha Hr (_ & _ & _ & parent & Hp & Hl).
  destruct (cache_root_filled w objId items Ha Hr _ _ (parent_key_fixed q) Hp) as (-> & ->).
  auto.
Qed.

Lemma reaches_node_filled w r info addr objId items q i a :
  alloc_ok w -> reaches w r info addr -> store w !! addr = None ->
  reaches (node_filled w r addr objId items) q i a ->
  reaches w q i a
  \/ (parent_key q = r
      /\ lookup_name (last_name q) (fst (entries_of r items (next w)))
         = Some (Directory i a)).
Proof.
  intros Ha Hreach Hnone (Hq & Hfix & Hf & parent & Hp & Hl).
  destruct (cache_node_filled w r info addr objId items Ha Hreach Hnone _ _
              (parent_key_fixed q) Hp) as [Hold|(-> & ->)].
  - left. repeat split; auto. exists parent. auto.
  - right. auto.
Qed.

(** Storing the listing of the root keeps the allocator ahead. *)
Lemma alloc_ok_root_filled w objId items :
  alloc_ok w -> rootEntries (handle w) = None -> alloc_ok (root_filled w objId items).
Proof.
  intros Ha Hr. pose proof Ha as (H1 & H2 & H3).
  pose proof (entries_of_next "" items (next w)) as Hnext.
  split; [|split].
  - intros addr es Hs. simpl in *. apply H1 in Hs. lia.
  - intros q info addr H.
    apply (reaches_root_filled _ _ _ _ _ _ Ha Hr) in H as (_ & H).
    apply lookup_entries_addr in H. simpl. lia.
  - intros q1 q2 i1 i2 addr Hq1 Hq2.
    pose proof Hq1 as (N1 & F1 & _). pose proof Hq2 as (N2 & F2 & _).
    apply (reaches_root_filled _ _ _ _ _ _ Ha Hr) in Hq1 as (P1 & L1).
    apply (reaches_root_filled _ _ _ _ _ _ Ha Hr) in Hq2 as (P2 & L2).
    apply reaches_unique_key; auto; [congruence|].
    eapply lookup_entries_same; eauto.
Qed.

(** Storing the listing of a directory that a walk reaches keeps the
    allocator ahead. *)
Lemma alloc_ok_node_filled w r info addr objId items :
  alloc_ok w -> reaches w r info addr -> store w !! addr = None ->
  alloc_ok (node_filled w r addr objId items).
Proof.
  intros Ha Hreach Hnone. pose proof Ha as (H1 & H2 & H3).
  pose proof (entries_of_next r items (next w)) as Hnext.
  pose proof (H2 _ _ _ Hreach) as Haddr.
  split; [|split].
  - intros a es Hs. simpl in *.
    destruct (decide (a = addr)) as [->|Hne]; [lia|].
    rewrite lookup_insert_ne in Hs by congruence. apply H1 in Hs. lia.
  - intros q i a H.
    apply (reaches_node_filled _ _ _ _ _ _ _ _ _ Ha Hreach Hnone) in H as [H|(_ & H)].
    + apply H2 in H. simpl. lia.
    + apply lookup_entries_addr in H. simpl. lia.
  - intros q1 q2 i1 i2 a Hq1 Hq2.
    pose proof Hq1 as (N1 & F1 & _). pose proof Hq2 as (N2 & F2 & _).
    apply (reaches_node_filled _ _ _ _ _ _ _ _ _ Ha Hreach Hnone) in Hq1 as [Hq1|(P1 & L1)];
      apply (reaches_node_filled _ _ _ _ _ _ _ _ _ Ha Hreach Hnone) in Hq2 as [Hq2|(P2 & L2)].
    + eauto.
    + apply H2 in Hq1. apply lookup_entries_addr in L2. lia.
    + apply H2 in Hq2. apply lookup_entries_addr in L1. lia.
    + apply reaches_unique_key; auto; [congruence|].
      eapply lookup_entries_same; eauto.
Qed.

(* ===================================================================== *)
(** ** Invariants of the tree of listings *)
(* ===================================================================== *)

Section Invariant.
Variable srv : Server.

(** What [listObject] returns and leaves, by the answer of the remote. *)
Lemma listObject_answer remote objId w :
  (exists e, listObject srv remote objId w = (Err e, log_objectCall remote objId false w))
  \/ (exists items,
        answered srv w objId items
        /\ listObject srv remote objId w
           = (Ok (fst (entries_of remote items (next w))),
              set_next (snd (entries_of remote items (next w)))
                (log_objectCall remote objId true w))).
Proof.
  unfold listObject, answered.
  destruct (objects_api _ _ _) as [e|[resp result]] eqn:Ea; [eauto|].
  destruct (match resp with None => true | Some r => _ end); [eauto|].
  right. exists (FileResponse.Entries result). split; [eauto|].
  destruct (entries_of _ _ _) as [es free]. reflexivity.
Qed.

Lemma getRootId_next w : next (snd (getRootId srv w)) = next w.
Proof.
  rewrite getRootId_world. unfold Once_Do. destruct (initOnce (handle w)); [auto|].
  unfold resolve. destruct (snapshots_api _ _ _ _ _) as [e|result]; simpl; [auto|].
  destruct (scan _ _) as [[i s]|]; simpl;
    destruct (String.eqb _ ""); simpl; auto.
Qed.

Variable I : World -> Prop.
Hypothesis I_getRootId : forall w, I w -> I (snd (getRootId srv w)).
Hypothesis I_failed : forall w remote objId,
  I w -> I (log_objectCall remote objId false w).
Hypothesis I_root : forall w items,
  I w -> rootEntries (handle w) = None -> rootId (handle w) <> "" ->
  answered srv w (rootId (handle w)) items ->
  I (root_filled w (rootId (handle w)) items).
Hypothesis I_node : forall w r info addr items,
  I w -> reaches w r info addr -> store w !! addr = None ->
  answered srv w (ObjectInfo.id info) items ->
  I (node_filled w r addr (ObjectInfo.id info) items).

(** A property of the tree of listings that the resolution of the root
    and the two ways of storing a listing keep is kept by [list]. *)
Lemma list_fuel_invariant n : forall remote w, I w -> I (snd (list_fuel srv n remote w)).
Proof.
  induction n as [|n IH]; intros remote w Hw; [exact Hw|].
  destruct (String.eqb (cleanPath remote) "") eqn:E.
  - rewrite list_fuel_root by exact E.
    destruct (rootEntries (handle w)) as [es0|] eqn:Er; [exact Hw|].
    pose proof (I_getRootId w Hw) as Hw1.
    pose proof (getRootId_result srv w) as Hres.
    destruct (getRootId_cache srv w) as (Hr1 & _).
    destruct (getRootId srv w) as [[r|e|] w1]; simpl in *; try exact Hw1.
    destruct (String.eqb (rootId (handle w1)) "") eqn:Eid; [discriminate|].
    injection Hres as ->. apply String.eqb_neq in Eid.
    destruct (listObject_answer "" (rootId (handle w1)) w1) as [(e & ->)|(items & Ha & ->)];
      simpl.
    + apply I_failed. exact Hw1.
    + apply I_root; auto. congruence.
  - rewrite list_fuel_below by exact E.
    specialize (IH (fst (Split (cleanPath (cleanPath remote)))) w Hw).
    pose proof (list_fuel_fill srv n (fst (Split (cleanPath (cleanPath remote)))) w) as Hfill.
    destruct (list_fuel srv n _ w) as [[parent|e|] w1]; simpl in *; try exact IH.
    destruct (String.eqb (snd (Split (cleanPath (cleanPath remote)))) "") eqn:Ef;
      [exact IH|].
    destruct (lookup_name _ parent) as [[info|info addr]|] eqn:El; simpl; try exact IH.
    destruct (store w1 !! addr) as [es|] eqn:Es; [exact IH|].
    assert (reaches w1 (cleanPath remote) info addr) as Hreach.
    { apply String.eqb_neq in E, Ef. unfold reaches, parent_key, last_name.
      repeat split; auto using cleanPath_idempotent.
      exists parent. split; [apply (Hfill parent w1 eq_refl)|exact El]. }
    destruct (listObject_answer (cleanPath remote) (ObjectInfo.id info) w1)
      as [(e & ->)|(items & Ha & ->)]; simpl.
    + apply I_failed. exact IH.
    + apply (I_node w1 _ info); auto.
Qed.

Hypothesis I_open : forall w, I w -> I (count_openCall w).
Hypothesis I_setRoot : forall w dir, I w -> I (with_handle (set_root dir) w).
Hypothesis I_wait : forall w d, I w -> I (wait d w).

(** Such a property, kept also by the operations that leave the tree of
    listings alone, is kept by every operation. *)
Lemma step_invariant op w : I w -> I (step srv op w).
Proof.
  intros Hw. destruct op; simpl; try exact Hw.
  - apply I_getRootId. exact Hw.
  - apply list_fuel_invariant. exact Hw.
  - rewrite NewObject_world, newObject_world. apply list_fuel_invariant. exact Hw.
  - apply list_fuel_invariant. exact Hw.
  - rewrite newObject_world. apply list_fuel_invariant. exact Hw.
  - unfold Open. destruct (open_api _ _ _); simpl; apply I_open; exact Hw.
  - apply I_setRoot. exact Hw.
  - destruct (0 <=? d); [apply I_wait|]; exact Hw.
Qed.

Lemma run_invariant ops : forall w, I w -> I (run srv ops w).
Proof.
  induction ops as [|op ops IH]; intros w Hw; [exact Hw|].
  change (run srv (op :: ops) w) with (run srv ops (step srv op w)).
  apply IH, step_invariant, Hw.
Qed.

Lemma reachable_invariant w :
  (forall name root opt, I (fresh name root opt)) -> reachable srv w -> I w.
Proof.
  intros H0 (name & root & opt & ops & ->). apply run_invariant, H0.
Qed.
End Invariant.

Section Allocator.
Variable srv : Server.

Lemma wait_next d w : next (wait d w) = next w.
Proof. reflexivity. Qed.

Lemma alloc_ok_fresh name root opt : alloc_ok (fresh name root opt).
Proof.
  split; [|split].
  - intros addr es H. simpl in H. rewrite lookup_empty in H. discriminate.
  - intros q info addr H. exfalso. eapply unlisted_reaches; [|exact H]. reflexivity.
  - intros q1 q2 i1 i2 addr H. exfalso. eapply unlisted_reaches; [|exact H]. reflexivity.
Qed.

Lemma alloc_ok_getRootId w : alloc_ok w -> alloc_ok (snd (getRootId srv w)).
Proof.
  destruct (getRootId_cache srv w) as (H1 & H2 & _).
  apply alloc_ok_same; auto using getRootId_next.
Qed.

(** In every world of a handle the allocator is ahead of the directories
    and a directory belongs to one path. *)
Lemma reachable_alloc_ok w : reachable srv w -> alloc_ok w.
Proof.
  apply (reachable_invariant srv alloc_ok).
  - apply alloc_ok_getRootId.
  - intros w0 remote objId. apply alloc_ok_same; reflexivity.
  - intros w0 items Ha Hr _ _. apply alloc_ok_root_filled; assumption.
  - intros w0 r info addr items Ha Hreach Hnone _.
    eapply alloc_ok_node_filled; eassumption.
  - intros w0. apply alloc_ok_same; reflexivity.
  - intros w0 dir. apply alloc_ok_same; reflexivity.
  - intros w0 d. destruct (wait_fields d w0) as (_ & _ & _ & _ & Hs & Hr).
    apply alloc_ok_same; auto.
  - apply alloc_ok_fresh.
Qed.
End Allocator.

(* ===================================================================== *)
(** ** The gate and the root listing *)
(* ===================================================================== *)

Lemma in_phase_same w w' p :
  initOnce (handle w') = initOnce (handle w) -> rootId (handle w') = rootId (handle w) ->
  sleepers w' = sleepers w -> clock w' = clock w ->
  in_phase w p -> in_phase w' p.
Proof. intros Hi Hr Hs Hc. destruct p; simpl; rewrite Hi, Hr, Hs, ?Hc; auto. Qed.

Lemma gate_ok_same w w' :
  initOnce (handle w') = initOnce (handle w) -> rootId (handle w') = rootId (handle w) ->
  sleepers w' = sleepers w -> clock w' = clock w ->
  rootEntries (handle w') = rootEntries (handle w) ->
  gate_ok w -> gate_ok w'.
Proof.
  intros Hi Hr Hs Hc He ((p & Hp) & H). split.
  - exists p. eapply in_phase_same; eauto.
  - rewrite Hr, He. exact H.
Qed.

Lemma phase_unresolved_root w p :
  in_phase w p -> p <> Resolved -> rootId (handle w) = "".
Proof. destruct p; simpl; intuition congruence. Qed.

Lemma phase_resolved w p : in_phase w p -> rootId (handle w) <> "" -> p = Resolved.
Proof. destruct p; simpl; intuition congruence. Qed.

Section GateTree.
Variable srv : Server.

(** A call of [getRootId] changes the world only while the root is not
    listed. *)
Lemma getRootId_unlisted w :
  gate_ok w ->
  snd (getRootId srv w) = w \/ rootEntries (handle (snd (getRootId srv w))) = None.
Proof.
  intros ((p & Hp) & H). destruct (getRootId_cache srv w) as (He & _).
  destruct p as [| |t|].
  - right. rewrite He. apply H. apply Hp.
  - left. rewrite getRootId_resolved by exact Hp. reflexivity.
  - right. rewrite He. apply H. apply Hp.
  - right. rewrite He. apply H. apply Hp.
Qed.

Lemma gate_ok_getRootId w : gate_ok w -> gate_ok (snd (getRootId srv w)).
Proof.
  intros Hg. destruct (getRootId_unlisted w Hg) as [->|He]; [exact Hg|].
  destruct Hg as (Hp & _). split; [apply getRootId_phase; exact Hp|].
  intros _. exact He.
Qed.

Lemma gate_ok_wait d w : gate_ok w -> gate_ok (wait d w).
Proof.
  intros (Hp & H). destruct (wait_fields d w) as (_ & _ & Hr & _ & _ & He).
  split; [apply wait_phase; exact Hp|]. rewrite Hr, He. exact H.
Qed.

Lemma gate_ok_fresh name root opt : gate_ok (fresh name root opt).
Proof. split; [exists Unresolved; apply fresh_unresolved|]. reflexivity. Qed.

Lemma reachable_gate_ok w : reachable srv w -> gate_ok w.
Proof.
  apply (reachable_invariant srv gate_ok).
  - apply gate_ok_getRootId.
  - intros w0 remote objId. apply gate_ok_same; reflexivity.
  - intros w0 items ((p & Hp) & _) _ Hne _. split.
    + exists p. eapply in_phase_same; [..|exact Hp]; reflexivity.
    + intros H. contradiction.
  - intros w0 r info addr items Hg _ _ _. revert Hg. apply gate_ok_same; reflexivity.
  - intros w0. apply gate_ok_same; reflexivity.
  - intros w0 dir. apply gate_ok_same; reflexivity.
  - intros w0 d. apply gate_ok_wait.
  - apply gate_ok_fresh.
Qed.

(** A successful call of [getRootId] leaves the gate resolved. *)
Lemma getRootId_Ok_resolved w r :
  (exists p, in_phase w p) -> fst (getRootId srv w) = Ok r ->
  in_phase (snd (getRootId srv w)) Resolved /\ rootId (handle (snd (getRootId srv w))) = r.
Proof.
  intros Hp Hr. rewrite getRootId_result in Hr.
  destruct (String.eqb _ "") eqn:E; [discriminate|]. injection Hr as Hr.
  apply String.eqb_neq in E. split; [|exact Hr].
  destruct (getRootId_phase srv w Hp) as (p' & Hp').
  rewrite (phase_resolved _ _ Hp' E) in Hp'. exact Hp'.
Qed.

(** [list] starts with the resolution of the root where the root is not
    listed, so a resolution just before it changes nothing. *)
Lemma Fs_list_resolved_first w r :
  gate_ok w -> fst (getRootId srv w) = Ok r ->
  forall remote, Fs_list srv remote (snd (getRootId srv w)) = Fs_list srv remote w.
Proof.
  intros Hg Hr. destruct (getRootId_unlisted w Hg) as [->|He]; [reflexivity|].
  destruct Hg as (Hp & _).
  destruct (getRootId_Ok_resolved w r Hp Hr) as (Hres & Hid).
  destruct (getRootId_cache srv w) as (Hc & _). rewrite He in Hc.
  intros remote. remember (String.length remote) as n eqn:Hn. revert remote Hn.
  induction n as [n IH] using lt_wf_ind. intros remote Hn.
  destruct (String.eqb (cleanPath remote) "") eqn:E.
  - apply String.eqb_eq in E. rewrite !Fs_list_root by exact E.
    rewrite He, <- Hc. rewrite (getRootId_resolved srv _ Hres), Hid.
    destruct (getRootId srv w) as [res wr]. simpl in *. subst res. reflexivity.
  - apply String.eqb_neq in E.
    pose proof (dir_shorter remote (cleanPath_nonempty _ ltac:(apply String.eqb_neq; exact E)))
      as Hd.
    destruct (Split (cleanPath (cleanPath remote))) as [dir file] eqn:Es.
    rewrite !(Fs_list_below srv remote _ dir file E Es). simpl in Hd.
    rewrite (IH (String.length dir) ltac:(lia) dir eq_refl). reflexivity.
Qed.

Lemma NewObject_resolved_first w r remote :
  gate_ok w -> fst (getRootId srv w) = Ok r ->
  NewObject srv remote (snd (getRootId srv w)) = NewObject srv remote w.
Proof.
  intros Hg Hr. unfold NewObject. rewrite getRootId_root.
  destruct (Split (cleanPath (Join (root (handle w)) remote))) as [dir file] eqn:Es.
  rewrite !(newObject_unfold srv _ _ dir file Es).
  rewrite (Fs_list_resolved_first w r Hg Hr). reflexivity.
Qed.

Lemma Fs_list_handle remote w :
  root (handle (snd (Fs_list srv remote w))) = root (handle w).
Proof.
  destruct (list_fuel_gate srv (S (String.length remote)) remote w) as [H|H];
    destruct H as (_ & H & _); unfold Fs_list; rewrite <- H; [reflexivity|].
  apply getRootId_root.
Qed.

(** One step down, whether the directory has a listing or not. *)
Lemma list_child remote dir file w parent w1 info addr items :
  cleanPath remote <> "" ->
  Split (cleanPath (cleanPath remote)) = (dir, file) ->
  file <> "" ->
  Fs_list srv dir w = (Ok parent, w1) ->
  lookup_name file parent = Some (Directory info addr) ->
  serves srv (ObjectInfo.id info) items ->
  exists es w2, Fs_list srv remote w = (Ok es, w2).
Proof.
  intros E Es Hf Hl Hlook Hs.
  rewrite (Fs_list_below srv remote w dir file E Es), Hl.
  apply String.eqb_neq in Hf. rewrite Hf, Hlook.
  destruct (store w1 !! addr) as [es|]; [eauto|].
  rewrite (listObject_serves srv _ _ items w1 Hs). eauto.
Qed.

Lemma answered_serves w objId items items' :
  serves srv objId items -> answered srv w objId items' -> items' = items.
Proof.
  intros Hs (resp & body & Ha & <-).
  destruct (Hs (length (objectCalls w))) as (r & body' & Ha' & _ & <-).
  congruence.
Qed.
End GateTree.

(* ===================================================================== *)
(** ** The listings of a tree *)
(* ===================================================================== *)

Section RemoteTree.
Variable srv : Server.
Variable kroot : string.
Variables root_items a_items b_items : list Entry.t.
Variables item_a item_b : Entry.t.
Hypothesis serves_root : serves srv kroot root_items.
Hypothesis named_a : first_named "a" root_items item_a.
Hypothesis dir_a : Entry.Type_ item_a = "d".
Hypothesis serves_a : serves srv (Entry.Obj item_a) a_items.
Hypothesis named_b : first_named "b" a_items item_b.
Hypothesis dir_b : Entry.Type_ item_b = "d".
Hypothesis serves_b : serves srv (Entry.Obj item_b) b_items.

(** The directory that a listing of the tree holds under a name is the
    one of the remote. *)
Lemma lookup_directory remote name item items free info addr :
  first_named name items item -> Entry.Type_ item = "d" ->
  lookup_name name (fst (entries_of remote items free)) = Some (Directory info addr) ->
  ObjectInfo.id info = Entry.Obj item.
Proof.
  intros Hn Ht Hl.
  destruct (lookup_entries_of remote name item items Hn free) as (at_ & _ & _ & H).
  rewrite (entry_of_directory remote item at_ Ht) in H. simpl in H.
  rewrite H in Hl. injection Hl as <- _. reflexivity.
Qed.

Lemma lookup_directory_ex remote name item items free :
  first_named name items item -> Entry.Type_ item = "d" ->
  exists info addr,
    lookup_name name (fst (entries_of remote items free)) = Some (Directory info addr)
    /\ ObjectInfo.id info = Entry.Obj item.
Proof.
  intros Hn Ht.
  destruct (lookup_entries_of remote name item items Hn free) as (at_ & _ & _ & H).
  rewrite (entry_of_directory remote item at_ Ht) in H. simpl in H.
  eexists _, _. split; [exact H|]. reflexivity.
Qed.

Abbreviation tree_inv := (tree_inv kroot root_items a_items b_items).
Abbreviation at_root := (at_root srv kroot).

Lemma tree_ok_unlisted w :
  rootEntries (handle w) = None -> tree_ok kroot root_items a_items b_items w.
Proof.
  intros H _. repeat split; intros es Hc; rewrite (unlisted_cache w _ H) in Hc;
    discriminate.
Qed.

Lemma tree_ok_same w w' :
  store w' = store w -> rootEntries (handle w') = rootEntries (handle w) ->
  rootId (handle w') = rootId (handle w) ->
  tree_ok kroot root_items a_items b_items w ->
  tree_ok kroot root_items a_items b_items w'.
Proof.
  intros Hs He Hr H. unfold tree_ok. rewrite Hr, !(cache_same_tree w w' _ Hs He). exact H.
Qed.

Lemma tree_inv_getRootId w : tree_inv w -> tree_inv (snd (getRootId srv w)).
Proof.
  intros (Ha & Hg & Ht).
  destruct (getRootId_unlisted srv w Hg) as [E|E].
  - rewrite E. split; [|split]; assumption.
  - split; [apply alloc_ok_getRootId; exact Ha|].
    split; [apply gate_ok_getRootId; exact Hg|]. apply tree_ok_unlisted. exact E.
Qed.

Lemma tree_inv_root_filled w items :
  tree_inv w -> rootEntries (handle w) = None -> rootId (handle w) <> "" ->
  answered srv w (rootId (handle w)) items ->
  tree_inv (root_filled w (rootId (handle w)) items).
Proof.
  intros (Ha & ((p & Hp) & _) & Ht) He Hne Hans.
  split; [apply alloc_ok_root_filled; assumption|]. split.
  - split; [|intros H; contradiction].
    exists p. eapply in_phase_same; [..|exact Hp]; reflexivity.
  - intros Hk. simpl in Hk. rewrite Hk in Hans.
    rewrite (answered_serves srv w kroot root_items items serves_root Hans).
    split; [|split]; intros es Hc.
    + rewrite cache_root in Hc. simpl in Hc. injection Hc as <-. eauto.
    + apply (cache_root_filled w _ _ Ha He) in Hc as (Hc & _); [discriminate|reflexivity].
    + apply (cache_root_filled w _ _ Ha He) in Hc as (Hc & _); [discriminate|reflexivity].
Qed.

Lemma tree_inv_node_filled w r info addr items :
  tree_inv w -> reaches w r info addr -> store w !! addr = None ->
  answered srv w (ObjectInfo.id info) items ->
  tree_inv (node_filled w r addr (ObjectInfo.id info) items).
Proof.
  intros (Ha & Hg & Ht) Hreach Hnone Hans.
  split; [eapply alloc_ok_node_filled; eassumption|].
  split; [revert Hg; apply gate_ok_same; reflexivity|].
  intros Hk. simpl in Hk. destruct (Ht Hk) as (T0 & T1 & T2).
  split; [|split]; intros es Hc.
  - rewrite cache_root in Hc. simpl in Hc. apply T0. rewrite cache_root. exact Hc.
  - apply (cache_node_filled w r info addr _ _ Ha Hreach Hnone) in Hc
      as [Hc|(<- & ->)]; [auto| |reflexivity].
    destruct Hreach as (_ & _ & _ & parent & Hp & Hl).
    change (parent_key "a") with "" in Hp. change (last_name "a") with "a" in Hl.
    destruct (T0 _ Hp) as (free & ->).
    rewrite (lookup_directory _ _ _ _ _ _ _ named_a dir_a Hl) in Hans.
    rewrite (answered_serves srv w _ _ _ serves_a Hans). eauto.
  - apply (cache_node_filled w r info addr _ _ Ha Hreach Hnone) in Hc
      as [Hc|(<- & ->)]; [auto| |reflexivity].
    destruct Hreach as (_ & _ & _ & parent & Hp & Hl).
    change (parent_key "a/b") with "a" in Hp. change (last_name "a/b") with "b" in Hl.
    destruct (T1 _ Hp) as (free & ->).
    rewrite (lookup_directory _ _ _ _ _ _ _ named_b dir_b Hl) in Hans.
    rewrite (answered_serves srv w _ _ _ serves_b Hans). eauto.
Qed.

(** Whatever the handle has done, the listings it holds for the root, for
    [a] and for [a/b] are those of the remote. *)
Lemma reachable_tree_inv w : reachable srv w -> tree_inv w.
Proof.
  apply (reachable_invariant srv tree_inv).
  - apply tree_inv_getRootId.
  - intros w0 remote objId (Ha & Hg & Ht). split; [|split].
    + revert Ha. apply alloc_ok_same; reflexivity.
    + revert Hg. apply gate_ok_same; reflexivity.
    + revert Ht. apply tree_ok_same; reflexivity.
  - apply tree_inv_root_filled.
  - apply tree_inv_node_filled.
  - intros w0 (Ha & Hg & Ht). split; [|split].
    + revert Ha. apply alloc_ok_same; reflexivity.
    + revert Hg. apply gate_ok_same; reflexivity.
    + revert Ht. apply tree_ok_same; reflexivity.
  - intros w0 dir (Ha & Hg & Ht). split; [|split].
    + revert Ha. apply alloc_ok_same; reflexivity.
    + revert Hg. apply gate_ok_same; reflexivity.
    + revert Ht. apply tree_ok_same; reflexivity.
  - intros w0 d (Ha & Hg & Ht).
    destruct (wait_fields d w0) as (_ & _ & Hr & _ & Hs & He). split; [|split].
    + revert Ha. apply alloc_ok_same; auto.
    + apply gate_ok_wait. exact Hg.
    + revert Ht. apply tree_ok_same; auto.
  - intros name root opt. split; [apply alloc_ok_fresh|].
    split; [apply gate_ok_fresh|]. apply tree_ok_unlisted. reflexivity.
Qed.

Lemma at_root_list remote w es w1 :
  at_root w -> Fs_list srv remote w = (Ok es, w1) ->
  at_root w1 /\ root (handle w1) = root (handle w)
  /\ cache w1 (cleanPath remote) = Some es.
Proof.
  intros (Hreach & Hp & Hk) Hl.
  assert (w1 = step srv (Op_list remote) w) as Hw1 by (simpl; rewrite Hl; reflexivity).
  pose proof (reachable_step srv (Op_list remote) w Hreach) as Hreach1.
  destruct Hp as (Hi & Hne & Hs).
  destruct (step_settled srv (Op_list remote) w (conj Hi Hs)) as ((Hi1 & Hs1) & Hr1 & _).
  rewrite <- Hw1 in *. split; [|split].
  - split; [exact Hreach1|]. split; [|congruence].
    repeat split; [exact Hi1|congruence|exact Hs1].
  - rewrite Hw1. apply (Fs_list_handle srv remote w).
  - eapply Fs_list_fill. exact Hl.
Qed.

(** The root can be listed. *)
Lemma list_top w :
  at_root w ->
  exists free w0,
    Fs_list srv "" w = (Ok (fst (entries_of "" root_items free)), w0).
Proof.
  intros Hw. pose proof Hw as (Hreach & Hp & Hk).
  assert (exists es w0, Fs_list srv "" w = (Ok es, w0)) as (es & w0 & Hl).
  { rewrite (Fs_list_root srv "" w eq_refl).
    destruct (rootEntries (handle w)) as [es|]; [eauto|].
    rewrite (getRootId_resolved srv w Hp), Hk.
    rewrite (listObject_serves srv "" kroot root_items w serves_root). eauto. }
  destruct (at_root_list "" w es w0 Hw Hl) as ((Hreach0 & _ & Hk0) & _ & Hc).
  destruct (reachable_tree_inv w0 Hreach0) as (_ & _ & Ht).
  destruct (Ht Hk0) as (T0 & _). destruct (T0 _ Hc) as (free & ->). eauto.
Qed.

(** The directory [a] can be listed. *)
Lemma list_a w :
  at_root w ->
  exists free wA,
    Fs_list srv "a/" w = (Ok (fst (entries_of "a" a_items free)), wA).
Proof.
  intros Hw. destruct (list_top w Hw) as (free0 & w0 & Hl0).
  destruct (lookup_directory_ex "" "a" item_a root_items free0 named_a dir_a)
    as (info & addr & Hlook & Hid).
  pose proof serves_a as Hs. rewrite <- Hid in Hs.
  destruct (list_child srv "a/" "" "a" w (fst (entries_of "" root_items free0)) w0 info
              addr a_items) as (es & wA & Hl);
    [discriminate|reflexivity|discriminate|exact Hl0|exact Hlook|exact Hs|].
  destruct (at_root_list "a/" w es wA Hw Hl) as ((HreachA & _ & HkA) & _ & Hc).
  destruct (reachable_tree_inv wA HreachA) as (_ & _ & Ht).
  destruct (Ht HkA) as (_ & T1 & _). destruct (T1 _ Hc) as (free & ->). eauto.
Qed.

(** The directory [a/b] can be listed. *)
Lemma list_a_b w :
  at_root w ->
  exists free wB,
    Fs_list srv "a/b/" w = (Ok (fst (entries_of "a/b" b_items free)), wB).
Proof.
  intros Hw. destruct (list_a w Hw) as (freeA & wA & HlA).
  destruct (lookup_directory_ex "a" "b" item_b a_items freeA named_b dir_b)
    as (info & addr & Hlook & Hid).
  pose proof serves_b as Hs. rewrite <- Hid in Hs.
  destruct (list_child srv "a/b/" "a/" "b" w (fst (entries_of "a" a_items freeA)) wA info
              addr b_items) as (es & wB & Hl);
    [discriminate|reflexivity|discriminate|exact HlA|exact Hlook|exact Hs|].
  destruct (at_root_list "a/b/" w es wB Hw Hl) as ((HreachB & _ & HkB) & _ & Hc).
  destruct (reachable_tree_inv wB HreachB) as (_ & _ & Ht).
  destruct (Ht HkB) as (_ & _ & T2). destruct (T2 _ Hc) as (free & ->). eauto.
Qed.
End RemoteTree.

(* ===================================================================== *)
(** ** Lookup in a tree *)
(* ===================================================================== *)

(** C9.  The remote serves a tree: the root object lists a directory [a],
    the object of [a] lists a directory [b], the object of [b] lists a file
    [c] (each the first entry of its name).  On every handle rooted at the
    top, whatever it has done and listed before, whose root identifier
    resolves to the root object, [NewObject] of [a/b/c] returns a file entry
    whose path is [a/b/c], and [NewObject] of [a/b] returns the
    is-a-directory error, on the handle as it was and on the handle after
    the first lookup. *)
Theorem lookup_in_tree (srv : Server) (w : World) (kroot : string)
    (root_items a_items b_items : list Entry.t) (item_a item_b item_c : Entry.t) :
  reachable srv w ->
  root (handle w) = "" ->
  fst (getRootId srv w) = Ok kroot ->
  serves srv kroot root_items ->
  first_named "a" root_items item_a -> Entry.Type_ item_a = "d" ->
  serves srv (Entry.Obj item_a) a_items ->
  first_named "b" a_items item_b -> Entry.Type_ item_b = "d" ->
  serves srv (Entry.Obj item_b) b_items ->
  first_named "c" b_items item_c -> Entry.Type_ item_c <> "d" ->
  exists info w1,
    NewObject srv "a/b/c" w = (Ok (Object info), w1)
    /\ ObjectInfo.remote info = "a/b/c"
    /\ ObjectInfo.name info = "c"
    /\ ObjectInfo.id info = Entry.Obj item_c
    /\ fst (NewObject srv "a/b" w) = Err ErrorIsDir
    /\ NewObject srv "a/b" w1 = (Err ErrorIsDir, w1).
Proof.
  intros Hreach Hroot Hres Hs0 Ha Hta Hsa Hb Htb Hsb Hc Htc.
  pose proof (reachable_gate_ok srv w Hreach) as Hg.
  rewrite <- (NewObject_resolved_first srv w kroot "a/b/c" Hg Hres).
  rewrite <- (NewObject_resolved_first srv w kroot "a/b" Hg Hres).
  destruct (getRootId_Ok_resolved srv w kroot (proj1 Hg) Hres) as (Hp & Hk).
  pose proof (reachable_step srv OpGetRootId w Hreach) as Hreach'. simpl in Hreach'.
  pose proof (getRootId_root srv w) as Hroot'. rewrite Hroot in Hroot'.
  set (wr := snd (getRootId srv w)) in *.
  assert (at_root srv kroot wr) as Hw by (repeat split; try apply Hp; assumption).
  (* the file *)
  destruct (list_a_b srv kroot root_items a_items b_items item_a item_b
              Hs0 Ha Hta Hsa Hb Htb Hsb wr Hw) as (freeB & wB & HlB).
  destruct (lookup_entries_of "a/b" "c" item_c b_items Hc freeB) as (at_ & _ & _ & Hlc).
  rewrite (entry_of_file "a/b" item_c at_ Htc) in Hlc. simpl in Hlc.
  destruct Hc as (_ & _ & _ & Hname & _).
  eexists _, wB. split; [|split; [|split; [|split; [|split]]]].
  - rewrite (NewObject_by_listing srv wr wB "a/b/c" "a/b/" "c" _ Hroot' eq_refl
               ltac:(discriminate) HlB), Hlc. reflexivity.
  - simpl. rewrite Hname. reflexivity.
  - simpl. exact Hname.
  - reflexivity.
  - (* the directory, on the handle as it was *)
    destruct (list_a srv kroot root_items a_items b_items item_a item_b
                Hs0 Ha Hta Hsa Hb Htb Hsb wr Hw) as (freeA & wA & HlA).
    destruct (lookup_directory_ex "a" "b" item_b a_items freeA Hb Htb)
      as (info & addr & Hlook & _).
    rewrite (NewObject_by_listing srv wr wA "a/b" "a/" "b" _ Hroot' eq_refl
               ltac:(discriminate) HlA), Hlook. reflexivity.
  - (* the directory, on the handle after the first lookup *)
    destruct (at_root_list srv kroot "a/b/" wr _ wB Hw HlB) as (_ & HrootB & Hcache).
    rewrite Hroot' in HrootB.
    change (cleanPath "a/b/") with "a/b" in Hcache.
    apply cache_reaches in Hcache as (info & addr & (_ & _ & _ & parent & Hp' & Hl') & _);
      [|discriminate|reflexivity].
    change (parent_key "a/b") with (cleanPath "a/") in Hp'.
    change (last_name "a/b") with "b" in Hl'.
    apply (Fs_list_hit srv "a/" wB parent) in Hp'.
    rewrite (NewObject_by_listing srv wB wB "a/b" "a/" "b" _ HrootB eq_refl
               ltac:(discriminate) Hp'), Hl'. reflexivity.
Qed.

Lemma lookup_in_tree_witness :
  exists info w1,
    NewObject sample_server "a/b/c"
      (run sample_server [OpList "a"; OpWait 5; OpNewObject "x"] (sample_world "latest"))
    = (Ok (Object info), w1)
    /\ ObjectInfo.remote info = "a/b/c".
Proof.
  assert (first_named "a" [item_of "x" "f" "ox"; item_of "a" "d" "ka"] (item_of "a" "d" "ka"))
    as Hfa.
  { apply first_named_skip; [discriminate | apply first_named_head; reflexivity]. }
  assert (first_named "b" [item_of "b" "d" "kb"] (item_of "b" "d" "kb")) as Hfb
    by (apply first_named_head; reflexivity).
  assert (first_named "c" [item_of "c" "f" "oc"] (item_of "c" "f" "oc")) as Hfc
    by (apply first_named_head; reflexivity).
  assert (Entry.Type_ (item_of "c" "f" "oc") <> "d") as Hfile by discriminate.
  assert (serves sample_server "kroot" [item_of "x" "f" "ox"; item_of "a" "d" "ka"]) as Hs0
    by (apply serves_listing; reflexivity).
  assert (serves sample_server "ka" [item_of "b" "d" "kb"]) as Hsa
    by (apply serves_listing; reflexivity).
  assert (serves sample_server "kb" [item_of "c" "f" "oc"]) as Hsb
    by (apply serves_listing; reflexivity).
  set (w := run sample_server [OpList "a"; OpWait 5; OpNewObject "x"] (sample_world "latest")).
  assert (reachable sample_server w) as Hreach.
  { exists "kopia", "", (sample_options "latest"),
      [OpList "a"; OpWait 5; OpNewObject "x"]. reflexivity. }
  assert (root (handle w) = "") as Hroot by (vm_compute; reflexivity).
  assert (fst (getRootId sample_server w) = Ok "kroot") as Hres by (vm_compute; reflexivity).
  destruct (lookup_in_tree sample_server w "kroot"
              [item_of "x" "f" "ox"; item_of "a" "d" "ka"] [item_of "b" "d" "kb"]
              [item_of "c" "f" "oc"] (item_of "a" "d" "ka") (item_of "b" "d" "kb")
              (item_of "c" "f" "oc")
              Hreach Hroot Hres Hs0 Hfa eq_refl Hsa Hfb eq_refl Hsb Hfc Hfile)
    as (info & w1 & H1 & H2 & _).
  exists info, w1. split; assumption.
Defined.

(* ===================================================================== *)
(** ** Normalized paths *)
(* ===================================================================== *)

(** X1.  [cleanPath] is idempotent: normalizing a normalized path changes
    nothing. *)
Theorem cleanPath_fixpoint (p : string) : cleanPath (cleanPath p) = cleanPath p.
Proof. apply cleanPath_idempotent. Qed.

(** X2.  What [cleanPath] returns is the empty path, the path [.], or a
    sequence of elements joined by single slashes: first any number of [..],
    then names that are not empty, not [.], not [..] and hold no slash.  So
    it never begins or ends with a slash and never holds two slashes in a
    row; and it is never longer than its argument. *)
Theorem cleanPath_elements (p : string) :
  (cleanPath p = "" \/ cleanPath p = "." \/
   exists ups names,
     (ups ++ names)%list <> [] /\ Forall (eq "..") ups /\ Forall normal names
     /\ cleanPath p = join_slash (ups ++ names))
  /\ (forall rest, cleanPath p <> String slash rest)
  /\ ends_slash (cleanPath p) = false
  /\ (String.length (cleanPath p) <= String.length p)%nat.
Proof.
  split; [|split; [|split]].
  - destruct (cleanPath_is_tidy p) as [H|(segs & -> & [->|(Hne & ns & ds & Hr & Hns & Hds & _)])];
      [left; exact H | right; left; reflexivity |].
    right. right. exists (rev ds), (rev ns).
    assert (segs = (rev ds ++ rev ns)%list) as Hs.
    { rewrite <- rev_app_distr, <- Hr, rev_involutive. reflexivity. }
    rewrite <- Hs. repeat split; auto using Forall_rev.
  - destruct (cleanPath_is_tidy p) as [->|(segs & -> & [->|(Hne & Hshape)])]; try discriminate.
    pose proof (Forall_rev_inv _ _ (shaped_plain false (rev segs) Hshape)) as Hplain.
    apply (join_plain segs Hne Hplain).
  - destruct (cleanPath_is_tidy p) as [->|(segs & -> & [->|(Hne & Hshape)])]; try reflexivity.
    pose proof (Forall_rev_inv _ _ (shaped_plain false (rev segs) Hshape)) as Hplain.
    apply (join_plain segs Hne Hplain).
  - apply cleanPath_length.
Qed.

(** X3.  [list] and [newObject] see a path only through [cleanPath]: a
    path and its normalized form give the same result and leave the same
    world. *)
Theorem list_spelling (srv : Server) (remote : string) (w : World) :
  Fs_list srv (cleanPath remote) w = Fs_list srv remote w
  /\ newObject srv (cleanPath remote) w = newObject srv remote w.
Proof.
  split.
  - rewrite !Fs_list_unfold. unfold list_with. rewrite cleanPath_idempotent. reflexivity.
  - unfold newObject, newObject_with. rewrite cleanPath_idempotent. reflexivity.
Qed.

(* ===================================================================== *)
(** ** Errors of the walk *)
(* ===================================================================== *)

(** The last element of a normalized path is empty for the empty path
    only: the empty-name test of [newObject] fires at the root and nowhere
    else. *)
Lemma clean_file_nonempty p : cleanPath p <> "" -> snd (Split (cleanPath p)) <> "".
Proof.
  intros Hne. destruct (cleanPath_is_tidy p) as [H|(segs & E & Hs)]; [contradiction|].
  rewrite E. destruct Hs as [->|(Hn & Hshape)]; [discriminate|].
  pose proof (Forall_rev_inv _ _ (shaped_plain false (rev segs) Hshape)) as Hplain.
  destruct (exists_last Hn) as (pre & last_ & ->).
  apply Forall_app in Hplain as (_ & Hlast). inversion Hlast as [|? ? (Hl1 & Hl2) _]; subst.
  rewrite (Split_join pre last_ Hl2). exact Hl1.
Qed.

Section WalkErrors.
Variable srv : Server.

Lemma Fs_list_clean remote w : Fs_list srv (cleanPath remote) w = Fs_list srv remote w.
Proof.
  rewrite !Fs_list_unfold. unfold list_with. rewrite cleanPath_idempotent. reflexivity.
Qed.

(** Two spellings of one directory are listed alike. *)
Lemma Fs_list_same_clean a b w :
  cleanPath a = cleanPath b -> Fs_list srv a w = Fs_list srv b w.
Proof. intros H. rewrite <- (Fs_list_clean a), <- (Fs_list_clean b), H. reflexivity. Qed.

Lemma Fs_list_below_clean remote w dir file :
  cleanPath remote <> "" ->
  Split (cleanPath remote) = (dir, file) ->
  Fs_list srv remote w
  = match Fs_list srv dir w with
    | (Ok parent, w1) =>
        match lookup_name file parent with
        | None => (Err ErrorDirNotFound, w1)
        | Some (Object _) => (Err ErrorIsFile, w1)
        | Some (Directory info addr) =>
            match store w1 !! addr with
            | Some dirEntries => (Ok dirEntries, w1)
            | None =>
                match listObject srv (cleanPath remote) (ObjectInfo.id info) w1 with
                | (Ok dirEntries, w2) => (Ok dirEntries, set_entries addr dirEntries w2)
                | (Err e, w2) => (Err e, w2)
                | (OutOfFuel, w2) => (OutOfFuel, w2)
                end
            end
        end
    | (Err e, w1) =>
        (if errors_Is e ErrorObjectNotFound then Err ErrorDirNotFound else Err e, w1)
    | (OutOfFuel, w1) => (OutOfFuel, w1)
    end.
Proof.
  intros E Hs. pose proof (clean_file_nonempty remote E) as Hf. rewrite Hs in Hf.
  simpl in Hf. apply String.eqb_neq in Hf.
  rewrite (Fs_list_below srv remote w dir file E); [|rewrite cleanPath_idempotent; exact Hs].
  rewrite Hf. reflexivity.
Qed.

(** A failed [list] leaves no listing for its path. *)
Lemma Fs_list_failed_cache remote : forall w e w1,
  Fs_list srv remote w = (Err e, w1) -> cache w1 (cleanPath remote) = None.
Proof.
  remember (String.length remote) as n eqn:Hn. revert remote Hn.
  induction n as [n IH] using lt_wf_ind. intros remote Hn w e w1 Hl.
  destruct (String.eqb (cleanPath remote) "") eqn:E.
  - apply String.eqb_eq in E. rewrite E, cache_root.
    rewrite (Fs_list_root srv remote w E) in Hl.
    destruct (rootEntries (handle w)) as [es|] eqn:Er; [discriminate|].
    destruct (getRootId_cache srv w) as (Hc & _).
    destruct (getRootId srv w) as [[r|e0|] wr]; simpl in Hc.
    + destruct (listObject_answer srv "" r wr) as [(e1 & Ha)|(items & _ & Ha)];
        rewrite Ha in Hl; [|discriminate].
      injection Hl as _ <-. simpl. congruence.
    + injection Hl as _ <-. congruence.
    + discriminate.
  - apply String.eqb_neq in E.
    destruct (Split (cleanPath remote)) as [dir file] eqn:Es.
    rewrite (Fs_list_below_clean remote w dir file E Es) in Hl.
    pose proof (dir_shorter remote (cleanPath_nonempty _ ltac:(apply String.eqb_neq; exact E)))
      as Hd.
    rewrite cleanPath_idempotent, Es in Hd. simpl in Hd.
    rewrite (cache_unfold _ _ E), cleanPath_idempotent, Es. simpl.
    pose proof (Fs_list_fill srv dir w) as Hfill.
    specialize (IH (String.length dir) ltac:(lia) dir eq_refl w).
    destruct (Fs_list srv dir w) as [[parent|e0|] w'].
    + assert (store w1 = store w' /\ rootEntries (handle w1) = rootEntries (handle w')
              /\ forall info addr, lookup_name file parent = Some (Directory info addr) ->
                                   store w' !! addr = None) as (Hs & Hr & Hnone).
      { destruct (lookup_name file parent) as [[info|info addr]|];
          try (injection Hl as _ <-; repeat split; intros; discriminate).
        destruct (store w' !! addr) eqn:Est; [discriminate|].
        destruct (listObject_answer srv (cleanPath remote) (ObjectInfo.id info) w')
          as [(e1 & Ha)|(items & _ & Ha)]; rewrite Ha in Hl; [|discriminate].
        injection Hl as _ <-. repeat split. intros i a [= <- <-]. exact Est. }
      rewrite (cache_same_tree w' w1 _ Hs Hr), (Hfill parent w' eq_refl).
      destruct (String.eqb file ""); [reflexivity|].
      destruct (lookup_name file parent) as [[info|info addr]|]; try reflexivity.
      rewrite Hs. apply (Hnone info addr eq_refl).
    + injection Hl as _ <-. rewrite (IH e0 w' eq_refl). reflexivity.
    + discriminate.
Qed.

(** While the root cannot be resolved and is not listed, [list] fails the
    way [getRootId] does. *)
Lemma Fs_list_unresolved w e w1 :
  rootEntries (handle w) = None ->
  getRootId srv w = (Err e, w1) ->
  forall remote, Fs_list srv remote w = (Err e, w1).
Proof.
  intros Er Hg remote.
  assert (errors_Is e ErrorObjectNotFound = false) as Hne.
  { pose proof (getRootId_result srv w) as H. rewrite Hg in H. simpl in H.
    destruct (String.eqb _ ""); [|discriminate]. injection H as ->. reflexivity. }
  remember (String.length remote) as n eqn:Hn. revert remote Hn.
  induction n as [n IH] using lt_wf_ind. intros remote Hn.
  destruct (String.eqb (cleanPath remote) "") eqn:E.
  - apply String.eqb_eq in E. rewrite (Fs_list_root srv remote w E), Er, Hg. reflexivity.
  - apply String.eqb_neq in E.
    destruct (Split (cleanPath remote)) as [dir file] eqn:Es.
    rewrite (Fs_list_below_clean remote w dir file E Es).
    pose proof (dir_shorter remote (cleanPath_nonempty _ ltac:(apply String.eqb_neq; exact E)))
      as Hd.
    rewrite cleanPath_idempotent, Es in Hd. simpl in Hd.
    rewrite (IH (String.length dir) ltac:(lia) dir eq_refl), Hne. reflexivity.
Qed.
End WalkErrors.

(** X4.  When the listing of the parent holds a file under the last element
    of a path, [list] of that path fails with the is-a-file error in the
    world the listing of the parent left (no further remote call), and so do
    [newObject] and [list] of every path directly below it. *)
Theorem list_through_file (srv : Server) (w w1 : World) (remote dir file : string)
    (es : DirEntries) (info : ObjectInfo.t) :
  cleanPath remote <> "" ->
  Split (cleanPath remote) = (dir, file) ->
  Fs_list srv dir w = (Ok es, w1) ->
  lookup_name file es = Some (Object info) ->
  Fs_list srv remote w = (Err ErrorIsFile, w1)
  /\ forall below,
       cleanPath (fst (Split (cleanPath below))) = cleanPath remote ->
       newObject srv below w = (Err ErrorIsFile, w1)
       /\ Fs_list srv below w = (Err ErrorIsFile, w1).
Proof.
  intros E Es Hl Hlook.
  assert (Fs_list srv remote w = (Err ErrorIsFile, w1)) as H1.
  { rewrite (Fs_list_below_clean srv remote w dir file E Es), Hl, Hlook. reflexivity. }
  split; [exact H1|]. intros below Hb.
  destruct (Split (cleanPath below)) as [dir2 file2] eqn:Es2. simpl in Hb.
  assert (Fs_list srv dir2 w = (Err ErrorIsFile, w1)) as H2.
  { rewrite (Fs_list_same_clean srv dir2 remote w Hb). exact H1. }
  split.
  - rewrite (newObject_unfold srv below w dir2 file2 Es2), H2. reflexivity.
  - assert (cleanPath below <> "") as E2.
    { intros E0. rewrite E0 in Es2. injection Es2 as <- <-. apply E. symmetry. exact Hb. }
    rewrite (Fs_list_below_clean srv below w dir2 file2 E2 Es2), H2. reflexivity.
Qed.

Lemma list_through_file_witness :
  Fs_list sample_server "x/y" (sample_world "latest")
  = (Err ErrorIsFile, snd (Fs_list sample_server "" (sample_world "latest"))).
Proof.
  refine (proj2 (proj2 (list_through_file sample_server (sample_world "latest")
            (snd (Fs_list sample_server "" (sample_world "latest"))) "x" "" "x"
            [Object (ObjectInfo.mk "ox" "x" "x" 5 7);
             Directory (ObjectInfo.mk "ka" "a" "a" 0 7) 0]
            (ObjectInfo.mk "ox" "x" "x" 5 7) _ _ _ _) "x/y" _)).
  - discriminate.
  - reflexivity.
  - reflexivity.
  - reflexivity.
  - reflexivity.
Defined.

(** X5.  When the listing of the parent holds no entry under the last
    element of a path, [NewObject] of that path fails with the
    object-not-found error, [List] of it with the directory-not-found error,
    and [NewObject] and [List] of every path directly below it with the
    directory-not-found error: a missing directory on the way is never
    reported as a missing object. *)
Theorem NewObject_missing (srv : Server) (w w1 : World) (remote dir file : string)
    (es : DirEntries) :
  Split (cleanPath (Join (root (handle w)) remote)) = (dir, file) ->
  file <> "" ->
  Fs_list srv dir w = (Ok es, w1) ->
  (forall e, e ∈ es -> Name e <> file) ->
  NewObject srv remote w = (Err ErrorObjectNotFound, w1)
  /\ List srv remote w = (Err ErrorDirNotFound, w1)
  /\ forall below,
       cleanPath (fst (Split (cleanPath (Join (root (handle w)) below))))
       = cleanPath (Join (root (handle w)) remote) ->
       NewObject srv below w = (Err ErrorDirNotFound, w1)
       /\ List srv below w = (Err ErrorDirNotFound, w1).
Proof.
  intros Es Hf Hl Hmiss. pose proof (lookup_name_None file es Hmiss) as Hlook.
  set (full := Join (root (handle w)) remote) in *.
  assert (cleanPath full <> "") as E.
  { intros E0. rewrite E0 in Es. injection Es as _ <-. apply Hf. reflexivity. }
  assert (Fs_list srv full w = (Err ErrorDirNotFound, w1)) as H1.
  { rewrite (Fs_list_below_clean srv full w dir file E Es), Hl, Hlook. reflexivity. }
  split; [|split; [exact H1|]].
  - unfold NewObject. fold full.
    rewrite (newObject_unfold srv full w dir file Es), Hl.
    apply String.eqb_neq in Hf. rewrite Hf, Hlook. reflexivity.
  - intros below Hb. set (full2 := Join (root (handle w)) below) in *.
    destruct (Split (cleanPath full2)) as [dir2 file2] eqn:Es2. simpl in Hb.
    assert (Fs_list srv dir2 w = (Err ErrorDirNotFound, w1)) as H2.
    { rewrite (Fs_list_same_clean srv dir2 full w Hb). exact H1. }
    split.
    + unfold NewObject. fold full2.
      rewrite (newObject_unfold srv full2 w dir2 file2 Es2), H2. reflexivity.
    + assert (cleanPath full2 <> "") as E2.
      { intros E0. rewrite E0 in Es2. injection Es2 as <- <-. apply E. symmetry. exact Hb. }
      unfold List. fold full2.
      rewrite (Fs_list_below_clean srv full2 w dir2 file2 E2 Es2), H2. reflexivity.
Qed.

Lemma NewObject_missing_witness :
  NewObject sample_server "a/nothing/c"
    (snd (Fs_list sample_server "a" (sample_world "latest")))
  = (Err ErrorDirNotFound, snd (Fs_list sample_server "a" (sample_world "latest"))).
Proof.
  refine (proj1 (proj2 (proj2 (NewObject_missing sample_server
            (snd (Fs_list sample_server "a" (sample_world "latest")))
            (snd (Fs_list sample_server "a" (sample_world "latest"))) "a/nothing" "a/" "nothing"
            [Directory (ObjectInfo.mk "kb" "b" "a/b" 0 7) 1] _ _ _ _)) "a/nothing/c" _)).
  - vm_compute. reflexivity.
  - discriminate.
  - vm_compute. reflexivity.
  - intros e He. repeat (apply elem_of_cons in He as [->|He]; [discriminate|]). inversion He.
  - vm_compute. reflexivity.
Defined.

(** X6.  Errors are not cached: after a call of [list] that failed, the
    cache holds no listing for the path of the call. *)
Theorem failed_list_not_cached (srv : Server) (remote : string) (w w1 : World) (e : error) :
  Fs_list srv remote w = (Err e, w1) -> cache w1 (cleanPath remote) = None.
Proof. apply Fs_list_failed_cache. Qed.

Lemma failed_list_not_cached_witness :
  cache (snd (Fs_list sample_server "a/b/c" (sample_world "latest"))) (cleanPath "a/b/c")
  = None.
Proof.
  apply (failed_list_not_cached sample_server "a/b/c" (sample_world "latest")
           (snd (Fs_list sample_server "a/b/c" (sample_world "latest"))) ErrorIsFile).
  vm_compute. reflexivity.
Defined.

(** X7.  On a handle in any state, when [getRootId] fails, [list], [List]
    and [NewObject] of every path fail with the error of [getRootId], in the
    world [getRootId] leaves, and no object is requested from the remote. *)
Theorem unresolved_lists_fail (srv : Server) (w w1 : World) (e : error) :
  reachable srv w ->
  getRootId srv w = (Err e, w1) ->
  objectCalls w1 = objectCalls w
  /\ forall remote,
       Fs_list srv remote w = (Err e, w1)
       /\ List srv remote w = (Err e, w1)
       /\ NewObject srv remote w = (Err e, w1).
Proof.
  intros Hreach Hg.
  destruct (reachable_gate_ok srv w Hreach) as ((p & Hp) & Hun).
  assert (rootEntries (handle w) = None) as Er.
  { apply Hun. destruct p as [| |t|]; try apply Hp.
    rewrite (getRootId_resolved srv w Hp) in Hg. discriminate. }
  pose proof (Fs_list_unresolved srv w e w1 Er Hg) as Hall.
  split.
  - destruct (getRootId_cache srv w) as (_ & _ & Hc). rewrite Hg in Hc. exact Hc.
  - intros remote. split; [apply Hall|]. split; [apply Hall|].
    unfold NewObject.
    destruct (Split (cleanPath (Join (root (handle w)) remote))) as [dir file] eqn:Es.
    rewrite (newObject_unfold srv _ w dir file Es), Hall. reflexivity.
Qed.

Lemma unresolved_lists_fail_witness :
  NewObject failing_server "a/b/c" (sample_world "latest")
  = (Err (ErrNotFound "kopia kopia[user@host://]"),
     snd (getRootId failing_server (sample_world "latest"))).
Proof.
  refine (proj2 (proj2 (proj2 (unresolved_lists_fail failing_server (sample_world "latest")
            (snd (getRootId failing_server (sample_world "latest")))
            (ErrNotFound "kopia kopia[user@host://]") _ _) "a/b/c"))).
  - exists "kopia", "", (sample_options "latest"), []. reflexivity.
  - vm_compute. reflexivity.
Defined.

(* ===================================================================== *)
(** ** The entries of a listing *)
(* ===================================================================== *)

Lemma entry_of_info remote item free :
  info_of (fst (entry_of remote item free))
  = ObjectInfo.mk (Entry.Obj item) (Entry.Name item) (Join remote (Entry.Name item))
      (if String.eqb (Entry.Type_ item) "d" then Summary.Size (Entry.Summary item)
       else Entry.Size item)
      (Entry.MTime item).
Proof. unfold entry_of. destruct (String.eqb (Entry.Type_ item) "d"); reflexivity. Qed.

Lemma entry_of_kind remote item free :
  (exists info addr, fst (entry_of remote item free) = Directory info addr)
  <-> Entry.Type_ item = "d".
Proof.
  unfold entry_of. destruct (String.eqb (Entry.Type_ item) "d") eqn:E; simpl.
  - apply String.eqb_eq in E. split; [auto | eauto].
  - apply String.eqb_neq in E. split; [intros (? & ? & ?); discriminate | contradiction].
Qed.

Lemma entries_of_info remote items : forall free,
  map info_of (fst (entries_of remote items free))
  = map (fun item =>
           ObjectInfo.mk (Entry.Obj item) (Entry.Name item) (Join remote (Entry.Name item))
             (if String.eqb (Entry.Type_ item) "d" then Summary.Size (Entry.Summary item)
              else Entry.Size item)
             (Entry.MTime item)) items.
Proof.
  induction items as [|item items IH]; intros free; [reflexivity|]. simpl.
  pose proof (entry_of_info remote item free) as H.
  destruct (entry_of remote item free) as [e free1]. specialize (IH free1).
  destruct (entries_of remote items free1) as [es free2]. simpl in *.
  rewrite H, IH. reflexivity.
Qed.

Lemma entries_of_kind remote items : forall free i e item,
  fst (entries_of remote items free) !! i = Some e -> items !! i = Some item ->
  (exists info addr, e = Directory info addr) <-> Entry.Type_ item = "d".
Proof.
  induction items as [|it items IH]; intros free i e item; [intros H; inversion H|]. simpl.
  pose proof (entry_of_kind remote it free) as H.
  destruct (entry_of remote it free) as [e0 free1]. specialize (IH free1).
  destruct (entries_of remote items free1) as [es free2]. simpl in *.
  destruct i as [|i]; simpl.
  - intros [= <-] [= <-]. exact H.
  - apply IH.
Qed.

Lemma entries_of_remote remote items free e :
  e ∈ fst (entries_of remote items free) ->
  ObjectInfo.remote (info_of e) = Join remote (Name e).
Proof.
  intros He. apply (list_elem_of_fmap_2 info_of) in He.
  rewrite entries_of_info in He. apply list_elem_of_fmap in He as (item & Hi & _).
  unfold Name. rewrite Hi. reflexivity.
Qed.

Section Built.
Variable srv : Server.

(** Whatever the handle has done, the listings it holds were built by
    [listObject], each for the path it is held for. *)
Lemma reachable_built w : reachable srv w -> alloc_ok w /\ built_ok w.
Proof.
  apply (reachable_invariant srv (fun w => alloc_ok w /\ built_ok w)).
  - intros w0 (Ha & Hb). split; [apply alloc_ok_getRootId; exact Ha|].
    destruct (getRootId_cache srv w0) as (Hr & Hs & _).
    intros q es Hq Hc. rewrite (cache_same_tree w0 _ q Hs Hr) in Hc. eauto.
  - intros w0 remote objId (Ha & Hb). split; [revert Ha; apply alloc_ok_same; reflexivity|].
    intros q es Hq Hc.
    rewrite (cache_same_tree w0 (log_objectCall remote objId false w0) q eq_refl eq_refl)
      in Hc. eauto.
  - intros w0 items (Ha & Hb) Hr _ _. split; [apply alloc_ok_root_filled; assumption|].
    intros q es Hq Hc. destruct (cache_root_filled w0 _ _ Ha Hr q es Hq Hc) as (-> & ->).
    eauto.
  - intros w0 r info addr items (Ha & Hb) Hreach Hnone _.
    split; [eapply alloc_ok_node_filled; eassumption|].
    intros q es Hq Hc.
    destruct (cache_node_filled w0 r info addr _ _ Ha Hreach Hnone q es Hq Hc)
      as [Hold|(-> & ->)]; eauto.
  - intros w0 (Ha & Hb). split; [revert Ha; apply alloc_ok_same; reflexivity|].
    intros q es Hq Hc.
    rewrite (cache_same_tree w0 (count_openCall w0) q eq_refl eq_refl) in Hc. eauto.
  - intros w0 dir (Ha & Hb). split; [revert Ha; apply alloc_ok_same; reflexivity|].
    intros q es Hq Hc.
    rewrite (cache_same_tree w0 (with_handle (set_root dir) w0) q eq_refl eq_refl) in Hc.
    eauto.
  - intros w0 d (Ha & Hb). destruct (wait_fields d w0) as (_ & _ & _ & _ & Hs & Hr).
    split; [revert Ha; apply alloc_ok_same; auto|].
    intros q es Hq Hc. rewrite (cache_same_tree w0 _ q Hs Hr) in Hc. eauto.
  - intros name root opt. split; [apply alloc_ok_fresh|].
    intros q es _ Hc. rewrite unlisted_cache in Hc by reflexivity. discriminate.
Qed.

(** What [list] returns was built by [listObject] for the normalized
    path. *)
Lemma Fs_list_built remote w es w1 :
  reachable srv w -> Fs_list srv remote w = (Ok es, w1) ->
  exists items free, es = fst (entries_of (cleanPath remote) items free).
Proof.
  intros Hreach Hl.
  assert (w1 = step srv (Op_list remote) w) as Hw1 by (simpl; rewrite Hl; reflexivity).
  pose proof (reachable_step srv (Op_list remote) w Hreach) as Hreach1.
  rewrite <- Hw1 in Hreach1. destruct (reachable_built w1 Hreach1) as (_ & Hb).
  apply (Hb (cleanPath remote) es (cleanPath_idempotent remote)).
  eapply Fs_list_fill. exact Hl.
Qed.
End Built.

(** X8.  What [listObject] returns is decided by the answer of the remote
    to one object call.  It returns entries only for an answer with a
    response whose content type holds [json]; then there is one entry per
    item of the answer, in the order of the answer, with the identifier and
    the name of the item, the name joined to the path as full path, the
    modification time of the item and as size the summary size for a
    directory and the size for anything else; and an entry is a directory
    exactly when the type of its item is [d].  An answer without a response
    or of another content type gives the is-a-file error, a failed call its
    own error, and neither allocates a directory. *)
Theorem listObject_entries (srv : Server) (remote objId : string) (w : World) :
  objectCalls (snd (listObject srv remote objId w))
  = (objectCalls w
     ++ [(remote, objId,
          match fst (listObject srv remote objId w) with Ok _ => true | _ => false end)])%list
  /\ match fst (listObject srv remote objId w) with
     | Ok es =>
         exists resp body,
           objects_api srv (length (objectCalls w)) objId = inr (Some resp, body)
           /\ Contains (ContentType resp) "json" = true
           /\ map info_of es
              = map (fun item =>
                       ObjectInfo.mk (Entry.Obj item) (Entry.Name item)
                         (Join remote (Entry.Name item))
                         (if String.eqb (Entry.Type_ item) "d"
                          then Summary.Size (Entry.Summary item) else Entry.Size item)
                         (Entry.MTime item))
                  (FileResponse.Entries body)
           /\ forall i e item,
                es !! i = Some e -> FileResponse.Entries body !! i = Some item ->
                ((exists info addr, e = Directory info addr) <-> Entry.Type_ item = "d")
     | Err e =>
         next (snd (listObject srv remote objId w)) = next w
         /\ (objects_api srv (length (objectCalls w)) objId = inl e
             \/ e = ErrorIsFile
                /\ exists resp body,
                     objects_api srv (length (objectCalls w)) objId = inr (resp, body)
                     /\ forall r, resp = Some r -> Contains (ContentType r) "json" = false)
     | OutOfFuel => False
     end.
Proof.
  unfold listObject.
  destruct (objects_api srv (length (objectCalls w)) objId) as [e|[resp body]] eqn:Ea.
  - simpl. auto.
  - destruct resp as [r|].
    + destruct (Contains (ContentType r) "json") eqn:Ec; simpl.
      * pose proof (entries_of_info remote (FileResponse.Entries body) (next w)) as Hi.
        pose proof (entries_of_kind remote (FileResponse.Entries body) (next w)) as Hk.
        destruct (entries_of remote (FileResponse.Entries body) (next w)) as [es free].
        simpl in *. split; [reflexivity|]. exists r, body. auto.
      * split; [reflexivity|]. split; [reflexivity|]. right. split; [reflexivity|].
        exists (Some r), body. split; [reflexivity|]. intros r' [= <-]. exact Ec.
    + simpl. split; [reflexivity|]. split; [reflexivity|]. right. split; [reflexivity|].
      exists None, body. split; [reflexivity|]. intros r' H. discriminate.
Qed.

(** X9.  On a handle in any state, every entry of a listing that [list]
    returns, fetched by the call or held in the cache from before, has as
    full path the normalized path of the call joined with the name of the
    entry. *)
Theorem entry_paths (srv : Server) (w w1 : World) (remote : string) (es : DirEntries) :
  reachable srv w ->
  Fs_list srv remote w = (Ok es, w1) ->
  forall e, e ∈ es -> ObjectInfo.remote (info_of e) = Join (cleanPath remote) (Name e).
Proof.
  intros Hreach Hl e He.
  destruct (Fs_list_built srv remote w es w1 Hreach Hl) as (items & free & ->).
  eapply entries_of_remote. exact He.
Qed.

Lemma entry_paths_witness :
  ObjectInfo.remote (info_of (Object (ObjectInfo.mk "oc" "c" "a/b/c" 5 7)))
  = Join (cleanPath "a//b/") (Name (Object (ObjectInfo.mk "oc" "c" "a/b/c" 5 7))).
Proof.
  apply (entry_paths sample_server
           (run sample_server [OpList "a"; OpWait 5] (sample_world "latest"))
           (snd (Fs_list sample_server "a//b/"
                   (run sample_server [OpList "a"; OpWait 5] (sample_world "latest"))))
           "a//b/" [Object (ObjectInfo.mk "oc" "c" "a/b/c" 5 7)]).
  - exists "kopia", "", (sample_options "latest"), [OpList "a"; OpWait 5]. reflexivity.
  - vm_compute. reflexivity.
  - apply list_elem_of_here.
Defined.

(** X10.  [Items] of a directory follows the cache.  When [newObject]
    finds a directory, its [Items] is the number of entries of the listing
    that the cache holds for the path, and -1 when the cache holds none; once
    [list] of the path has succeeded it is the number of entries [list]
    returned, and stays so whatever operations follow. *)
Theorem Items_after_list (srv : Server) (w w1 w2 : World) (remote : string)
    (info : ObjectInfo.t) (addr : nat) (es : DirEntries) :
  newObject srv remote w = (Ok (Directory info addr), w1) ->
  Items (store w1) addr
  = match cache w1 (cleanPath remote) with
    | Some es' => Z.of_nat (length es')
    | None => -1
    end
  /\ (Fs_list srv remote w1 = (Ok es, w2) ->
      forall ops, Items (store (run srv ops w2)) addr = Z.of_nat (length es)).
Proof.
  intros Hn. destruct (Split (cleanPath remote)) as [dir file] eqn:Es.
  rewrite (newObject_unfold srv remote w dir file Es) in Hn.
  pose proof (Fs_list_fill srv dir w) as Hfill.
  destruct (Fs_list srv dir w) as [[parent|e0|] w'] eqn:Hl; try discriminate.
  destruct (String.eqb file "") eqn:Ef; [discriminate|].
  destruct (lookup_name file parent) as [item|] eqn:Hlook; [|discriminate].
  injection Hn as -> <-. specialize (Hfill parent w' eq_refl).
  assert (cleanPath remote <> "") as E.
  { intros E0. rewrite E0 in Es. injection Es as _ <-. discriminate. }
  split.
  - rewrite (cache_unfold _ _ E), cleanPath_idempotent, Es. simpl.
    rewrite Hfill, Ef, Hlook. reflexivity.
  - intros Hl2 ops.
    rewrite (Fs_list_below_clean srv remote w' dir file E Es) in Hl2.
    rewrite (Fs_list_hit srv dir w' parent Hfill), Hlook in Hl2.
    assert (store w2 !! addr = Some es) as Hs.
    { destruct (store w' !! addr) as [es'|] eqn:Est.
      - injection Hl2 as <- <-. exact Est.
      - destruct (listObject srv (cleanPath remote) (ObjectInfo.id info) w')
          as [[es'|e1|] w3]; try discriminate.
        injection Hl2 as <- <-. simpl. apply lookup_insert_eq. }
    destruct (run_extends srv ops w2) as (_ & Hsub).
    unfold Items. rewrite (lookup_weaken _ _ _ _ Hs Hsub). reflexivity.
Qed.

Lemma Items_after_list_witness :
  Items (store (run sample_server [OpWait 10; OpList "a/b"]
                  (snd (Fs_list sample_server "a" (sample_world "latest"))))) 0
  = Z.of_nat (length [Directory (ObjectInfo.mk "kb" "b" "a/b" 0 7) 1]).
Proof.
  refine (proj2 (Items_after_list sample_server (sample_world "latest")
            (snd (newObject sample_server "a" (sample_world "latest")))
            (snd (Fs_list sample_server "a" (sample_world "latest"))) "a"
            (ObjectInfo.mk "ka" "a" "a" 0 7) 0
            [Directory (ObjectInfo.mk "kb" "b" "a/b" 0 7) 1] _) _ [OpWait 10; OpList "a/b"]).
  - vm_compute. reflexivity.
  - vm_compute. reflexivity.
Defined.

(* ===================================================================== *)
(** ** Joining paths *)
(* ===================================================================== *)

Lemma join_slash_app a b :
  a <> [] -> b <> [] ->
  join_slash (a ++ b)%list = join_slash a ++ String slash (join_slash b).
Proof.
  induction a as [|x a IH]; intros Ha Hb; [congruence|].
  destruct a as [|y a].
  - simpl. destruct b; [congruence | reflexivity].
  - change (join_slash ((x :: y :: a) ++ b)%list)
      with (x ++ String slash (join_slash ((y :: a) ++ b)%list)).
    rewrite IH by (discriminate || exact Hb).
    change (join_slash (x :: y :: a)) with (x ++ String slash (join_slash (y :: a))).
    rewrite <- app_slash_assoc. reflexivity.
Qed.

(** The scan of [path.Clean] passes over empty elements. *)
Lemma fold_skip_empty rooted segs : forall out,
  fold_left (clean_step rooted) segs out
  = fold_left (clean_step rooted) (List.filter (fun seg => negb (String.eqb seg "")) segs) out.
Proof.
  induction segs as [|seg segs IH]; intros out; [reflexivity|]. simpl.
  destruct (String.eqb seg "") eqn:E; simpl.
  - apply String.eqb_eq in E. subst seg. rewrite clean_skip. apply IH.
  - apply IH.
Qed.

Lemma filter_plain segs :
  Forall (fun seg => seg <> "" /\ no_slash seg = true) segs ->
  List.filter (fun seg => negb (String.eqb seg "")) segs = segs.
Proof.
  induction 1 as [|seg segs (H1 & _) _ IH]; [reflexivity|]. simpl.
  apply String.eqb_neq in H1. rewrite H1, IH. reflexivity.
Qed.

(** [path.Clean] of elements joined by slashes, the first one not empty:
    when the elements that are not empty are [..] elements followed by
    names, they are the result. *)
Lemma Clean_segments first_ segs kept :
  first_ <> "" ->
  Forall (fun seg => no_slash seg = true) (first_ :: segs) ->
  kept = List.filter (fun seg => negb (String.eqb seg "")) (first_ :: segs) ->
  shaped false (rev kept) ->
  Clean (join_slash (first_ :: segs)) = join_slash kept.
Proof.
  intros Hf Hall Hk Hshape.
  assert (kept <> []) as Hne.
  { rewrite Hk. simpl. apply String.eqb_neq in Hf. rewrite Hf. discriminate. }
  pose proof (Forall_rev_inv _ _ (shaped_plain false (rev kept) Hshape)) as Hplain.
  destruct (join_plain kept Hne Hplain) as (H1 & _ & _).
  assert (join_slash (first_ :: segs) <> ""
          /\ forall s', join_slash (first_ :: segs) <> String slash s') as (Hp1 & Hp2).
  { inversion Hall as [|? ? Hn _]; subst.
    destruct first_ as [|c t]; [congruence|]. simpl in Hn.
    apply andb_true_iff in Hn as (Hc & _). apply negb_true_iff in Hc.
    destruct segs as [|s2 segs]; simpl; split; try discriminate;
      intros s' [= -> _]; simpl in Hc; discriminate. }
  rewrite (Clean_unrooted _ Hp1 Hp2), split_join by (discriminate || exact Hall).
  rewrite fold_skip_empty, <- Hk.
  assert (fold_left (clean_step false) kept [] = rev kept) as ->.
  { rewrite <- (rev_involutive kept) at 1. apply refold. exact Hshape. }
  rewrite rev_involutive. apply String.eqb_neq in H1. rewrite H1. reflexivity.
Qed.

(** A path of [..] elements followed by names: the shape of a normalized
    path other than the empty path and [.]. *)
Lemma Clean_shaped segs :
  segs <> [] -> shaped false (rev segs) -> Clean (join_slash segs) = join_slash segs.
Proof.
  intros Hne Hshape.
  pose proof (Forall_rev_inv _ _ (shaped_plain false (rev segs) Hshape)) as Hplain.
  destruct segs as [|x segs]; [congruence|].
  apply Clean_segments; [| |symmetry; apply filter_plain; exact Hplain|exact Hshape].
  - inversion Hplain as [|? ? (H & _) _]. exact H.
  - eapply Forall_impl; [exact Hplain|]. intros seg (_ & H). exact H.
Qed.

Lemma Clean_tidy s : tidy s -> Clean s = s.
Proof.
  intros (segs & -> & [->|(Hne & Hshape)]); [reflexivity|]. apply Clean_shaped; assumption.
Qed.

Lemma shaped_names sr sd :
  shaped false (rev sr) -> Forall normal sd -> shaped false (rev (sr ++ sd)).
Proof.
  intros (ns & ds & E & Hns & Hds & Hr) Hsd. rewrite rev_app_distr, E.
  exists (rev sd ++ ns)%list, ds. split; [apply app_assoc|]. split; [|auto].
  apply Forall_app. split; [apply Forall_rev; exact Hsd | exact Hns].
Qed.

Lemma normal_plain sd :
  Forall normal sd -> Forall (fun seg => seg <> "" /\ no_slash seg = true) sd.
Proof.
  intros H. eapply Forall_impl; [exact H|]. intros seg (H1 & _ & _ & H4). auto.
Qed.

(** [path.Join] of a normalized path and a relative path of names. *)
Lemma Join_names sr sd :
  sr <> [] -> shaped false (rev sr) -> Forall normal sd ->
  Join (join_slash sr) (join_slash sd) = join_slash (sr ++ sd).
Proof.
  intros Hne Hshape Hsd.
  pose proof (Forall_rev_inv _ _ (shaped_plain false (rev sr) Hshape)) as Hplain.
  destruct (join_plain sr Hne Hplain) as (H1 & _ & _).
  unfold Join. apply String.eqb_neq in H1. rewrite H1. simpl.
  destruct sd as [|d sd].
  - rewrite app_nil_r. change (join_slash []) with (join_slash [""]).
    rewrite <- join_slash_app by (assumption || discriminate).
    destruct sr as [|x sr]; [congruence|].
    apply (Clean_segments x (sr ++ [""])%list (x :: sr)).
    + inversion Hplain as [|? ? (H & _) _]. exact H.
    + change (x :: (sr ++ [""])%list) with ((x :: sr) ++ [""])%list.
      apply Forall_app. split; [|repeat constructor].
      eapply Forall_impl; [exact Hplain|]. intros seg (_ & H). exact H.
    + change (x :: (sr ++ [""])%list) with ((x :: sr) ++ [""])%list.
      rewrite List.filter_app, (filter_plain _ Hplain). simpl. rewrite app_nil_r.
      reflexivity.
    + exact Hshape.
  - rewrite <- join_slash_app by (assumption || discriminate).
    apply Clean_shaped; [destruct sr; discriminate|].
    apply shaped_names; assumption.
Qed.

(** [path.Join] of the two parts that [path.Split] gives for a normalized
    path is that path: the slash that the first part ends with is cleaned
    away. *)
Lemma Join_Split p :
  tidy p -> Join (fst (Split p)) (snd (Split p)) = p.
Proof.
  intros Ht. pose proof (Clean_tidy p Ht) as Hc.
  destruct Ht as (segs & -> & [->|(Hne & Hshape)]); [reflexivity|].
  pose proof (Forall_rev_inv _ _ (shaped_plain false (rev segs) Hshape)) as Hplain.
  destruct (exists_last Hne) as (pre & last_ & Hsegs). rewrite Hsegs in *.
  pose proof Hplain as Hplain'. apply Forall_app in Hplain' as (Hpre & Hlast).
  inversion Hlast as [|? ? (Hl1 & Hl2) _]; subst.
  rewrite (Split_join pre last_ Hl2). simpl.
  destruct pre as [|x pre].
  - simpl in *. unfold Join. simpl. apply String.eqb_neq in Hl1. rewrite Hl1. exact Hc.
  - unfold Join.
    assert (String.eqb (join_slash (x :: pre) ++ String slash "") "" = false) as ->.
    { apply String.eqb_neq. destruct (join_slash (x :: pre)); discriminate. }
    simpl andb. cbv iota.
    change (join_slash (x :: pre) ++ String slash "")
      with (join_slash (x :: pre) ++ String slash (join_slash [""])).
    rewrite <- join_slash_app by discriminate.
    change (join_slash ((x :: pre) ++ [""])%list ++ String slash last_)
      with (join_slash ((x :: pre) ++ [""])%list ++ String slash (join_slash [last_])).
    rewrite <- join_slash_app by (try discriminate; destruct pre; discriminate).
    rewrite <- app_assoc.
    apply (Clean_segments x (pre ++ [""; last_])%list).
    + inversion Hpre as [|? ? (H & _) _]. exact H.
    + change (x :: (pre ++ [""; last_])%list) with ((x :: pre) ++ [""; last_])%list.
      apply Forall_app. split; [|repeat constructor; exact Hl2].
      eapply Forall_impl; [exact Hpre|]. intros seg (_ & H). exact H.
    + change (x :: (pre ++ [""; last_])%list) with ((x :: pre) ++ [""; last_])%list.
      rewrite List.filter_app, (filter_plain _ Hpre). simpl.
      apply String.eqb_neq in Hl1. rewrite Hl1. reflexivity.
    + exact Hshape.
Qed.

Lemma slice_from_app a b : slice_from (String.length a) (a ++ b) = Some b.
Proof. induction a as [|c a IH]; [destruct b; reflexivity | exact IH]. Qed.

Lemma slice_from_slash a b :
  slice_from (String.length a + 1) (a ++ String slash b) = Some b.
Proof.
  induction a as [|c a IH]; [reflexivity | exact IH].
Qed.

(* ===================================================================== *)
(** ** NewFs and the paths relative to the root of the handle *)
(* ===================================================================== *)

Lemma slice_from_skip a n b : slice_from (String.length a + n) (a ++ b) = slice_from n b.
Proof. induction a as [|c a IH]; [reflexivity | exact IH]. Qed.

Lemma cleanPath_tidy_or_empty p : cleanPath p <> "" -> tidy (cleanPath p).
Proof. intros H. destruct (cleanPath_is_tidy p) as [E|Ht]; [contradiction | exact Ht]. Qed.

(** The two replacements of [NewFs] for the parent of a file never apply:
    the parent part of a normalized path is neither [.] nor [/]. *)
Lemma parent_not_dot p :
  tidy p ->
  String.eqb (fst (Split p)) "." || String.eqb (fst (Split p)) "/" = false.
Proof.
  intros Ht. destruct (tidy_parent p Ht) as [->|(q & Hq & ->)]; [reflexivity|].
  pose proof (tidy_nonempty q Hq) as Hne.
  destruct q as [|c q]; [congruence|].
  apply orb_false_iff. split; apply String.eqb_neq; intros E; simpl in E;
    injection E as _ E; destruct q; discriminate.
Qed.

Section NewFsFacts.
Variable srv : Server.

(** What [NewFs] leaves when the root names a file. *)
Lemma NewFs_file_facts name root_ opt e w :
  NewFs srv name root_ opt = (Ok (Some e), w) ->
  e = ErrorIsFile
  /\ tidy (cleanPath root_)
  /\ root (handle w) = fst (Split (cleanPath root_))
  /\ exists info,
       NewObject srv (snd (Split (cleanPath root_))) w = (Ok (Object info), w)
       /\ ObjectInfo.remote info = cleanPath root_
       /\ ObjectInfo.name info = snd (Split (cleanPath root_)).
Proof.
  unfold NewFs. set (p := cleanPath root_). set (w0 := fresh name p opt).
  destruct (String.eqb p "") eqn:Ep; simpl; [discriminate|].
  apply String.eqb_neq in Ep. pose proof (cleanPath_tidy_or_empty root_ Ep) as Ht.
  fold p in Ht. pose proof (cleanPath_tidy p Ht) as Hfix.
  destruct (Split p) as [dir file] eqn:Es.
  assert (Split (cleanPath p) = (dir, file)) as Es' by (rewrite Hfix; exact Es).
  rewrite (newObject_unfold srv p w0 dir file Es').
  assert (reachable srv w0) as Hreach0 by (exists name, p, opt, []; reflexivity).
  pose proof (Fs_list_fill srv dir w0) as Hfill.
  pose proof (Fs_list_built srv dir w0) as Hbuilt.
  destruct (Fs_list srv dir w0) as [[parent|e0|] w'] eqn:Hl; try discriminate.
  destruct (String.eqb file "") eqn:Ef; [discriminate|].
  destruct (lookup_name file parent) as [[info|info addr]|] eqn:Hlook; try discriminate.
  pose proof (parent_not_dot p Ht) as Hdead. rewrite Es in Hdead. simpl in Hdead.
  simpl fst. rewrite Hdead. intros [= <- <-].
  split; [reflexivity|]. split; [exact Ht|]. split; [reflexivity|].
  exists info. simpl snd.
  pose proof (Join_Split p Ht) as Hjoin. rewrite Es in Hjoin. simpl in Hjoin.
  specialize (Hfill parent w' eq_refl).
  destruct (Hbuilt parent w' Hreach0 eq_refl) as (items & free & Hparent).
  destruct (lookup_name_Some file parent _ Hlook) as (Hin & Hname).
  split; [|split; [|exact Hname]].
  - unfold NewObject. simpl root. rewrite Hjoin.
    rewrite (newObject_unfold srv p _ dir file Es').
    rewrite (Fs_list_hit srv dir (with_handle (set_root dir) w') parent);
      [rewrite Ef, Hlook; reflexivity|].
    rewrite (cache_same_tree w' (with_handle (set_root dir) w') _ eq_refl eq_refl).
    exact Hfill.
  - rewrite Hparent in Hin. pose proof (entries_of_remote _ _ _ _ Hin) as Hrem.
    unfold Name in Hname, Hrem. simpl in Hname, Hrem. rewrite Hrem, Hname.
    destruct (tidy_parent p Ht) as [Hd|(q & Hq & Hd)]; rewrite Es in Hd; simpl in Hd.
    + subst dir. exact Hjoin.
    + subst dir. rewrite (cleanPath_trailing q Hq).
      pose proof (Split_concat p) as Hcat. rewrite Es in Hcat. simpl in Hcat.
      rewrite <- app_slash_assoc in Hcat. change ("" ++ file) with file in Hcat.
      unfold Join. pose proof (tidy_nonempty q Hq) as Hq0.
      apply String.eqb_neq in Hq0. rewrite Hq0. simpl. rewrite <- Hcat.
      apply Clean_tidy. exact Ht.
Qed.
End NewFsFacts.

(** X11.  When [NewFs] returns a handle together with an error, the error
    is the is-a-file error and the root of the handle is the parent part of
    the normalized root as [path.Split] gives it: empty, or a normalized
    path followed by a slash (it is never replaced by the empty path for
    being [.] or [/]).  On that handle [NewObject] of the last element of the
    root returns the file, from the cache and without a remote call, and the
    full path of the file is the normalized root. *)
Theorem NewFs_on_file (srv : Server) (name root_ : string) (opt : Options.t)
    (e : error) (w : World) :
  NewFs srv name root_ opt = (Ok (Some e), w) ->
  e = ErrorIsFile
  /\ root (handle w) = fst (Split (cleanPath root_))
  /\ (root (handle w) = ""
      \/ exists q, cleanPath q = q /\ q <> ""
                   /\ root (handle w) = q ++ String slash "")
  /\ exists info,
       NewObject srv (snd (Split (cleanPath root_))) w = (Ok (Object info), w)
       /\ ObjectInfo.remote info = cleanPath root_
       /\ ObjectInfo.name info = snd (Split (cleanPath root_)).
Proof.
  intros H. destruct (NewFs_file_facts srv name root_ opt e w H) as (He & Ht & Hr & Hinfo).
  split; [exact He|]. split; [exact Hr|]. split; [|exact Hinfo].
  rewrite Hr. destruct (tidy_parent _ Ht) as [Hd|(q & Hq & Hd)]; [left; exact Hd|].
  right. exists q. split; [apply cleanPath_tidy; exact Hq|].
  split; [apply tidy_nonempty; exact Hq | exact Hd].
Qed.

Lemma NewFs_on_file_witness :
  root (handle (snd (NewFs sample_server "kopia" "/a/b/c" (sample_options "latest"))))
  = fst (Split (cleanPath "/a/b/c")).
Proof.
  refine (proj1 (proj2 (NewFs_on_file sample_server "kopia" "/a/b/c" (sample_options "latest")
                          ErrorIsFile
                          (snd (NewFs sample_server "kopia" "/a/b/c" (sample_options "latest")))
                          _))).
  vm_compute. reflexivity.
Defined.

(** X12.  When [NewFs] returns a handle and no error, the root of the
    handle is the normalized root, a normalized path.  When that is the empty
    path, nothing was requested from the remote; when it is not, [newObject]
    of the root finds a directory, from the cache and without a remote
    call. *)
Theorem NewFs_handle_root (srv : Server) (name root_ : string) (opt : Options.t) (w : World) :
  NewFs srv name root_ opt = (Ok None, w) ->
  root (handle w) = cleanPath root_
  /\ cleanPath (root (handle w)) = root (handle w)
  /\ (cleanPath root_ = "" -> snapshotCalls w = 0%nat /\ objectCalls w = [])
  /\ (cleanPath root_ <> "" ->
      exists info addr,
        newObject srv (root (handle w)) w = (Ok (Directory info addr), w)).
Proof.
  unfold NewFs. set (p := cleanPath root_). set (w0 := fresh name p opt).
  destruct (String.eqb p "") eqn:Ep; simpl.
  - intros [= <-]. apply String.eqb_eq in Ep. simpl.
    split; [reflexivity|]. split; [apply cleanPath_idempotent|]. split; [auto|].
    intros H. contradiction.
  - apply String.eqb_neq in Ep.
    pose proof (newObject_world srv p w0) as Hw.
    pose proof (Fs_list_handle srv (fst (Split (cleanPath p))) w0) as Hroot.
    destruct (Split (cleanPath p)) as [dir file] eqn:Es.
    pose proof (newObject_unfold srv p w0 dir file Es) as Hn.
    pose proof (Fs_list_fill srv dir w0) as Hfill.
    destruct (newObject srv p w0) as [[[info|info addr]|e0|] w'] eqn:Hnew; try discriminate.
    intros [= Hww]. subst w. simpl in Hw, Hroot. rewrite <- Hw in Hroot.
    split; [exact Hroot|]. rewrite Hroot. simpl.
    split; [apply cleanPath_idempotent|]. split; [intros H; contradiction|]. intros _.
    exists info, addr. destruct (Fs_list srv dir w0) as [[parent|e1|] w1] eqn:Hl;
      try (destruct (String.eqb file ""); discriminate).
    destruct (String.eqb file "") eqn:Ef; [discriminate|].
    destruct (lookup_name file parent) as [item|] eqn:Hlook; [|discriminate].
    injection Hn as Hi Hw1. subst item w1.
    rewrite (newObject_unfold srv p w' dir file Es).
    rewrite (Fs_list_hit srv dir w' parent (Hfill parent w' eq_refl)), Ef, Hlook.
    reflexivity.
Qed.

Lemma NewFs_handle_root_witness :
  exists info addr,
    newObject sample_server
      (root
         (handle (snd (NewFs sample_server "kopia" "a//b/" (sample_options "latest")))))
      (snd (NewFs sample_server "kopia" "a//b/" (sample_options "latest")))
    = (Ok (Directory info addr),
       snd (NewFs sample_server "kopia" "a//b/" (sample_options "latest"))).
Proof.
  refine (proj2 (proj2 (proj2 (NewFs_handle_root sample_server "kopia" "a//b/"
            (sample_options "latest")
            (snd (NewFs sample_server "kopia" "a//b/" (sample_options "latest"))) _))) _).
  - vm_compute. reflexivity.
  - discriminate.
Defined.

(** X13.  On a handle whose root is a normalized path other than the empty
    path and [.] (elements [..] followed by names), for a directory given as
    names joined by slashes (or the empty path): every entry with an ordinary
    name in the listing that [List] of the directory returns has as [Remote]
    the directory joined with its name, the path relative to the root. *)
Theorem Remote_relative (srv : Server) (w w1 : World) (sr sd : list string)
    (es : DirEntries) (e : DirEntry) :
  reachable srv w ->
  sr <> [] -> shaped false (rev sr) ->
  root (handle w) = join_slash sr ->
  Forall normal sd ->
  List srv (join_slash sd) w = (Ok es, w1) ->
  e ∈ es -> normal (Name e) ->
  Remote (handle w1) (info_of e) = Some (join_slash (sd ++ [Name e])).
Proof.
  intros Hreach Hne Hshape Hroot Hsd Hl He Hname. unfold List in Hl.
  rewrite Hroot, (Join_names sr sd Hne Hshape Hsd) in Hl.
  pose proof (Fs_list_handle srv (join_slash (sr ++ sd)) w) as Hr1.
  rewrite Hl in Hr1. simpl in Hr1.
  destruct (Fs_list_built srv _ w es w1 Hreach Hl) as (items & free & ->).
  assert ((sr ++ sd)%list <> []) as Hne' by (destruct sr; [congruence | discriminate]).
  pose proof (shaped_names sr sd Hshape Hsd) as Hshape'.
  rewrite cleanPath_tidy in He by (exists (sr ++ sd)%list; auto).
  pose proof (entries_of_remote _ _ _ _ He) as Hrem.
  change (Name e) with (join_slash [Name e]) in Hrem.
  rewrite (Join_names (sr ++ sd) [Name e] Hne' Hshape') in Hrem
    by (constructor; [exact Hname | constructor]).
  rewrite <- app_assoc, join_slash_app in Hrem by (try assumption; destruct sd; discriminate).
  pose proof (Forall_rev_inv _ _ (shaped_plain false (rev sr) Hshape)) as Hplain.
  destruct (join_plain sr Hne Hplain) as (H1 & _ & _).
  unfold Remote. rewrite Hr1, Hroot, Hrem.
  destruct (join_slash sr) as [|c r] eqn:Er; [congruence|].
  change (Nat.eqb (String.length (String c r)) 0) with false. cbv iota.
  apply slice_from_slash.
Qed.

Lemma Remote_relative_witness :
  Remote
    (handle (snd (List sample_server "b"
                    (snd (NewFs sample_server "kopia" "a" (sample_options "latest"))))))
    (info_of (Object (ObjectInfo.mk "oc" "c" "a/b/c" 5 7)))
  = Some (join_slash (["b"] ++ [Name (Object (ObjectInfo.mk "oc" "c" "a/b/c" 5 7))])).
Proof.
  apply (Remote_relative sample_server
           (snd (NewFs sample_server "kopia" "a" (sample_options "latest")))
           (snd (List sample_server "b"
                   (snd (NewFs sample_server "kopia" "a" (sample_options "latest")))))
           ["a"] ["b"] [Object (ObjectInfo.mk "oc" "c" "a/b/c" 5 7)]).
  - apply NewFs_reachable.
  - discriminate.
  - exists ["a"], []. split; [reflexivity|].
    split; [constructor; [repeat split; discriminate | constructor]|].
    split; [constructor | discriminate].
  - vm_compute. reflexivity.
  - constructor; [repeat split; discriminate | constructor].
  - vm_compute. reflexivity.
  - apply list_elem_of_here.
  - repeat split; discriminate.
Defined.

(** X14.  [Remote] takes the root of the handle to have no slash at its
    end.  On the handle that [NewFs] returns for a root that names a file
    below the top, the root ends with a slash, and [Remote] of that file is
    its name without the first byte; for a file at the top the root is empty
    and [Remote] is the name. *)
Theorem Remote_on_file_root (srv : Server) (name root_ : string) (opt : Options.t)
    (e : error) (w : World) :
  NewFs srv name root_ opt = (Ok (Some e), w) ->
  exists info,
    NewObject srv (snd (Split (cleanPath root_))) w = (Ok (Object info), w)
    /\ (root (handle w) = "" ->
        Remote (handle w) info = Some (snd (Split (cleanPath root_))))
    /\ (root (handle w) <> "" ->
        exists c rest,
          snd (Split (cleanPath root_)) = String c rest
          /\ Remote (handle w) info = Some rest).
Proof.
  intros H.
  destruct (NewFs_file_facts srv name root_ opt e w H) as (_ & Ht & Hr & info & Hn & Hrem & _).
  exists info. split; [exact Hn|].
  pose proof (Split_concat (cleanPath root_)) as Hcat. rewrite <- Hr in Hcat.
  pose proof (clean_file_nonempty root_ (tidy_nonempty _ Ht)) as Hfile.
  unfold Remote. rewrite Hrem. split.
  - intros E. rewrite E in *. simpl Nat.eqb. cbv iota. f_equal. exact Hcat.
  - intros E. destruct (snd (Split (cleanPath root_))) as [|c rest]; [congruence|].
    exists c, rest. split; [reflexivity|].
    destruct (root (handle w)) as [|c0 r0] eqn:Er; [congruence|].
    change (Nat.eqb (String.length (String c0 r0)) 0) with false. cbv iota.
    rewrite Hcat. rewrite (slice_from_skip (String c0 r0) 1 (String c rest)). reflexivity.
Qed.

Lemma Remote_on_file_root_witness :
  exists info,
    NewObject sample_server (snd (Split (cleanPath "a/b/c")))
      (snd (NewFs sample_server "kopia" "a/b/c" (sample_options "latest")))
    = (Ok (Object info), snd (NewFs sample_server "kopia" "a/b/c" (sample_options "latest")))
    /\ exists c rest,
         snd (Split (cleanPath "a/b/c")) = String c rest
         /\ Remote (handle (snd (NewFs sample_server "kopia" "a/b/c" (sample_options "latest"))))
              info = Some rest.
Proof.
  destruct (Remote_on_file_root sample_server "kopia" "a/b/c" (sample_options "latest")
              ErrorIsFile
              (snd (NewFs sample_server "kopia" "a/b/c" (sample_options "latest"))))
    as (info & H1 & _ & H3).
  - vm_compute. reflexivity.
  - exists info. split; [exact H1|]. apply H3. vm_compute. discriminate.
Defined.

(* ===================================================================== *)
(** ** The pace and the soundness of the resolution *)
(* ===================================================================== *)

Lemma rate_ok_same w w' :
  initOnce (handle w') = initOnce (handle w) -> sleepers w' = sleepers w ->
  clock w' = clock w -> snapshotCalls w' = snapshotCalls w ->
  rate_ok w -> rate_ok w'.
Proof. intros Hi Hs Hc Hn. unfold rate_ok. rewrite Hi, Hs, Hc, Hn. auto. Qed.

Lemma same_gate_rate w w' : same_gate w w' -> rate_ok w -> rate_ok w'.
Proof.
  intros (_ & _ & _ & Hi & _ & Hs & Hc & Hn). apply rate_ok_same; congruence.
Qed.

Lemma wait_rate d w : 0 <= d -> rate_ok w -> rate_ok (wait d w).
Proof.
  intros Hd (H1 & H2 & H3). unfold rate_ok, wait. simpl.
  change (3 * Second) with 3000 in *. split; [|split].
  - destruct (filter (fun wake => wake <= clock w + d) (sleepers w)) as [|t ts] eqn:Ef.
    + intros Hi. specialize (H1 Hi). lia.
    + intros _. assert (t ∈ filter (fun wake => wake <= clock w + d) (sleepers w)) as Ht
        by (rewrite Ef; apply list_elem_of_here).
      apply list_elem_of_filter in Ht as (Hle & Hin). specialize (H2 t Hin). lia.
  - intros t Ht. apply list_elem_of_filter in Ht as (_ & Hin). auto.
  - lia.
Qed.

Section Pace.
Variable srv : Server.

Lemma getRootId_rate w :
  (exists p, in_phase w p) -> rate_ok w -> rate_ok (snd (getRootId srv w)).
Proof.
  intros (p & Hp) Hr. destruct p as [| |t|].
  - pose proof Hp as (Hi & Hid & Hs). destruct Hr as (H1 & _ & _). specialize (H1 Hi).
    rewrite getRootId_world. unfold Once_Do. rewrite Hi.
    unfold rate_ok, resolve. change (3 * Second) with 3000 in *.
    destruct (snapshots_api srv _ _ _ _) as [e|result]; simpl.
    + rewrite Hs. split; [discriminate|]. split; [|lia]. intros t Ht. inversion Ht.
    + destruct (scan _ _) as [[i s]|]; simpl;
        destruct (String.eqb _ ""); simpl; rewrite Hs; simpl;
        (split; [discriminate|]); (split; [|lia]); intros t Ht;
        try (apply list_elem_of_singleton in Ht; subst t; lia); inversion Ht.
  - rewrite (getRootId_resolved srv w Hp). exact Hr.
  - destruct Hp as (Hi & Hid & _). rewrite (getRootId_failed srv w Hi Hid). exact Hr.
  - destruct Hp as (Hi & Hid & _). rewrite (getRootId_failed srv w Hi Hid). exact Hr.
Qed.

Lemma step_rate op w :
  (exists p, in_phase w p) -> rate_ok w -> rate_ok (step srv op w).
Proof.
  intros Hp Hr. destruct op;
    try (match goal with
         | |- rate_ok (step srv ?op w) => destruct (step_gate srv op w I) as [H|H]
         end;
         [eapply same_gate_rate; [exact H | exact Hr]
         |eapply same_gate_rate; [exact H | apply getRootId_rate; assumption]]; fail).
  - simpl. revert Hr. apply rate_ok_same; reflexivity.
  - simpl. destruct (0 <=? d) eqn:E; [|exact Hr]. apply wait_rate; [lia | exact Hr].
Qed.

Lemma run_rate ops : forall w,
  (exists p, in_phase w p) -> rate_ok w -> rate_ok (run srv ops w).
Proof.
  induction ops as [|op ops IH]; intros w Hp Hr; [exact Hr|].
  change (run srv (op :: ops) w) with (run srv ops (step srv op w)).
  apply IH; [apply step_phase; exact Hp | apply step_rate; assumption].
Qed.

Lemma reachable_rate w : reachable srv w -> rate_ok w.
Proof.
  intros (name & root & opt & ops & ->). apply run_rate.
  - exists Unresolved. apply fresh_unresolved.
  - unfold rate_ok. simpl. change (3 * Second) with 3000. repeat split; try lia.
    intros t Ht. inversion Ht.
Qed.
End Pace.

(** The scan breaks at a snapshot it accepts, the one closest to the end. *)
Lemma scan_from_sound spec snapshots : forall n i s,
  scan_from spec snapshots n = Some (i, s) ->
  (i < n)%nat /\ snapshots !! i = Some s /\ hit spec s = true
  /\ forall j s', (i < j < n)%nat -> snapshots !! j = Some s' -> hit spec s' = false.
Proof.
  induction n as [|n IH]; intros i s; simpl; [discriminate|].
  destruct (snapshots !! n) as [sn|] eqn:En.
  - unfold hit.
    destruct (String.eqb spec (Snapshot.RootID sn)) eqn:E1;
      [|destruct (accepts spec sn) eqn:E2].
    + intros [= <- <-]. rewrite E1.
      split; [lia|]. split; [exact En|]. split; [reflexivity|]. intros j s' Hj. lia.
    + intros [= <- <-]. rewrite E1, E2.
      split; [lia|]. split; [exact En|]. split; [reflexivity|]. intros j s' Hj. lia.
    + intros H. destruct (IH i s H) as (Hi & Hs & Hh & Hlater).
      split; [lia|]. split; [exact Hs|]. split; [exact Hh|]. intros j s' Hj Hs'.
      destruct (decide (j = n)) as [->|Hne].
      * rewrite En in Hs'. injection Hs' as <-. rewrite E1, E2. reflexivity.
      * apply (Hlater j s'); [lia | exact Hs'].
  - intros H. destruct (IH i s H) as (Hi & Hs & Hh & Hlater).
    split; [lia|]. split; [exact Hs|]. split; [exact Hh|]. intros j s' Hj Hs'.
    destruct (decide (j = n)) as [->|Hne]; [congruence|].
    apply (Hlater j s'); [lia | exact Hs'].
Qed.

Lemma accepts_sound spec s :
  accepts spec s = true ->
  incomplete s = false
  /\ (spec = "" \/ spec = "latest" \/ (spec = "pin" /\ Snapshot.Pins s <> [])).
Proof.
  unfold accepts, incomplete. intros H. apply andb_true_iff in H as (H1 & H2).
  apply negb_true_iff in H1. split; [exact H1|].
  apply orb_true_iff in H2 as [H2|H2].
  - apply andb_true_iff in H2 as (H2 & H3). apply String.eqb_eq in H2.
    right. right. split; [exact H2|]. destruct (Snapshot.Pins s); [discriminate|discriminate].
  - apply orb_true_iff in H2 as [H2|H2]; apply String.eqb_eq in H2; auto.
Qed.

Section Soundness.
Variable srv : Server.

Lemma getRootId_opt w : opt (handle (snd (getRootId srv w))) = opt (handle w).
Proof.
  rewrite getRootId_world. unfold Once_Do. destruct (initOnce (handle w)); [reflexivity|].
  unfold resolve. destruct (snapshots_api _ _ _ _ _) as [e|result]; simpl; [reflexivity|].
  destruct (scan _ _) as [[i s]|]; simpl; destruct (String.eqb _ ""); reflexivity.
Qed.

(** What an attempt with the gate open leaves as root identifier. *)
Lemma resolve_root w :
  initOnce (handle w) = false ->
  rootId (handle (snd (getRootId srv w)))
  = match api_answer srv w with
    | inl _ => rootId (handle w)
    | inr result =>
        match scan (Options.Snapshot (opt (handle w))) (SnapshotResponse.Snapshots result) with
        | Some (_, s) => Snapshot.RootID s
        | None => rootId (handle w)
        end
    end.
Proof.
  intros Hi. rewrite getRootId_world. unfold Once_Do. rewrite Hi.
  unfold resolve, api_answer.
  destruct (snapshots_api _ _ _ _ _) as [e|result]; simpl; [reflexivity|].
  destruct (scan _ _) as [[i s]|]; simpl; destruct (String.eqb _ ""); reflexivity.
Qed.

Lemma hit_explicit spec s : explicit spec -> hit spec s = true -> Snapshot.RootID s = spec.
Proof.
  intros (H1 & H2 & H3) Hh. unfold hit in Hh. apply orb_true_iff in Hh as [Hh|Hh].
  - apply String.eqb_eq in Hh. congruence.
  - destruct (accepts_sound spec s Hh) as (_ & [E|[E|(E & _)]]); congruence.
Qed.

Lemma explicit_ok_same w w' :
  opt (handle w') = opt (handle w) -> rootId (handle w') = rootId (handle w) ->
  explicit_ok w -> explicit_ok w'.
Proof. intros Ho Hr. unfold explicit_ok. rewrite Ho, Hr. auto. Qed.

Lemma getRootId_explicit w :
  (exists p, in_phase w p) -> explicit_ok w -> explicit_ok (snd (getRootId srv w)).
Proof.
  intros (p & Hp) Hk. unfold explicit_ok. rewrite getRootId_opt. intros He.
  destruct p as [| |t|].
  - destruct Hp as (Hi & Hid & _). rewrite (resolve_root w Hi).
    destruct (api_answer srv w) as [e|result]; [left; exact Hid|].
    destruct (scan _ _) as [[i s]|] eqn:Es; [|left; exact Hid].
    right. apply scan_from_sound in Es as (_ & _ & Hh & _). apply hit_explicit; assumption.
  - rewrite (getRootId_resolved srv w Hp). apply Hk. exact He.
  - destruct Hp as (Hi & Hid & _). rewrite (getRootId_failed srv w Hi Hid). auto.
  - destruct Hp as (Hi & Hid & _). rewrite (getRootId_failed srv w Hi Hid). auto.
Qed.

Lemma step_explicit op w :
  (exists p, in_phase w p) -> explicit_ok w -> explicit_ok (step srv op w).
Proof.
  intros Hp Hk. destruct op;
    try (match goal with
         | |- explicit_ok (step srv ?op w) => destruct (step_gate srv op w I) as [H|H]
         end;
         [destruct H as (_ & _ & Ho & _ & Hr & _);
          eapply explicit_ok_same; [symmetry; exact Ho | symmetry; exact Hr | exact Hk]
         |destruct H as (_ & _ & Ho & _ & Hr & _);
          eapply explicit_ok_same;
            [symmetry; exact Ho | symmetry; exact Hr | apply getRootId_explicit; assumption]];
         fail).
  - simpl. revert Hk. apply explicit_ok_same; reflexivity.
  - simpl. destruct (0 <=? d); [|exact Hk]. revert Hk. apply explicit_ok_same.
    + unfold wait. simpl. destruct (filter _ (sleepers w)); reflexivity.
    + apply wait_fields.
Qed.

Lemma reachable_explicit w : reachable srv w -> explicit_ok w.
Proof.
  intros (name & root & opt & ops & ->).
  assert (forall ops w, (exists p, in_phase w p) -> explicit_ok w ->
                        explicit_ok (run srv ops w)) as Hrun.
  { clear ops. induction ops as [|op ops IH]; intros w Hp Hk; [exact Hk|].
    change (run srv (op :: ops) w) with (run srv ops (step srv op w)).
    apply IH; [apply step_phase; exact Hp | apply step_explicit; assumption]. }
  apply Hrun; [exists Unresolved; apply fresh_unresolved|].
  intros _. left. reflexivity.
Qed.
End Soundness.

(** X15.  The snapshot list is requested at most once every three seconds:
    on a handle in any state, with [n] snapshot-list calls made since the
    handle was built, at least [3(n-1)] seconds have passed. *)
Theorem snapshot_pace (srv : Server) (w : World) :
  reachable srv w ->
  3 * Second * (Z.of_nat (snapshotCalls w) - 1) <= clock w.
Proof. intros H. apply (reachable_rate srv w H). Qed.

Lemma snapshot_pace_witness :
  3 * Second
  * (Z.of_nat (snapshotCalls
                 (run empty_server
                    [OpGetRootId; OpList "a"; OpWait 2999; OpGetRootId; OpWait 1; OpNewObject "x"]
                    (sample_world "latest"))) - 1)
  <= clock (run empty_server
              [OpGetRootId; OpList "a"; OpWait 2999; OpGetRootId; OpWait 1; OpNewObject "x"]
              (sample_world "latest")).
Proof.
  apply (snapshot_pace empty_server).
  exists "kopia", "", (sample_options "latest"),
    [OpGetRootId; OpList "a"; OpWait 2999; OpGetRootId; OpWait 1; OpNewObject "x"].
  reflexivity.
Defined.

(** X16.  What [getRootId] returns is sound.  When an attempt with the
    gate open gets a snapshot list and returns a root identifier, that
    identifier is not empty and is the [RootID] of a snapshot of the list;
    either it equals the specifier, or the snapshot is not tagged incomplete
    and the specifier is empty, [latest], or [pin] with the snapshot pinned;
    and no snapshot closer to the end of the list has the specifier as
    [RootID] or passes that test. *)
Theorem resolved_root_sound (srv : Server) (w : World) (result : SnapshotResponse.t)
    (r : string) :
  reachable srv w ->
  initOnce (handle w) = false ->
  api_answer srv w = inr result ->
  fst (getRootId srv w) = Ok r ->
  r <> ""
  /\ exists i s,
       SnapshotResponse.Snapshots result !! i = Some s
       /\ Snapshot.RootID s = r
       /\ (Options.Snapshot (opt (handle w)) = r
           \/ incomplete s = false
              /\ (Options.Snapshot (opt (handle w)) = ""
                  \/ Options.Snapshot (opt (handle w)) = "latest"
                  \/ Options.Snapshot (opt (handle w)) = "pin" /\ Snapshot.Pins s <> []))
       /\ forall j s', (i < j)%nat -> SnapshotResponse.Snapshots result !! j = Some s' ->
                       Snapshot.RootID s' <> Options.Snapshot (opt (handle w))
                       /\ accepts (Options.Snapshot (opt (handle w))) s' = false.
Proof.
  intros Hreach Hi Hapi Hres.
  destruct (reachable_phase srv w Hreach) as (p & Hp).
  assert (rootId (handle w) = "") as Hid.
  { destruct p; destruct Hp as (Hi' & Hr' & _); congruence. }
  rewrite getRootId_result in Hres.
  destruct (String.eqb (rootId (handle (snd (getRootId srv w)))) "") eqn:E; [discriminate|].
  injection Hres as Hr. apply String.eqb_neq in E.
  rewrite (resolve_root srv w Hi), Hapi in Hr, E.
  destruct (scan _ _) as [[i s]|] eqn:Es; [|congruence].
  split; [congruence|]. exists i, s.
  apply scan_from_sound in Es as (_ & Hs & Hh & Hlater).
  split; [exact Hs|]. split; [exact Hr|]. split.
  - unfold hit in Hh. apply orb_true_iff in Hh as [Hh|Hh].
    + left. apply String.eqb_eq in Hh. congruence.
    + right. apply accepts_sound. exact Hh.
  - intros j s' Hj Hs'.
    assert (j < length (SnapshotResponse.Snapshots result))%nat as Hlen
      by (eapply lookup_lt_Some; exact Hs').
    specialize (Hlater j s' (conj Hj Hlen) Hs'). unfold hit in Hlater.
    apply orb_false_iff in Hlater as (H1 & H2). apply String.eqb_neq in H1.
    split; [congruence | exact H2].
Qed.

Lemma resolved_root_sound_witness :
  "kroot" <> ""
  /\ exists i s,
       [snapshot_of "s1" "kroot" [] []] !! i = Some s /\ Snapshot.RootID s = "kroot".
Proof.
  destruct (resolved_root_sound sample_server (sample_world "latest")
              (SnapshotResponse.mk [snapshot_of "s1" "kroot" [] []] 1 1) "kroot")
    as (H1 & i & s & H2 & H3 & _).
  - exists "kopia", "", (sample_options "latest"), []. reflexivity.
  - reflexivity.
  - reflexivity.
  - reflexivity.
  - split; [exact H1|]. exists i, s. split; assumption.
Defined.

(** X17.  With a specifier that is none of the keywords (not empty, not
    [latest], not [pin]), a handle never takes another root: in every state
    of the handle its root identifier is empty or the specifier, and whenever
    [getRootId] returns a root identifier it is the specifier. *)
Theorem explicit_root_only (srv : Server) (w : World) :
  reachable srv w ->
  explicit (Options.Snapshot (opt (handle w))) ->
  (rootId (handle w) = "" \/ rootId (handle w) = Options.Snapshot (opt (handle w)))
  /\ forall r w1, getRootId srv w = (Ok r, w1) -> r = Options.Snapshot (opt (handle w)).
Proof.
  intros Hreach He. split; [apply (reachable_explicit srv w Hreach He)|].
  intros r w1 Hg.
  pose proof (reachable_step srv OpGetRootId w Hreach) as Hreach1. simpl in Hreach1.
  pose proof (reachable_explicit srv _ Hreach1) as Hk. unfold explicit_ok in Hk.
  rewrite getRootId_opt in Hk. specialize (Hk He).
  pose proof (getRootId_result srv w) as Hres. rewrite Hg in Hres, Hk. simpl in Hres, Hk.
  destruct (String.eqb (rootId (handle w1)) "") eqn:E; [discriminate|].
  injection Hres as ->. apply String.eqb_neq in E. destruct Hk; congruence.
Qed.

Lemma explicit_root_only_witness :
  rootId (handle (run sample_server [OpList "a"; OpWait 4000] (sample_world "kroot"))) = ""
  \/ rootId (handle (run sample_server [OpList "a"; OpWait 4000] (sample_world "kroot")))
     = Options.Snapshot
         (opt (handle (run sample_server [OpList "a"; OpWait 4000] (sample_world "kroot")))).
Proof.
  refine (proj1 (explicit_root_only sample_server
                   (run sample_server [OpList "a"; OpWait 4000] (sample_world "kroot")) _ _)).
  - exists "kopia", "", (sample_options "kroot"), [OpList "a"; OpWait 4000]. reflexivity.
  - vm_compute. repeat split; discriminate.
Defined.

(* ===================================================================== *)
(** ** The cost of the walk *)
(* ===================================================================== *)

(** A normalized path has one element more than its parent. *)
Lemma elements_parent q :
  tidy q -> elements q = S (elements (cleanPath (fst (Split q)))).
Proof.
  intros (segs & -> & [->|(Hne & Hshape)]); [reflexivity|].
  pose proof (Forall_rev_inv _ _ (shaped_plain false (rev segs) Hshape)) as Hplain.
  assert (forall l, l <> [] -> Forall (fun seg => seg <> "" /\ no_slash seg = true) l ->
                    elements (join_slash l) = length l) as Hel.
  { intros l Hl Hp. destruct (join_plain l Hl Hp) as (H1 & _ & _).
    unfold elements. apply String.eqb_neq in H1. rewrite H1.
    rewrite split_join; [reflexivity | exact Hl|].
    eapply Forall_impl; [exact Hp|]. intros seg (_ & H). exact H. }
  rewrite (Hel segs Hne Hplain).
  destruct (exists_last Hne) as (pre & last_ & Hsegs). rewrite Hsegs in *.
  pose proof Hplain as Hplain'. apply Forall_app in Hplain' as (Hpre & Hlast).
  inversion Hlast as [|? ? (Hl1 & Hl2) _]; subst.
  rewrite (Split_join pre last_ Hl2), length_app. simpl.
  destruct pre as [|x pre]; [reflexivity|].
  rewrite cleanPath_trailing.
  - rewrite (Hel (x :: pre)) by (discriminate || exact Hpre). simpl. lia.
  - exists (x :: pre). split; [reflexivity|]. right. split; [discriminate|].
    rewrite rev_app_distr in Hshape. simpl in Hshape. eapply shaped_tail. exact Hshape.
Qed.

Section Cost.
Variable srv : Server.

Lemma listObject_calls remote objId w :
  length (objectCalls (snd (listObject srv remote objId w))) = S (length (objectCalls w)).
Proof.
  destruct (listObject_answer srv remote objId w) as [(e & ->)|(items & _ & ->)]; simpl;
    rewrite length_app; simpl; lia.
Qed.

Lemma getRootId_calls w :
  (snapshotCalls (snd (getRootId srv w)) <= S (snapshotCalls w))%nat.
Proof.
  rewrite getRootId_world. unfold Once_Do. destruct (initOnce (handle w)); [lia|].
  unfold resolve. destruct (snapshots_api _ _ _ _ _) as [e|result]; simpl; [lia|].
  destruct (scan _ _) as [[i s]|]; simpl; destruct (String.eqb _ ""); simpl; lia.
Qed.

(** [list] requests at most one object for the root and one for each
    element of the path. *)
Lemma Fs_list_calls remote : forall w,
  (length (objectCalls (snd (Fs_list srv remote w)))
   <= length (objectCalls w) + S (elements (cleanPath remote)))%nat.
Proof.
  remember (String.length remote) as n eqn:Hn. revert remote Hn.
  induction n as [n IH] using lt_wf_ind. intros remote Hn w.
  destruct (String.eqb (cleanPath remote) "") eqn:E.
  - apply String.eqb_eq in E. rewrite (Fs_list_root srv remote w E), E.
    destruct (rootEntries (handle w)); [simpl; lia|].
    destruct (getRootId_cache srv w) as (_ & _ & Hc).
    destruct (getRootId srv w) as [[r|e|] wr]; simpl in Hc; rewrite <- Hc;
      [|simpl; lia|simpl; lia].
    pose proof (listObject_calls "" r wr) as Hl.
    destruct (listObject srv "" r wr) as [[es|e|] w2]; simpl in *; lia.
  - apply String.eqb_neq in E.
    destruct (Split (cleanPath remote)) as [dir file] eqn:Es.
    rewrite (Fs_list_below_clean srv remote w dir file E Es).
    pose proof (dir_shorter remote (cleanPath_nonempty _ ltac:(apply String.eqb_neq; exact E)))
      as Hd.
    rewrite cleanPath_idempotent, Es in Hd. simpl in Hd.
    specialize (IH (String.length dir) ltac:(lia) dir eq_refl w).
    rewrite (elements_parent _ (cleanPath_tidy_or_empty remote E)), Es. simpl fst.
    destruct (Fs_list srv dir w) as [[parent|e|] w']; simpl in IH; [|simpl; lia|simpl; lia].
    destruct (lookup_name file parent) as [[info|info addr]|]; [simpl; lia| |simpl; lia].
    destruct (store w' !! addr); [simpl; lia|].
    pose proof (listObject_calls (cleanPath remote) (ObjectInfo.id info) w') as Hl.
    destruct (listObject srv (cleanPath remote) (ObjectInfo.id info) w') as [[es|e|] w2];
      simpl in *; lia.
Qed.

Lemma Fs_list_snapshot_calls remote w :
  (snapshotCalls (snd (Fs_list srv remote w)) <= S (snapshotCalls w))%nat.
Proof.
  pose proof (getRootId_calls w) as Hg.
  destruct (list_fuel_gate srv (S (String.length remote)) remote w) as [H|H];
    destruct H as (_ & _ & _ & _ & _ & _ & _ & Hn); unfold Fs_list; rewrite <- Hn; lia.
Qed.
End Cost.

(** X18.  One call of [list] requests at most one object for the root and
    one for each element of the normalized path, and asks at most once for
    the snapshot list. *)
Theorem list_cost (srv : Server) (remote : string) (w : World) :
  (length (objectCalls (snd (Fs_list srv remote w)))
   <= length (objectCalls w) + S (elements (cleanPath remote)))%nat
  /\ (snapshotCalls (snd (Fs_list srv remote w)) <= S (snapshotCalls w))%nat.
Proof. split; [apply Fs_list_calls | apply Fs_list_snapshot_calls]. Qed.

(** X19.  Once the parent of a path has been listed, what [newObject]
    finds for the path is settled: the call that listed the parent and every
    later call, whatever operations lie in between, give the same answer (the
    same entry, or the same error), and the later calls leave the world as it
    is, requesting nothing from the remote. *)
Theorem lookup_stable (srv : Server) (w w1 : World) (remote : string) (es : DirEntries) :
  Fs_list srv (fst (Split (cleanPath remote))) w = (Ok es, w1) ->
  newObject srv remote w = (fst (newObject srv remote w), w1)
  /\ forall ops,
       newObject srv remote (run srv ops w1)
       = (fst (newObject srv remote w), run srv ops w1).
Proof.
  intros Hl. destruct (Split (cleanPath remote)) as [dir file] eqn:Es. simpl in Hl.
  rewrite !(newObject_unfold srv remote w dir file Es), Hl.
  assert (forall w2, extends w1 w2 -> Fs_list srv dir w2 = (Ok es, w2)) as Hhit.
  { intros w2 He. apply Fs_list_hit. eapply cache_mono; [exact He|].
    eapply Fs_list_fill. exact Hl. }
  split.
  - destruct (String.eqb file ""); [reflexivity|]. destruct (lookup_name file es); reflexivity.
  - intros ops. rewrite (newObject_unfold srv remote _ dir file Es).
    rewrite (Hhit _ (run_extends srv ops w1)).
    destruct (String.eqb file ""); [reflexivity|]. destruct (lookup_name file es); reflexivity.
Qed.

Lemma lookup_stable_witness :
  newObject sample_server "a/b"
    (run sample_server [OpWait 7; OpList "a/b"; OpNewObject "x"]
       (snd (Fs_list sample_server "a/" (sample_world "latest"))))
  = (fst (newObject sample_server "a/b" (sample_world "latest")),
     run sample_server [OpWait 7; OpList "a/b"; OpNewObject "x"]
       (snd (Fs_list sample_server "a/" (sample_world "latest")))).
Proof.
  refine (proj2 (lookup_stable sample_server (sample_world "latest")
                   (snd (Fs_list sample_server "a/" (sample_world "latest"))) "a/b"
                   [Directory (ObjectInfo.mk "kb" "b" "a/b" 0 7) 1] _)
            [OpWait 7; OpList "a/b"; OpNewObject "x"]).
  vm_compute. reflexivity.
Defined.

(* ===================================================================== *)
(** ** Listings do not depend on the history of the handle *)
(* ===================================================================== *)

Lemma entry_of_shape remote item free free' :
  shape_of (fst (entry_of remote item free)) = shape_of (fst (entry_of remote item free')).
Proof. unfold entry_of. destruct (String.eqb (Entry.Type_ item) "d"); reflexivity. Qed.

(** The shapes of a listing do not depend on where its directories are
    allocated. *)
Lemma entries_of_shape remote items : forall free free',
  map shape_of (fst (entries_of remote items free))
  = map shape_of (fst (entries_of remote items free')).
Proof.
  induction items as [|item items IH]; intros free free'; [reflexivity|]. simpl.
  pose proof (entry_of_shape remote item free free') as H.
  destruct (entry_of remote item free) as [e f1].
  destruct (entry_of remote item free') as [e' f1']. specialize (IH f1 f1').
  destruct (entries_of remote items f1) as [es f2].
  destruct (entries_of remote items f1') as [es' f2']. simpl in *.
  rewrite H, IH. reflexivity.
Qed.

Lemma lookup_shape_of file es :
  lookup_shape file (map shape_of es) = option_map shape_of (lookup_name file es).
Proof.
  induction es as [|e es IH]; [reflexivity|]. simpl.
  assert (ObjectInfo.name (fst (shape_of e)) = Name e) as -> by (destruct e; reflexivity).
  destruct (String.eqb (Name e) file); [reflexivity | exact IH].
Qed.

Section History.
Variable srv : Server.

Lemma answered_lists w objId items : answered srv w objId items -> lists srv objId items.
Proof. intros (resp & body & H1 & H2). exists (length (objectCalls w)), resp, body. auto. Qed.

(** With a steady remote the tree under a root object has one listing for
    each path. *)
Lemma holds_fun kroot :
  steady srv ->
  forall q s1, holds srv kroot q s1 -> forall s2, holds srv kroot q s2 -> s1 = s2.
Proof.
  intros Hst q s1 H1. induction H1 as [items Hl|q parent info items Hq Hfix Hf Hp IH Hlook Hl];
    intros s2 H2.
  - inversion H2 as [items' Hl'|q' parent' info' items' Hq' _ _ _ _ _]; subst; [|congruence].
    rewrite (Hst kroot items items' Hl Hl'). reflexivity.
  - inversion H2 as [items' Hl' Hq0|q' parent' info' items' _ _ _ Hp' Hlook' Hl']; subst;
      [congruence|].
    rewrite <- (IH parent' Hp') in Hlook'. rewrite Hlook in Hlook'.
    injection Hlook' as <-. rewrite (Hst _ items items' Hl Hl'). reflexivity.
Qed.

Lemma remote_ok_same w w' :
  store w' = store w -> rootEntries (handle w') = rootEntries (handle w) ->
  rootId (handle w') = rootId (handle w) ->
  remote_ok srv w -> remote_ok srv w'.
Proof.
  intros Hs He Hr H q es Hq Hc. rewrite Hr. apply (H q es Hq).
  rewrite <- (cache_same_tree w w' q Hs He). exact Hc.
Qed.

(** Whatever the handle has done, the listings it holds are those of the
    tree of the remote under its root object. *)
Lemma reachable_remote_ok w :
  reachable srv w -> alloc_ok w /\ gate_ok w /\ remote_ok srv w.
Proof.
  apply (reachable_invariant srv (fun w => alloc_ok w /\ gate_ok w /\ remote_ok srv w)).
  - intros w0 (Ha & Hg & Hr). destruct (getRootId_unlisted srv w0 Hg) as [E|E].
    + rewrite E. auto.
    + split; [apply alloc_ok_getRootId; exact Ha|].
      split; [apply gate_ok_getRootId; exact Hg|].
      intros q es _ Hc. rewrite (unlisted_cache _ q E) in Hc. discriminate.
  - intros w0 remote objId (Ha & Hg & Hr). split; [|split].
    + revert Ha. apply alloc_ok_same; reflexivity.
    + revert Hg. apply gate_ok_same; reflexivity.
    + revert Hr. apply remote_ok_same; reflexivity.
  - intros w0 items (Ha & ((p & Hp) & _) & Hr) He Hne Hans. split; [|split].
    + apply alloc_ok_root_filled; assumption.
    + split; [|intros H; contradiction].
      exists p. eapply in_phase_same; [..|exact Hp]; reflexivity.
    + intros q es Hq Hc.
      destruct (cache_root_filled w0 _ _ Ha He q es Hq Hc) as (-> & ->).
      rewrite (entries_of_shape "" items (next w0) O). simpl.
      apply holds_root. eapply answered_lists. exact Hans.
  - intros w0 r info addr items (Ha & Hg & Hr) Hreach Hnone Hans. split; [|split].
    + eapply alloc_ok_node_filled; eassumption.
    + revert Hg. apply gate_ok_same; reflexivity.
    + intros q es Hq Hc. simpl.
      destruct (cache_node_filled w0 r info addr _ _ Ha Hreach Hnone q es Hq Hc)
        as [Hold|(-> & ->)]; [apply Hr; assumption|].
      destruct Hreach as (Hne & Hfix & Hf & parent & Hp & Hlook).
      rewrite (entries_of_shape r items (next w0) O).
      apply (holds_node srv _ r (map shape_of parent) info items); auto.
      * apply Hr; [apply parent_key_fixed | exact Hp].
      * rewrite lookup_shape_of, Hlook. reflexivity.
      * eapply answered_lists. exact Hans.
  - intros w0 (Ha & Hg & Hr). split; [|split].
    + revert Ha. apply alloc_ok_same; reflexivity.
    + revert Hg. apply gate_ok_same; reflexivity.
    + revert Hr. apply remote_ok_same; reflexivity.
  - intros w0 dir (Ha & Hg & Hr). split; [|split].
    + revert Ha. apply alloc_ok_same; reflexivity.
    + revert Hg. apply gate_ok_same; reflexivity.
    + revert Hr. apply remote_ok_same; reflexivity.
  - intros w0 d (Ha & Hg & Hr).
    destruct (wait_fields d w0) as (_ & _ & Hid & _ & Hs & He). split; [|split].
    + revert Ha. apply alloc_ok_same; auto.
    + apply gate_ok_wait. exact Hg.
    + revert Hr. apply remote_ok_same; auto.
  - intros name root opt. split; [apply alloc_ok_fresh|].
    split; [apply gate_ok_fresh|].
    intros q es _ Hc. rewrite unlisted_cache in Hc by reflexivity. discriminate.
Qed.

Lemma Fs_list_holds remote w es w1 :
  reachable srv w -> Fs_list srv remote w = (Ok es, w1) ->
  holds srv (rootId (handle w1)) (cleanPath remote) (map shape_of es).
Proof.
  intros Hreach Hl.
  assert (w1 = step srv (Op_list remote) w) as Hw1 by (simpl; rewrite Hl; reflexivity).
  pose proof (reachable_step srv (Op_list remote) w Hreach) as Hreach1.
  rewrite <- Hw1 in Hreach1. destruct (reachable_remote_ok w1 Hreach1) as (_ & _ & Hr).
  apply Hr; [apply cleanPath_idempotent | eapply Fs_list_fill; exact Hl].
Qed.
End History.

(** X20.  With a remote that answers the calls for one object with one
    listing, what [list] returns for a path depends on the root object only,
    not on the history of the handle: two handles in any states that hold the
    same root identifier after listing two spellings of one path got the same
    entries, in the same order, with the same fields, directories for
    directories. *)
Theorem listing_history_free (srv : Server) (w w' w1 w1' : World) (remote remote' : string)
    (es es' : DirEntries) :
  steady srv ->
  reachable srv w -> reachable srv w' ->
  cleanPath remote = cleanPath remote' ->
  Fs_list srv remote w = (Ok es, w1) ->
  Fs_list srv remote' w' = (Ok es', w1') ->
  rootId (handle w1) = rootId (handle w1') ->
  map shape_of es = map shape_of es'.
Proof.
  intros Hst Hreach Hreach' Hq Hl Hl' Hk.
  pose proof (Fs_list_holds srv remote w es w1 Hreach Hl) as H.
  pose proof (Fs_list_holds srv remote' w' es' w1' Hreach' Hl') as H'.
  rewrite Hq, Hk in H. eapply holds_fun; eassumption.
Qed.

Lemma sample_server_steady : steady sample_server.
Proof.
  intros objId items items' (k & r & b & H1 & <-) (k' & r' & b' & H2 & <-).
  simpl in H1, H2. rewrite H1 in H2. injection H2 as _ <-. reflexivity.
Qed.

Lemma listing_history_free_witness :
  map shape_of [Directory (ObjectInfo.mk "kb" "b" "a/b" 0 7) 1]
  = map shape_of [Directory (ObjectInfo.mk "kb" "b" "a/b" 0 7) 1].
Proof.
  apply (listing_history_free sample_server
           (sample_world "latest")
           (run sample_server [OpList "a/b"; OpWait 9; OpNewObject "x"] (sample_world "kroot"))
           (snd (Fs_list sample_server "a" (sample_world "latest")))
           (snd (Fs_list sample_server "a/"
                   (run sample_server [OpList "a/b"; OpWait 9; OpNewObject "x"]
                      (sample_world "kroot"))))
           "a" "a/").
  - apply sample_server_steady.
  - exists "kopia", "", (sample_options "latest"), []. reflexivity.
  - exists "kopia", "", (sample_options "kroot"), [OpList "a/b"; OpWait 9; OpNewObject "x"].
    reflexivity.
  - reflexivity.
  - vm_compute. reflexivity.
  - vm_compute. reflexivity.
  - vm_compute. reflexivity.
Defined.

(* ===================================================================== *)
(** ** What a call leaves alone *)
(* ===================================================================== *)

Lemma option_eq_Some {A} (x y : option A) :
  (forall a, x = Some a <-> y = Some a) -> x = y.
Proof.
  intros H. destruct x as [a|], y as [b|]; try reflexivity.
  - symmetry. apply H. reflexivity.
  - symmetry. apply H. reflexivity.
  - apply H. reflexivity.
Qed.

Section Frame.
Variable srv : Server.

(** [list] changes the cache at the paths of its walk only. *)
Lemma Fs_list_frame remote : forall w q,
  reachable srv w -> cleanPath q = q -> ~ on_walk q (cleanPath remote) ->
  cache (snd (Fs_list srv remote w)) q = cache w q.
Proof.
  remember (String.length remote) as n eqn:Hn. revert remote Hn.
  induction n as [n IH] using lt_wf_ind. intros remote Hn w q Hreach Hq Hoff.
  destruct (String.eqb (cleanPath remote) "") eqn:E.
  - apply String.eqb_eq in E. rewrite (Fs_list_root srv remote w E).
    rewrite E in Hoff.
    assert (q <> "") as Hq0 by (intros ->; apply Hoff; constructor).
    destruct (rootEntries (handle w)) as [es0|] eqn:Er; [reflexivity|].
    destruct (getRootId_cache srv w) as (Hr & Hs & _).
    pose proof (reachable_step srv OpGetRootId w Hreach) as Hreach1. simpl in Hreach1.
    pose proof (getRootId_result srv w) as Hres.
    destruct (getRootId srv w) as [[r|e|] wr]; simpl in *;
      try (apply cache_same_tree; assumption).
    rewrite Er in Hr.
    destruct (listObject_answer srv "" r wr) as [(e & ->)|(items & _ & ->)]; simpl.
    + rewrite <- (cache_same_tree w wr q Hs (eq_trans Hr (eq_sym Er))).
      apply (cache_same_tree wr (log_objectCall "" r false wr)); reflexivity.
    + rewrite (unlisted_cache w q Er).
      destruct (cache _ q) as [es|] eqn:Ec; [|reflexivity]. exfalso.
      apply (cache_root_filled wr r items (reachable_alloc_ok srv wr Hreach1) Hr q es Hq)
        in Ec as (Ec & _). contradiction.
  - apply String.eqb_neq in E.
    destruct (Split (cleanPath remote)) as [dir file] eqn:Es.
    rewrite (Fs_list_below_clean srv remote w dir file E Es).
    pose proof (dir_shorter remote (cleanPath_nonempty _ ltac:(apply String.eqb_neq; exact E)))
      as Hd.
    rewrite cleanPath_idempotent, Es in Hd. simpl in Hd.
    assert (parent_key (cleanPath remote) = cleanPath dir) as Hpk.
    { unfold parent_key. rewrite cleanPath_idempotent, Es. reflexivity. }
    assert (~ on_walk q (cleanPath dir)) as Hoff'.
    { intros H. apply Hoff. apply on_walk_up; [exact E|]. rewrite Hpk. exact H. }
    specialize (IH (String.length dir) ltac:(lia) dir eq_refl w q Hreach Hq Hoff').
    pose proof (reachable_step srv (Op_list dir) w Hreach) as Hreach'. simpl in Hreach'.
    pose proof (Fs_list_fill srv dir w) as Hfill.
    destruct (Fs_list srv dir w) as [[parent|e|] w']; simpl in IH, Hreach';
      [|exact IH|exact IH].
    destruct (lookup_name file parent) as [[info|info addr]|] eqn:Hlook;
      [exact IH| |exact IH].
    destruct (store w' !! addr) eqn:Est; [exact IH|].
    destruct (listObject_answer srv (cleanPath remote) (ObjectInfo.id info) w')
      as [(e & ->)|(items & _ & ->)]; simpl.
    + rewrite <- IH.
      apply (cache_same_tree w' (log_objectCall _ _ false w')); reflexivity.
    + rewrite <- IH.
      assert (reaches w' (cleanPath remote) info addr) as Hreaches.
      { unfold reaches. rewrite Hpk. unfold last_name. rewrite cleanPath_idempotent, Es.
        simpl. split; [exact E|]. split; [reflexivity|].
        pose proof (clean_file_nonempty remote E) as Hf. rewrite Es in Hf.
        split; [exact Hf|]. exists parent. split; [apply (Hfill parent w' eq_refl)|exact Hlook]. }
      apply option_eq_Some. intros es. split.
      * intros Hc.
        destruct (cache_node_filled w' _ info addr _ _ (reachable_alloc_ok srv w' Hreach')
                    Hreaches Est q es Hq Hc) as [Hold|(Heq & _)]; [exact Hold|].
        exfalso. apply Hoff. rewrite Heq. constructor.
      * intros Hc. eapply cache_mono; [|exact Hc]. apply extends_fetch. exact Est.
Qed.





End Frame.

(** X21.  A handle that holds a listing never asks for the snapshot list
    again and never changes its root: on a handle in any state whose cache
    holds a listing, the root identifier is not empty, and whatever
    operations follow and however much time passes, the root identifier and
    the number of snapshot-list calls stay as they are. *)
Theorem listed_means_resolved (srv : Server) (w : World) (q : string) (es : DirEntries) :
  reachable srv w ->
  cache w q = Some es ->
  rootId (handle w) <> ""
  /\ forall ops,
       snapshotCalls (run srv ops w) = snapshotCalls w
       /\ rootId (handle (run srv ops w)) = rootId (handle w).
Proof.
  intros Hreach Hc. destruct (reachable_gate_ok srv w Hreach) as ((p & Hp) & Hun).
  assert (rootId (handle w) <> "") as Hne.
  { intros E. apply cache_fuel_root_listed in Hc. apply Hc, Hun, E. }
  split; [exact Hne|]. intros ops.
  rewrite (phase_resolved w p Hp Hne) in Hp. destruct Hp as (Hi & _ & Hs).
  destruct (run_settled srv ops w (conj Hi Hs)) as (_ & Hr & Hn). auto.
Qed.

Lemma listed_means_resolved_witness :
  snapshotCalls
    (run sample_server [OpWait 9000; OpGetRootId; OpList "a/b"]
       (snd (Fs_list sample_server "a" (sample_world "latest"))))
  = snapshotCalls (snd (Fs_list sample_server "a" (sample_world "latest"))).
Proof.
  refine (proj1 (proj2 (listed_means_resolved sample_server
            (snd (Fs_list sample_server "a" (sample_world "latest"))) "a"
            [Directory (ObjectInfo.mk "kb" "b" "a/b" 0 7) 1] _ _)
          [OpWait 9000; OpGetRootId; OpList "a/b"])).
  - exists "kopia", "", (sample_options "latest"), [Op_list "a"]. reflexivity.
  - vm_compute. reflexivity.
Defined.

(** X22.  [list] changes the cache at the paths of its walk only: on a
    handle in any state, for every normalized path other than the normalized
    path of the call, its parent, the parent of that, and so on up to the
    root, the cache holds after the call what it held before. *)
Theorem list_frame (srv : Server) (remote q : string) (w : World) :
  reachable srv w ->
  cleanPath q = q ->
  ~ on_walk q (cleanPath remote) ->
  cache (snd (Fs_list srv remote w)) q = cache w q.
Proof. intros Hreach Hq Hoff. apply Fs_list_frame; assumption. Qed.

Lemma list_frame_witness :
  cache (snd (Fs_list sample_server "x"
                (snd (Fs_list sample_server "a/b" (sample_world "latest"))))) "a/b"
  = cache (snd (Fs_list sample_server "a/b" (sample_world "latest"))) "a/b".
Proof.
  apply (list_frame sample_server "x" "a/b").
  - exists "kopia", "", (sample_options "latest"), [Op_list "a/b"]. reflexivity.
  - reflexivity.
  - change (cleanPath "x") with "x". intros H.
    inversion H as [|q r Hne Hup]; subst.
    change (parent_key "x") with "" in Hup.
    inversion Hup as [|q r Hne' Hup']; subst. apply Hne'. reflexivity.
Defined.

